(** * The in-memory logger-configuration store of OpenRVDAS

    A shallow embedding of [logger/utils/server_api.py]
    (class [InMemoryServerAPI]) and the properties of its
    specification that concern cruises, modes, per-logger
    configurations and update callbacks.

    Layout: Python-level primitives (strings, [%] formatting,
    truthiness), the data model, a state-and-exception monad over the
    interpreter state, the methods of [InMemoryServerAPI] in source
    order, a well-formedness invariant of the object graph, the
    address check and the retry loop of [NetworkWriter]
    ([logger/writers/network_writer.py]), and then the theorems. *)

From Stdlib Require Import Ascii.
From stdpp Require Import gmap strings list fin_maps pretty.

Set Warnings "-register-all".

Local Open Scope string_scope.
Local Open Scope list_scope.

(** ** Python-level primitives *)

(** The double quote character, which the error messages of the source
    put around the names they report. *)
Definition dq : string := String (Ascii.ascii_of_nat 34) EmptyString.

(** Values that a parsed JSON document can hold: the store keeps
    configuration specifications and status reports in this form and
    never looks inside them, except for Python's truth test. *)
Inductive json : Type :=
  | JNull
  | JBool (b : bool)
  | JNum (n : Z)
  | JStr (s : string)
  | JList (l : list json)
  | JDict (d : list (string * json)).

(** Python's [bool(x)] on such a value. *)
Definition truthy (j : json) : bool :=
  match j with
  | JNull => false
  | JBool b => b
  | JNum n => negb (Z.eqb n 0%Z)
  | JStr s => negb (String.eqb s EmptyString)
  | JList l => negb (bool_decide (l = []))
  | JDict d => negb (bool_decide (d = []))
  end.

(** Registered callbacks are opaque callables, known by name. *)
Definition callback : Type := string.
Definition kwargs : Type := list (string * json).

(** Arguments of a [%] format, of a logging call or of an exception. *)
Inductive pyarg : Type :=
  | ANone
  | AStr (s : string)
  | AInt (n : Z)
  | AFun (f : callback).

(** The exceptions the module can raise; a [ValueError] carries the
    arguments it was built with.  [UnboundLocalError] is the
    [NameError] of a local variable read before any assignment, and
    [RecursionError] the overflow of the call stack.  [BadRef] is not a
    Python exception: it is the model's answer when a reference names
    no object of the heap, which no well-formed state allows. *)
Inductive exn : Type :=
  | ValueError (args : list pyarg)
  | TypeError (msg : string)
  | NameError (name : string)
  | UnboundLocalError (name : string)
  | RecursionError
  | BadRef.

(** [str(x)]. *)
Definition py_str (a : pyarg) : string :=
  match a with
  | ANone => "None"
  | AStr s => s
  | AInt n => pretty n
  | AFun f => "<function " +:+ f +:+ ">"
  end.

Definition not_enough : string := "not enough arguments for format string".
Definition not_all : string :=
  "not all arguments converted during string formatting".

(** [fmt % args], for the conversions the module uses ([%s], [%d] and
    the literal [%%]): each conversion consumes one argument, a missing
    or a left-over argument is a [TypeError], and [%d] wants a number. *)
Fixpoint percent (fmt : string) (args : list pyarg) : exn + string :=
  match fmt with
  | EmptyString =>
      match args with
      | [] => inr EmptyString
      | _ :: _ => inl (TypeError not_all)
      end
  | String c rest =>
      if Ascii.eqb c "%"%char then
        match rest with
        | EmptyString => inl (ValueError [AStr "incomplete format"])
        | String k rest' =>
            if Ascii.eqb k "%"%char then
              match percent rest' args with
              | inr s => inr (String "%"%char s)
              | inl e => inl e
              end
            else if Ascii.eqb k "s"%char then
              match args with
              | [] => inl (TypeError not_enough)
              | a :: args' =>
                  match percent rest' args' with
                  | inr s => inr (py_str a +:+ s)
                  | inl e => inl e
                  end
              end
            else if Ascii.eqb k "d"%char then
              match args with
              | [] => inl (TypeError not_enough)
              | AInt n :: args' =>
                  match percent rest' args' with
                  | inr s => inr (pretty n +:+ s)
                  | inl e => inl e
                  end
              | _ :: _ => inl (TypeError "%d format: a number is required")
              end
            else inl (ValueError [AStr "unsupported format character"])
        end
      else
        match percent rest args with
        | inr s => inr (String c s)
        | inl e => inl e
        end
  end.

(** [sub in s] on strings. *)
Fixpoint str_in (sub s : string) : bool :=
  String.prefix sub s ||
  match s with
  | EmptyString => false
  | String _ s' => str_in sub s'
  end.

Definition ID_SEPARATOR : string := ":".

(** ** Data model *)

(** Dictionaries of the shape [{logger: config_name}] are the only
    objects the store both shares and updates in place: a mode of a
    cruise definition is one, and so is the live table of a cruise.
    They live on a heap and are named by reference, so that sharing
    between a definition and the live state can be told apart from a
    copy.  Every other dictionary is either owned by the store alone or
    never updated after it is built, and is a plain finite map. *)
Definition loc : Type := positive.
Abbreviation table := (gmap string string).

(** [cruise_config["cruise"]]. *)
Record cruise_info : Type := CruiseInfo {
  ci_id : option string;
  ci_start : option string;
  ci_end : option string
}.

(** A logger specification: an optional host and the list of the names
    of the configurations that are valid for the logger. *)
Record logger_spec : Type := LoggerSpec {
  ls_host : option string;
  ls_configs : option (list string)
}.

(** A cruise definition.  Each field is a key of the Python dictionary,
    [None] when the key is absent; a mode maps to the reference of its
    [{logger: config_name}] dictionary. *)
Record cruise_config : Type := CruiseConfig {
  cc_cruise : option cruise_info;
  cc_loggers : option (gmap string logger_spec);
  cc_modes : option (gmap string loc);
  cc_default_mode : option string;
  cc_configs : option (gmap string json)
}.

(** Truth tests: a dictionary is false when it is empty, and so is a
    list; [None] is false. *)
Definition truthy_config (cc : cruise_config) : bool :=
  bool_decide (is_Some (cc_cruise cc)) || bool_decide (is_Some (cc_loggers cc))
  || bool_decide (is_Some (cc_modes cc))
  || bool_decide (is_Some (cc_default_mode cc))
  || bool_decide (is_Some (cc_configs cc)).

Definition truthy_logger (ls : logger_spec) : bool :=
  bool_decide (is_Some (ls_host ls)) || bool_decide (is_Some (ls_configs ls)).

Definition truthy_map {K : Type} `{Countable K} {V : Type}
    (m : gmap K V) : bool :=
  negb (bool_decide (size m = 0)).

Definition truthy_list {A : Type} (l : list A) : bool :=
  negb (bool_decide (length l = 0)).

Definition truthy_str (s : string) : bool :=
  negb (String.eqb s EmptyString).

(** The fields of an [InMemoryServerAPI] object, as [__init__] sets
    them up. *)
Record InMemoryServerAPI : Type := API {
  cruise_configs : gmap string cruise_config;
  mode : gmap string string;
  logger_config : gmap string loc;
  callbacks : gmap (option string) (list (callback * kwargs));
  status : list (Z * json)
}.

Inductive log_level : Type := DEBUG | INFO | ERROR.

(** What a call leaves behind outside the store: log records and the
    calls made to registered callbacks, oldest first. *)
Inductive event : Type :=
  | Logged (level : log_level) (fmt : string) (args : list pyarg)
  | Called (f : callback) (kw : kwargs).

(** The interpreter state: the heap of [{logger: config_name}]
    dictionaries, the store object and the trace of events. *)
Record world : Type := World {
  heap : gmap loc table;
  self : InMemoryServerAPI;
  trace : list event
}.

Definition init : InMemoryServerAPI :=
  {| cruise_configs := ∅; mode := ∅; logger_config := ∅;
     callbacks := ∅; status := [] |}.

(** Field updates. *)
Definition set_cruise_configs (f : gmap string cruise_config → gmap string cruise_config)
    (a : InMemoryServerAPI) : InMemoryServerAPI :=
  {| cruise_configs := f (cruise_configs a); mode := mode a;
     logger_config := logger_config a; callbacks := callbacks a;
     status := status a |}.

Definition set_mode_field (f : gmap string string → gmap string string)
    (a : InMemoryServerAPI) : InMemoryServerAPI :=
  {| cruise_configs := cruise_configs a; mode := f (mode a);
     logger_config := logger_config a; callbacks := callbacks a;
     status := status a |}.

Definition set_logger_config_field (f : gmap string loc → gmap string loc)
    (a : InMemoryServerAPI) : InMemoryServerAPI :=
  {| cruise_configs := cruise_configs a; mode := mode a;
     logger_config := f (logger_config a); callbacks := callbacks a;
     status := status a |}.

Definition set_callbacks
    (f : gmap (option string) (list (callback * kwargs)) →
         gmap (option string) (list (callback * kwargs)))
    (a : InMemoryServerAPI) : InMemoryServerAPI :=
  {| cruise_configs := cruise_configs a; mode := mode a;
     logger_config := logger_config a; callbacks := f (callbacks a);
     status := status a |}.

Definition set_status (f : list (Z * json) → list (Z * json))
    (a : InMemoryServerAPI) : InMemoryServerAPI :=
  {| cruise_configs := cruise_configs a; mode := mode a;
     logger_config := logger_config a; callbacks := callbacks a;
     status := f (status a) |}.

(** ** The monad of the methods: state and exceptions *)

(** A computation runs from a world to a world and either a result or
    the exception it raised; the world it returns with an exception is
    the world at the moment of the [raise]. *)
Definition M (A : Type) : Type := world → world * (exn + A).

Definition ret {A : Type} (a : A) : M A := λ w, (w, inr a).

Definition raise {A : Type} (e : exn) : M A := λ w, (w, inl e).

Definition bind {A B : Type} (m : M A) (k : A → M B) : M B :=
  λ w, match m w with
       | (w', inr a) => k a w'
       | (w', inl e) => (w', inl e)
       end.

Declare Scope py_scope.
Delimit Scope py_scope with py.
Notation "x <- m ;; k" := (bind m (λ x, k))
  (at level 100, m at next level, right associativity) : py_scope.
Notation "m ;; k" := (bind m (λ _, k))
  (at level 100, right associativity) : py_scope.
Local Open Scope py_scope.

(** Reading and updating the store object and the heap. *)
Definition get_self : M InMemoryServerAPI := λ w, (w, inr (self w)).

Definition modify_self (f : InMemoryServerAPI → InMemoryServerAPI) : M unit :=
  λ w, ({| heap := heap w; self := f (self w); trace := trace w |}, inr tt).

Definition emit (e : event) : M unit :=
  λ w, ({| heap := heap w; self := self w; trace := trace w ++ [e] |}, inr tt).

(** Following a reference. *)
Definition deref (l : loc) : M table :=
  λ w, match heap w !! l with
       | Some t => (w, inr t)
       | None => (w, inl BadRef)
       end.

(** A new dictionary object holding [t]: its reference is one the heap
    does not use yet. *)
Definition fresh_loc (h : gmap loc table) : loc := fresh (dom h).

Definition alloc (t : table) : M loc :=
  λ w, let l := fresh_loc (heap w) in
       ({| heap := <[l := t]> (heap w); self := self w; trace := trace w |},
        inr l).

(** [d[k] = v] on the dictionary object at [l]. *)
Definition store_item (l : loc) (k v : string) : M unit :=
  λ w, match heap w !! l with
       | Some t =>
           ({| heap := <[l := <[k := v]> t]> (heap w); self := self w;
               trace := trace w |}, inr tt)
       | None => (w, inl BadRef)
       end.

(** [raise ValueError(fmt % args)]: the message is formatted first, and
    a failure of the formatting is the exception that escapes. *)
Definition raise_ValueError {A : Type} (fmt : string) (args : list pyarg) : M A :=
  match percent fmt args with
  | inr msg => raise (ValueError [AStr msg])
  | inl e => raise e
  end.

(** Evaluating a name that is bound neither in the function nor in the
    module. *)
Definition unbound {A : Type} (name : string) : M A := raise (NameError name).

(** [logging.debug], [logging.info], [logging.error]: the record is
    kept with its format and arguments. *)
Definition logging (level : log_level) (fmt : string) (args : list pyarg) : M unit :=
  emit (Logged level fmt args).

(** A [for] loop whose body is run for its effects. *)
Fixpoint for_each {A : Type} (l : list A) (body : A → M unit) : M unit :=
  match l with
  | [] => ret tt
  | x :: l' => body x ;; for_each l' body
  end.

(** The idiom [x = d.get(key, None)] followed by
    [if not x: raise ...]: the value when it is there and true,
    the exception otherwise. *)
Definition get_or_raise {A : Type} (x : option A) (test : A → bool)
    (otherwise : M A) : M A :=
  match x with
  | Some a => if test a then ret a else otherwise
  | None => otherwise
  end.

Definition when (b : bool) (m : M unit) : M unit :=
  if b then m else ret tt.

Definition arg_of (cruise_id : option string) : pyarg :=
  match cruise_id with
  | Some c => AStr c
  | None => ANone
  end.

(** A call of a registered callback.  Callbacks are outside the module:
    a call is recorded, and is taken to return without touching the
    store.  This is the callback that does nothing; [call_with] below
    takes what the callbacks do as a parameter, and the statements
    about the outcome of [signal_update] are made of
    [signal_update_with]. *)
Definition call (f : callback) (kw : kwargs) : M unit := emit (Called f kw).

(** ** The methods of [InMemoryServerAPI] *)

(** Values of the dictionaries [get_configs] builds: configuration
    names, configuration specifications, or [None]. *)
Inductive pyval : Type :=
  | VNone
  | VStr (s : string)
  | VJson (j : json).

(** What [get_configs] returns: the dictionary object of a mode, by
    reference, or a dictionary it has just built. *)
Inductive configs_result : Type :=
  | Ref (l : loc)
  | Fresh (d : gmap string pyval).

(** [get_cruises]: [list(self.cruise_configs)].  The order of the list
    is that of the finite map, where Python lists the ids in the order
    in which they were first stored: the list stands for its members,
    and no statement below depends on its order.  The same holds for
    the list of [get_modes]. *)
Definition get_cruises : M (list string) :=
  a <- get_self ;;
  ret ((map_to_list (cruise_configs a)).*1).

Definition get_cruise_config (cruise_id : string) : M cruise_config :=
  a <- get_self ;;
  get_or_raise (cruise_configs a !! cruise_id) truthy_config
    (raise_ValueError ("No such cruise found: " +:+ dq +:+ "%s" +:+ dq)
       [AStr cruise_id]).

Definition get_mode (cruise_id : string) : M (option string) :=
  a <- get_self ;;
  ret (mode a !! cruise_id).

Definition get_modes (cruise_id : string) : M (list string) :=
  cruise_config <- get_cruise_config cruise_id ;;
  match cc_modes cruise_config with
  | Some modes => ret ((map_to_list modes).*1)
  | None => raise (TypeError "'NoneType' object is not iterable")
  end.

Definition get_default_mode (cruise_id : string) : M (option string) :=
  cruise_config <- get_cruise_config cruise_id ;;
  ret (cc_default_mode cruise_config).

Definition get_loggers (cruise_id : string) : M (gmap string logger_spec) :=
  cruise_config <- get_cruise_config cruise_id ;;
  get_or_raise (cc_loggers cruise_config) truthy_map
    (raise_ValueError ("No loggers found in cruise " +:+ dq +:+ "%s" +:+ dq)
       [AStr cruise_id]).

(** The last line of [get_logger] reads [logger_id], a name that is
    neither a parameter (the parameter is [logger]) nor bound in the
    module. *)
Definition get_logger (cruise_id logger : string) : M (option logger_spec) :=
  loggers <- get_loggers cruise_id ;;
  if negb (bool_decide (is_Some (loggers !! logger))) then
    raise_ValueError
      ("No logger " +:+ dq +:+ "%s" +:+ dq +:+ " found in cruise "
       +:+ dq +:+ "%s" +:+ dq)
      [AStr logger; AStr cruise_id]
  else
    logger_id <- unbound "logger_id" ;;
    ret (loggers !! (logger_id : string)).

(** [get_config].  In the branch for a given mode, line 443 reads
    [logger], which is not bound: the parameter is [logger_id]. *)
Definition get_config (cruise_id logger_id : string) (m : option string)
    : M (option json) :=
  cruise_config <- get_cruise_config cruise_id ;;
  (if negb (truthy_config cruise_config) then
     raise_ValueError
       ("No cruise config found for " +:+ dq +:+ "%s" +:+ dq +:+ "?!?")
       [AStr cruise_id]
   else ret tt) ;;
  configs <- get_or_raise (cc_configs cruise_config) truthy_map
    (raise_ValueError
       ("Cruise " +:+ dq +:+ "%s" +:+ dq +:+ " has no configs?!?")
       [AStr cruise_id]) ;;
  match m with
  | None =>
      a <- get_self ;;
      let no_config :=
        raise_ValueError
          ("No config defined for cruise " +:+ dq +:+ "%s" +:+ dq +:+ "?!?")
          [AStr cruise_id] in
      match logger_config a !! cruise_id with
      | None => no_config
      | Some l =>
          cruise_configs <- deref l ;;
          if negb (truthy_map cruise_configs) then no_config
          else
            match cruise_configs !! logger_id with
            | Some config_name => ret (configs !! config_name)
            | None => ret None
            end
      end
  | Some m =>
      cruise_modes <- get_or_raise (cc_modes cruise_config) truthy_map
        (raise_ValueError
           ("Cruise " +:+ dq +:+ "%s" +:+ dq +:+ " has no modes?!?")
           [AStr cruise_id]) ;;
      match cruise_modes !! m with
      | None =>
          raise_ValueError
            ("Cruise " +:+ dq +:+ "%s" +:+ dq +:+ " has no mode "
             +:+ dq +:+ "%s" +:+ dq +:+ "?!?")
            [AStr cruise_id; AStr m]
      | Some logger_config_dict =>
          logger <- unbound "logger" ;;
          t <- deref logger_config_dict ;;
          match t !! (logger : string) with
          | None => ret None
          | Some config_name =>
              if negb (truthy_str config_name) then ret None
              else
                config <- get_or_raise (configs !! config_name) truthy
                  (raise_ValueError
                     ("Cruise " +:+ dq +:+ "%s" +:+ dq +:+ " config "
                      +:+ dq +:+ "%s" +:+ dq +:+ " not found?!?")
                     [AStr cruise_id; AStr config_name]) ;;
                ret (Some config)
          end
      end
  end.

(** The recursion limit of the interpreter. *)
Definition recursion_limit : nat := 1000.

Definition pyval_of (o : option json) : pyval :=
  match o with
  | Some j => VJson j
  | None => VNone
  end.

(** A dictionary comprehension [{k: f(k) for k in keys}]. *)
Fixpoint comprehension (keys : list string) (f : string → M pyval)
    : M (gmap string pyval) :=
  match keys with
  | [] => ret ∅
  | k :: keys' =>
      v <- f k ;;
      rest <- comprehension keys' f ;;
      ret (<[k := v]> rest)
  end.

(** A [for] loop that updates one local variable. *)
Fixpoint for_fold {A S : Type} (l : list A) (s : S) (body : A → S → M S)
    : M S :=
  match l with
  | [] => ret s
  | x :: l' => s' <- body x s ;; for_fold l' s' body
  end.

(** [get_configs], with the number of stack frames left.  [if cruise_id:]
    and [if mode:] are truth tests, so an empty string counts as an
    omitted argument.  Without a cruise, the method calls itself once
    per known cruise and merges the results under the keys
    [cruise_id:logger]. *)
Fixpoint get_configs_at (depth : nat) (cruise_id m : option string)
    : M configs_result :=
  match depth with
  | O => raise RecursionError
  | S depth' =>
      if from_option truthy_str false cruise_id then
        let cruise_id := default EmptyString cruise_id in
        if from_option truthy_str false m then
          let m := default EmptyString m in
          cruise_config <- get_cruise_config cruise_id ;;
          (if negb (truthy_config cruise_config) then
             raise_ValueError
               ("Cruise " +:+ dq +:+ "%s" +:+ dq +:+ " not found in data store")
               [AStr cruise_id]
           else ret tt) ;;
          modes <- get_or_raise (cc_modes cruise_config) truthy_map
            (raise_ValueError
               ("Cruise " +:+ dq +:+ "%s" +:+ dq +:+ " has no modes??")
               [AStr cruise_id]) ;;
          match modes !! m with
          | None =>
              raise_ValueError
                ("Cruise " +:+ dq +:+ "%s" +:+ dq +:+ " has no mode "
                 +:+ dq +:+ "%s" +:+ dq)
                [AStr cruise_id; AStr m]
          | Some l => ret (Ref l)
          end
        else
          loggers <- get_loggers cruise_id ;;
          d <- comprehension ((map_to_list loggers).*1)
                 (λ logger,
                    config <- get_config cruise_id logger None ;;
                    ret (pyval_of config)) ;;
          ret (Fresh d)
      else
        cruises <- get_cruises ;;
        configs <- for_fold cruises (∅ : gmap string pyval)
          (λ cruise_id configs,
             cruise_configs <- get_configs_at depth' (Some cruise_id) m ;;
             items <- match cruise_configs with
                      | Ref l => t <- deref l ;; ret (VStr <$> t)
                      | Fresh d => ret d
                      end ;;
             let munged_configs : gmap string pyval :=
               list_to_map
                 (prod_map (λ logger, cruise_id +:+ ID_SEPARATOR +:+ logger) id
                    <$> map_to_list items) in
             ret (munged_configs ∪ configs)) ;;
        ret (Fresh configs)
  end.

Definition get_configs (cruise_id m : option string) : M configs_result :=
  get_configs_at recursion_limit cruise_id m.

(** [set_mode]: after the checks, the current mode is rebound and the
    live table of the cruise is rebound to a copy of the mode's
    dictionary. *)
Definition set_mode (cruise_id m : string) : M unit :=
  cruise_config <- get_cruise_config cruise_id ;;
  (if negb (truthy_config cruise_config) then
     raise_ValueError
       ("Cruise " +:+ dq +:+ "%s" +:+ dq +:+ " not found in data store")
       [AStr cruise_id]
   else ret tt) ;;
  modes <- get_or_raise (cc_modes cruise_config) truthy_map
    (raise_ValueError
       ("Cruise " +:+ dq +:+ "%s" +:+ dq +:+ " has no modes??")
       [AStr cruise_id]) ;;
  match modes !! m with
  | None =>
      raise_ValueError
        ("Cruise " +:+ dq +:+ "%s" +:+ dq +:+ " has no mode "
         +:+ dq +:+ "%s" +:+ dq)
        [AStr cruise_id; AStr m]
  | Some l =>
      modify_self (set_mode_field <[cruise_id := m]>) ;;
      t <- deref l ;;
      copy <- alloc t ;;
      modify_self (set_logger_config_field <[cruise_id := copy]>)
  end.

(** [set_logger_config]: the checks walk down the definition; the
    assignment creates the live table of the cruise when there is none
    and then stores into it, in place. *)
Definition set_logger_config (cruise_id logger config : string) : M unit :=
  cruise_config <- get_cruise_config cruise_id ;;
  (if negb (truthy_config cruise_config) then
     raise_ValueError
       ("Cruise " +:+ dq +:+ "%s" +:+ dq +:+ " not found in data store")
       [AStr cruise_id]
   else ret tt) ;;
  loggers <- get_or_raise (cc_loggers cruise_config) truthy_map
    (raise_ValueError
       ("Cruise " +:+ dq +:+ "%s" +:+ dq +:+ " has no loggers??")
       [AStr cruise_id]) ;;
  logger_spec <- get_or_raise (loggers !! logger) truthy_logger
    (raise_ValueError
       ("Cruise " +:+ dq +:+ "%s" +:+ dq +:+ " has no logger "
        +:+ dq +:+ "%s" +:+ dq +:+ "??")
       [AStr cruise_id; AStr logger]) ;;
  configs <- get_or_raise (ls_configs logger_spec) truthy_list
    (raise_ValueError
       ("Logger " +:+ dq +:+ "%s" +:+ dq +:+ " in cruise "
        +:+ dq +:+ "%s" +:+ dq +:+ " has no configs??")
       [AStr logger; AStr cruise_id]) ;;
  (if negb (bool_decide (config ∈ configs)) then
     raise_ValueError
       ("Config " +:+ dq +:+ "%s" +:+ dq +:+ " not valid for logger "
        +:+ dq +:+ "%s" +:+ dq +:+ " in cruise " +:+ dq +:+ "%s" +:+ dq)
       [AStr config; AStr logger; AStr cruise_id]
   else ret tt) ;;
  a <- get_self ;;
  (if negb (bool_decide (is_Some (logger_config a !! cruise_id))) then
     empty <- alloc ∅ ;;
     modify_self (set_logger_config_field <[cruise_id := empty]>)
   else ret tt) ;;
  a <- get_self ;;
  match logger_config a !! cruise_id with
  | Some l => store_item l logger config
  | None => raise BadRef
  end.

(** [on_update]: the registration is appended to the list of its
    scope, [None] being the scope of all cruises. *)
Definition on_update (f : callback) (kw : option kwargs)
    (cruise_id : option string) : M unit :=
  a <- get_self ;;
  when (negb (bool_decide (is_Some (callbacks a !! cruise_id))))
    (modify_self (set_callbacks <[cruise_id := []]>)) ;;
  let kw := default [] kw in
  modify_self (set_callbacks
    (λ cbs, <[cruise_id := default [] (cbs !! cruise_id) ++ [(f, kw)]]> cbs)).

(** The first statement of [signal_update]: the loop over the
    registrations of the scope logs each of them, and the call of
    [callback] on [kwargs] stands after the loop, at the indentation of
    the [for]: it runs once, on the variables as the loop left them. *)
Definition signal_scope (cruise_id : option string) : M unit :=
  a <- get_self ;;
  match callbacks a !! cruise_id with
  | Some registered =>
      for_each registered
        (λ '(callback, kwargs),
           logging DEBUG "Executing update callback for cruise %s: %s"
             [arg_of cruise_id; AFun callback]) ;;
      match last registered with
      | Some (callback, kwargs) => call callback kwargs
      | None => raise (UnboundLocalError "callback")
      end
  | None => ret tt
  end.

(** [signal_update]: the scope asked for, and then, when a cruise was
    given, the call [self.signal_update(cruise_id=None)], which runs
    the scope of all cruises and stops there. *)
Definition signal_update (cruise_id : option string) : M unit :=
  signal_scope cruise_id ;;
  match cruise_id with
  | Some _ => signal_scope None
  | None => ret tt
  end.

(** [load_cruise].  Without an id the method reads [cruise_configs],
    which is not bound (the attribute is [self.cruise_configs]).  The
    [raise] for an id with the separator applies [%] to the format and
    [ID_SEPARATOR] alone: the comma makes [cruise_id] a second argument
    of [ValueError]. *)
Definition load_cruise (cruise_config : cruise_config) : M unit :=
  cruise_id <-
    match cc_cruise cruise_config ≫= ci_id with
    | Some i => ret i
    | None =>
        cruise_configs <- unbound (A := gmap string json) "cruise_configs" ;;
        match percent "cruise_%d" [AInt (Z.of_nat (size cruise_configs))] with
        | inr s => ret s
        | inl e => raise e
        end
    end ;;
  (if str_in ID_SEPARATOR cruise_id then
     match percent ("Illegal character " +:+ dq +:+ "%s" +:+ dq
                    +:+ " in cruise id: " +:+ dq +:+ "%s" +:+ dq)
             [AStr ID_SEPARATOR]
     with
     | inr msg => raise (ValueError [AStr msg; AStr cruise_id])
     | inl e => raise e
     end
   else ret tt) ;;
  modify_self (set_cruise_configs <[cruise_id := cruise_config]>) ;;
  match cc_default_mode cruise_config with
  | Some m => set_mode cruise_id m
  | None => ret tt
  end.

(** [delete_cruise]: each of the four tables drops its entry for the
    cruise when it has one; an unknown cruise is logged. *)
Definition delete_cruise (cruise_id : string) : M unit :=
  a <- get_self ;;
  (if bool_decide (is_Some (cruise_configs a !! cruise_id)) then
     modify_self (set_cruise_configs (delete cruise_id))
   else
     logging ERROR ("Trying to delete undefined cruise " +:+ dq +:+ "%s" +:+ dq)
       [AStr cruise_id]) ;;
  a <- get_self ;;
  when (bool_decide (is_Some (mode a !! cruise_id)))
    (modify_self (set_mode_field (delete cruise_id))) ;;
  a <- get_self ;;
  when (bool_decide (is_Some (logger_config a !! cruise_id)))
    (modify_self (set_logger_config_field (delete cruise_id))) ;;
  a <- get_self ;;
  when (bool_decide (is_Some (callbacks a !! Some cruise_id)))
    (modify_self (set_callbacks (delete (Some cruise_id)))).

(** The world after a computation, and what it returned or raised. *)
Definition exec {A : Type} (m : M A) (w : world) : world := (m w).1.
Definition result {A : Type} (m : M A) (w : world) : exn + A := (m w).2.

(** The calls made to callbacks, in order. *)
Definition calls (t : list event) : list (callback * kwargs) :=
  omap (λ e, match e with Called f kw => Some (f, kw) | Logged _ _ _ => None end) t.

(** ** The cruise of the specification's scenario *)

Module Scenario.

Definition off_mode : table := list_to_map [("knud", "off"); ("gyr1", "off")].
Definition port_mode : table := list_to_map [("knud", "off"); ("gyr1", "net")].

(** The caller's objects: the two mode dictionaries of the
    definition. *)
Definition caller_heap : gmap loc table :=
  list_to_map [(1%positive, off_mode); (2%positive, port_mode)].

Definition NBP1700 : cruise_config :=
  {| cc_cruise := Some {| ci_id := Some "NBP1700";
                          ci_start := Some "2017-01-01";
                          ci_end := Some "2017-02-01" |};
     cc_loggers := Some (list_to_map
       [("knud", {| ls_host := None; ls_configs := Some ["off"; "net"] |});
        ("gyr1", {| ls_host := None; ls_configs := Some ["off"; "net"] |})]);
     cc_modes := Some (list_to_map [("off", 1%positive); ("port", 2%positive)]);
     cc_default_mode := Some "off";
     cc_configs := Some (list_to_map
       [("off", JDict [("name", JStr "off")]);
        ("net", JDict [("name", JStr "net")])]) |}.

(** A new store, before any call. *)
Definition start : world :=
  {| heap := caller_heap; self := init; trace := [] |}.

Definition loaded : world := exec (load_cruise NBP1700) start.

End Scenario.

(** The message of [get_cruise_config] for an unknown cruise. *)
Definition no_such_cruise (c : string) : exn :=
  ValueError [AStr ("No such cruise found: " +:+ dq +:+ c +:+ dq)].

(** The log records that the loop of [signal_update] writes for a list
    of registrations. *)
Definition debug_records (cruise_id : option string)
    (registered : list (callback * kwargs)) : list event :=
  (λ r, Logged DEBUG "Executing update callback for cruise %s: %s"
          [arg_of cruise_id; AFun r.1]) <$> registered.

(** ** What a caller can observe of the live state *)

(** The live table of a cruise: the dictionary that
    [self.logger_config] holds for it. *)
Definition live_table (w : world) (c : string) : option table :=
  logger_config (self w) !! c ≫= λ l, heap w !! l.

(** The Current Configuration of a logger: the name its cruise's live
    table gives it. *)
Definition current_config (w : world) (c lg : string) : option string :=
  live_table w c ≫= lookup lg.

(** The names that are valid configurations of a logger. *)
Definition valid_configs (spec : logger_spec) : list string :=
  default [] (ls_configs spec).

(** ** Well-formed worlds *)

(** [l] is the dictionary of some mode of some stored definition. *)
Definition def_loc (w : world) (l : loc) : Prop :=
  ∃ c D ms m, cruise_configs (self w) !! c = Some D
              ∧ cc_modes D = Some ms ∧ ms !! m = Some l.

(** [l] is the live table of some cruise. *)
Definition live_loc (w : world) (l : loc) : Prop :=
  ∃ c, logger_config (self w) !! c = Some l.

(** The shape of the object graph that the methods keep: live tables
    and mode dictionaries exist, no two cruises share a live table, and
    no live table is the dictionary of a mode. *)
Record wf (w : world) : Prop := WF {
  wf_live_alloc : ∀ l, live_loc w l → is_Some (heap w !! l);
  wf_live_inj : ∀ c1 c2 l,
    logger_config (self w) !! c1 = Some l →
    logger_config (self w) !! c2 = Some l → c1 = c2;
  wf_def_alloc : ∀ l, def_loc w l → is_Some (heap w !! l);
  wf_sep : ∀ l, def_loc w l → live_loc w l → False
}.

(** The same conditions as a test that computes. *)
Definition wf_check (w : world) : bool :=
  bool_decide (map_Forall (λ _ l, is_Some (heap w !! l)) (logger_config (self w)))
  && bool_decide
       (map_Forall (λ c1 l1,
          map_Forall (λ c2 l2, l1 = l2 → c1 = c2) (logger_config (self w)))
          (logger_config (self w)))
  && bool_decide
       (map_Forall (λ _ D,
          map_Forall (λ _ l,
            is_Some (heap w !! l)
            ∧ map_Forall (λ _ l', l' ≠ l) (logger_config (self w)))
            (default ∅ (cc_modes D)))
          (cruise_configs (self w))).

(** A definition a caller may hand to [load_cruise]: its mode
    dictionaries exist and none of them is a live table of the store
    (no method gives a live table away). *)
Definition loadable (w : world) (D : cruise_config) : Prop :=
  ∀ ms m l, cc_modes D = Some ms → ms !! m = Some l →
            is_Some (heap w !! l) ∧ ¬ live_loc w l.

(** ** Sequences of calls *)

(** The two calls that change the live state of a cruise. *)
Inductive request : Type :=
  | SetMode (cruise_id m : string)
  | SetLoggerConfig (cruise_id logger config : string).

Definition perform (r : request) : M unit :=
  match r with
  | SetMode c m => set_mode c m
  | SetLoggerConfig c lg k => set_logger_config c lg k
  end.

(** The world after a sequence of calls; a call that raises leaves the
    world it raised in, and the next call starts from there. *)
Fixpoint run (rs : list request) (w : world) : world :=
  match rs with
  | [] => w
  | r :: rs' => run rs' (exec (perform r) w)
  end.

(** The dictionary of mode [m] in the stored definition of cruise [c],
    by reference, and its contents. *)
Definition mode_dict (w : world) (c m : string) : option loc :=
  D ← cruise_configs (self w) !! c; ms ← cc_modes D; ms !! m.

Definition mode_mapping (w : world) (c m : string) : option table :=
  mode_dict w c m ≫= λ l, heap w !! l.

(** The world a successful [set_mode] makes: the mode is recorded and
    the live table is a new object that holds [t]. *)
Definition mode_set (w : world) (c m : string) (t : table) : world :=
  {| heap := <[fresh_loc (heap w) := t]> (heap w);
     self := set_logger_config_field <[c := fresh_loc (heap w)]>
               (set_mode_field <[c := m]> (self w));
     trace := trace w |}.

(** The worlds a successful [set_logger_config] makes: an entry stored
    into the live table [l], or into a new live table when the cruise
    has none. *)
Definition config_stored (w : world) (l : loc) (t : table) (lg k : string) : world :=
  {| heap := <[l := <[lg := k]> t]> (heap w); self := self w; trace := trace w |}.

Definition config_started (w : world) (c lg k : string) : world :=
  {| heap := <[fresh_loc (heap w) := <[lg := k]> ∅]>
               (<[fresh_loc (heap w) := ∅]> (heap w));
     self := set_logger_config_field <[c := fresh_loc (heap w)]> (self w);
     trace := trace w |}.

(** The requests that [set_logger_config] accepts: a logger of a
    loaded cruise and one of its valid configurations. *)
Definition accepts (w : world) (c lg k : string) : Prop :=
  ∃ D ls spec, cruise_configs (self w) !! c = Some D ∧ cc_loggers D = Some ls
               ∧ ls !! lg = Some spec ∧ k ∈ valid_configs spec.

(** The world in which [load_cruise] has stored [D] under [cid], before
    it turns to the default mode. *)
Definition installed (w : world) (cid : string) (D : cruise_config) : world :=
  {| heap := heap w;
     self := set_cruise_configs <[cid := D]> (self w);
     trace := trace w |}.

(** The id that [load_cruise] reads off a definition. *)
Definition id_of (D : cruise_config) : option string :=
  cc_cruise D ≫= ci_id.

(** The record that [delete_cruise] logs for an unknown cruise. *)
Definition undefined_cruise (c : string) : event :=
  Logged ERROR ("Trying to delete undefined cruise " +:+ dq +:+ "%s" +:+ dq)
    [AStr c].

(** The world [delete_cruise] leaves: the entries of the cruise are
    gone from the four tables, and an unknown cruise is logged. *)
Definition deleted (w : world) (c : string) : world :=
  {| heap := heap w;
     self := {| cruise_configs := delete c (cruise_configs (self w));
                mode := delete c (mode (self w));
                logger_config := delete c (logger_config (self w));
                callbacks := delete (Some c) (callbacks (self w));
                status := status (self w) |};
     trace := match cruise_configs (self w) !! c with
              | Some _ => trace w
              | None => trace w ++ [undefined_cruise c]
              end |}.

(** [loadable] as a test that computes. *)
Definition loadable_check (w : world) (D : cruise_config) : bool :=
  bool_decide
    (map_Forall (λ _ l,
       is_Some (heap w !! l)
       ∧ map_Forall (λ _ l', l' ≠ l) (logger_config (self w)))
       (default ∅ (cc_modes D))).

(** ** Worlds used as examples *)

Module Examples.
Import Scenario.

(** The scenario's cruise in mode [off], with [gyr1] then set to
    [net] by hand. *)
Definition overridden : world :=
  exec (set_mode "NBP1700" "off" ;; set_logger_config "NBP1700" "gyr1" "net")
    loaded.

(** The scenario's definition under an id that holds the separator. *)
Definition separator_id : cruise_config :=
  {| cc_cruise := Some {| ci_id := Some "NBP:1700"; ci_start := None;
                          ci_end := None |};
     cc_loggers := cc_loggers NBP1700;
     cc_modes := cc_modes NBP1700;
     cc_default_mode := cc_default_mode NBP1700;
     cc_configs := cc_configs NBP1700 |}.

(** Two observers of all cruises, registered one after the other. *)
Definition two_observers : world :=
  exec (on_update "first" None None ;; on_update "second" None None) start.

(** Two observers of cruise [X] and two of all cruises. *)
Definition four_observers : world :=
  exec (on_update "x1" None (Some "X") ;; on_update "x2" None (Some "X") ;;
        on_update "any1" None None ;; on_update "any2" None None) start.

(** An observer registered for cruise [X], which was never loaded. *)
Definition observed_unknown : world :=
  exec (on_update "reload" None (Some "X")) start.

(** The scenario's definition with its mode [off] named by the empty
    string instead, and taken as the default mode. *)
Definition unnamed_mode : cruise_config :=
  {| cc_cruise := cc_cruise NBP1700;
     cc_loggers := cc_loggers NBP1700;
     cc_modes := Some (list_to_map [(EmptyString, 1%positive);
                                    ("port", 2%positive)]);
     cc_default_mode := Some EmptyString;
     cc_configs := cc_configs NBP1700 |}.

Definition unnamed_loaded : world := exec (load_cruise unnamed_mode) start.

(** Calls made after the scenario's cruise is loaded: a change of
    mode, a manual override, and a change to a mode that does not
    exist. *)
Definition requests : list request :=
  [SetMode "NBP1700" "port"; SetLoggerConfig "NBP1700" "knud" "net";
   SetMode "NBP1700" "underway"].

End Examples.

(** The message of [get_config] for a cruise without a live table. *)
Definition no_config_defined (c : string) : exn :=
  ValueError [AStr ("No config defined for cruise " +:+ dq +:+ c +:+ dq +:+ "?!?")].

(** The message of [get_config] for a definition without configurations. *)
Definition no_configs (c : string) : exn :=
  ValueError [AStr ("Cruise " +:+ dq +:+ c +:+ dq +:+ " has no configs?!?")].

(** ** Further examples *)

Module More.
Import Scenario.

(** The configuration table of the scenario's definition. *)
Definition configs : gmap string json :=
  list_to_map [("off", JDict [("name", JStr "off")]);
               ("net", JDict [("name", JStr "net")])].

(** The logger table of the scenario's definition. *)
Definition loggers : gmap string logger_spec :=
  list_to_map
    [("knud", {| ls_host := None; ls_configs := Some ["off"; "net"] |});
     ("gyr1", {| ls_host := None; ls_configs := Some ["off"; "net"] |})].

(** The mode table of the scenario's definition. *)
Definition modes : gmap string loc :=
  list_to_map [("off", 1%positive); ("port", 2%positive)].

(** The scenario's definition without a default mode. *)
Definition no_default : cruise_config :=
  {| cc_cruise := cc_cruise Scenario.NBP1700;
     cc_loggers := cc_loggers Scenario.NBP1700;
     cc_modes := cc_modes Scenario.NBP1700;
     cc_default_mode := None;
     cc_configs := cc_configs Scenario.NBP1700 |}.

Definition no_default_loaded : world := exec (load_cruise no_default) Scenario.start.


(** A definition without the key [cruise]. *)
Definition anonymous : cruise_config :=
  {| cc_cruise := None;
     cc_loggers := cc_loggers Scenario.NBP1700;
     cc_modes := cc_modes Scenario.NBP1700;
     cc_default_mode := Some "off";
     cc_configs := cc_configs Scenario.NBP1700 |}.

End More.

(** The registrations of a scope, an absent scope having none. *)
Definition registered (w : world) (scope : option string)
    : list (callback * kwargs) :=
  default [] (callbacks (self w) !! scope).

(** The call that one scope of [signal_update] makes: the last
    registration of the scope, when it has any. *)
Definition last_call (w : world) (scope : option string)
    : list (callback * kwargs) :=
  match last (registered w scope) with
  | Some r => [r]
  | None => []
  end.

(** Every scope that the store knows has a registration, as is the
    case for the scopes that [on_update] makes. *)
Definition scopes_nonempty (w : world) : Prop :=
  ∀ scope rs, callbacks (self w) !! scope = Some rs → rs ≠ [].

(** [scopes_nonempty] as a test that computes. *)
Definition scopes_check (w : world) : bool :=
  bool_decide (map_Forall (λ _ rs, rs ≠ []) (callbacks (self w))).

(** The message of [get_loggers] for a cruise without loggers. *)
Definition no_loggers (c : string) : exn :=
  ValueError [AStr ("No loggers found in cruise " +:+ dq +:+ c +:+ dq)].

(** ** Every call of the store *)





(** No stored cruise is known under an id that holds the separator. *)
Definition ids_ok (w : world) : Prop :=
  ∀ c D, cruise_configs (self w) !! c = Some D → str_in ID_SEPARATOR c = false.

(** A computation that only reads: whatever it returns or raises, the
    world it ends in is the world it started from. *)
Definition reads_only {A : Type} (p : M A) : Prop :=
  ∀ w, (p w).1 = w.

(** What [.items()] ranges over for a result of [get_configs]: the
    entries of the mode dictionary it refers to, or of the dictionary it
    has built. *)
Definition items_of (w : world) (r : configs_result)
    : option (gmap string pyval) :=
  match r with
  | Ref l => (λ t : table, VStr <$> t) <$> heap w !! l
  | Fresh d => Some d
  end.

(** The key of a logger in the view of all cruises. *)
Definition munged (cruise_id logger : string) : string :=
  cruise_id +:+ ID_SEPARATOR +:+ logger.

Module Fleet.

(** Two cruises with loggers of the same names, each definition with
    mode dictionaries of its own, and a definition whose id is the empty
    string. *)
Definition caller_heap : gmap loc table :=
  list_to_map [(1%positive, Scenario.off_mode); (2%positive, Scenario.port_mode);
               (3%positive, Scenario.off_mode); (4%positive, Scenario.port_mode)].

Definition LMG1800 : cruise_config :=
  {| cc_cruise := Some {| ci_id := Some "LMG1800";
                          ci_start := Some "2018-01-01";
                          ci_end := Some "2018-02-01" |};
     cc_loggers := cc_loggers Scenario.NBP1700;
     cc_modes := Some (list_to_map [("off", 3%positive); ("port", 4%positive)]);
     cc_default_mode := Some "port";
     cc_configs := cc_configs Scenario.NBP1700 |}.

Definition start : world :=
  {| heap := caller_heap; self := init; trace := [] |}.

Definition two_cruises : world :=
  exec (load_cruise LMG1800) (exec (load_cruise Scenario.NBP1700) start).

Definition empty_id : cruise_config :=
  {| cc_cruise := Some {| ci_id := Some EmptyString;
                          ci_start := None; ci_end := None |};
     cc_loggers := cc_loggers Scenario.NBP1700;
     cc_modes := cc_modes Scenario.NBP1700;
     cc_default_mode := Some "off";
     cc_configs := cc_configs Scenario.NBP1700 |}.

Definition with_empty_id : world := exec (load_cruise empty_id) Scenario.loaded.

End Fleet.

(** ** [logger/writers/network_writer.py] *)

Module NetworkWriter.

(** The exceptions of the writer: those of the store above, the error
    of a socket call, and the failure of [str.encode] on a lone
    surrogate.  [OutOfFuel] is not a Python exception: it is the model's
    answer when the [while] loop is given fewer steps than it takes. *)
Inductive error : Type :=
  | Py (e : exn)
  | OSError (errno : Z)
  | UnicodeEncodeError (codepoint : N)
  | OutOfFuel.

(** [s.find(c)] for a one-character [c]: the first index, or -1. *)
Fixpoint find (c : ascii) (s : string) : Z :=
  match s with
  | EmptyString => (-1)%Z
  | String a s' =>
      if Ascii.eqb a c then 0%Z
      else let r := find c s' in
           if (r =? -1)%Z then (-1)%Z else (r + 1)%Z
  end.

(** [s.split(c)] for a one-character [c]. *)
Fixpoint split (c : ascii) (s : string) : list string :=
  match s with
  | EmptyString => [EmptyString]
  | String a s' =>
      if Ascii.eqb a c then EmptyString :: split c s'
      else match split c s' with
           | p :: ps => String a p :: ps
           | [] => [String a EmptyString]
           end
  end.

Inductive protocol : Type := TCP | UDP.

(** The socket that [__init__] makes and what it connects it to. *)
Record endpoint : Type := {
  ep_protocol : protocol;
  ep_host : string;
  ep_port : Z
}.

(** The calls of the socket library that [__init__] makes:
    [socket.socket(...)], [self.socket.setsockopt(SOL_SOCKET, option,
    True)] and [self.socket.connect((host, port))]. *)
Inductive socket_call : Type :=
  | NewSocket (p : protocol)
  | SetSockOpt (option : string)
  | Connect (host : string) (port : Z).

(** The socket library is outside the module: a call returns ([None])
    or raises an exception, given by the name of its class (an
    [OSError] when the host is unknown or refuses, an [OverflowError]
    for a port outside 0..65535, ...). *)
Definition library : Type := socket_call → option string.

(** What [__init__] raises: an exception of its own checks and of
    [int], or the exception of a call of the socket library. *)
Inductive init_error : Type :=
  | Checked (e : exn)
  | Library (call : socket_call) (raised : string).

(** A statement that is one call of the library, and what follows
    it. *)
Definition calling (lib : library) (c : socket_call)
    (rest : init_error + endpoint) : init_error + endpoint :=
  match lib c with
  | Some raised => inl (Library c raised)
  | None => rest
  end.

Definition bad_network : string :=
  "NetworkWriter network argument must be in 'host:port' or ':port' format. Found "
  +:+ dq +:+ "%s" +:+ dq.

(** [__init__] (after the constructor of [Writer], which is not part of
    these sources): the checks of the address, the choice of the
    socket, and the calls that make and connect it.  [int] is Python's
    [int()] on a string.  The [ValueError] of line 34 is built with two
    arguments, the message and the address: the message is not
    formatted.  The unpacking of [network.split(':')] wants two parts,
    and its error is a [ValueError] with CPython's message. *)
Definition init (int : string → exn + Z) (lib : library) (network : string)
    : init_error + endpoint :=
  if (find ":" network =? -1)%Z then
    inl (Checked (ValueError [AStr bad_network; AStr network]))
  else
    match split ":" network with
    | [host; port] =>
        match int port with
        | inl e => inl (Checked e)
        | inr port =>
            if truthy_str host then
              calling lib (NewSocket TCP)
                (calling lib (Connect host port)
                   (inr {| ep_protocol := TCP; ep_host := host;
                           ep_port := port |}))
            else
              let host := "<broadcast>" in
              calling lib (NewSocket UDP)
                (calling lib (SetSockOpt "SO_BROADCAST")
                   (calling lib (SetSockOpt "SO_REUSEPORT")
                      (calling lib (Connect host port)
                         (inr {| ep_protocol := UDP; ep_host := host;
                                 ep_port := port |}))))
        end
    | [] | [_] =>
        inl (Checked
               (ValueError
                  [AStr "not enough values to unpack (expected 2, got 1)"]))
    | _ =>
        inl (Checked
               (ValueError [AStr "too many values to unpack (expected 2)"]))
    end.

(** The calls that make and connect the socket of an endpoint, in the
    order of the source, and the first of a list of calls that
    raises. *)
Definition socket_calls (ep : endpoint) : list socket_call :=
  match ep_protocol ep with
  | TCP => [NewSocket TCP; Connect (ep_host ep) (ep_port ep)]
  | UDP => [NewSocket UDP; SetSockOpt "SO_BROADCAST";
            SetSockOpt "SO_REUSEPORT"; Connect (ep_host ep) (ep_port ep)]
  end.

Fixpoint first_failure (lib : library) (cs : list socket_call)
    : option init_error :=
  match cs with
  | [] => None
  | c :: cs' =>
      match lib c with
      | Some raised => Some (Library c raised)
      | None => first_failure lib cs'
      end
  end.

(** The endpoint of an address [host:port] whose port [int] reads as
    [p]: UDP broadcast when the host is empty. *)
Definition endpoint_of (host : string) (p : Z) : endpoint :=
  if truthy_str host then
    {| ep_protocol := TCP; ep_host := host; ep_port := p |}
  else
    {| ep_protocol := UDP; ep_host := "<broadcast>"; ep_port := p |}.

(** A text record is a sequence of code points: [len] counts them,
    and [encode] turns each into one to four bytes.  A string of Python
    has no code point above 0x10FFFF. *)
Definition text : Type := list N.

Definition utf8 (c : N) : error + list N :=
  if (c <? 128)%N then inr [c]
  else if (c <? 2048)%N then
    inr [N.lor 192 (N.shiftr c 6); N.lor 128 (N.land c 63)]
  else if (c <? 65536)%N then
    if (55296 <=? c)%N && (c <=? 57343)%N then inl (UnicodeEncodeError c)
    else inr [N.lor 224 (N.shiftr c 12);
              N.lor 128 (N.land (N.shiftr c 6) 63);
              N.lor 128 (N.land c 63)]
  else inr [N.lor 240 (N.shiftr c 18);
            N.lor 128 (N.land (N.shiftr c 12) 63);
            N.lor 128 (N.land (N.shiftr c 6) 63);
            N.lor 128 (N.land c 63)].

(** [record.encode('utf-8')]. *)
Fixpoint encode (record : text) : error + list N :=
  match record with
  | [] => inr []
  | c :: record' =>
      match utf8 c with
      | inl e => inl e
      | inr b =>
          match encode record' with
          | inl e => inl e
          | inr bs => inr (b ++ bs)
          end
      end
  end.

(** What a call of [socket.send] does: it returns the number of bytes
    it took, or raises an [OSError]. *)
Inductive reply : Type :=
  | Took (n : Z)
  | Failed (errno : Z).

(** The writer: its number of tries and its socket.  The socket is
    outside the module: [send] is given the number of calls made on the
    socket so far and the bytes. *)
Record writer : Type := {
  num_retry : Z;
  send : nat → list N → reply
}.

(** What a run leaves behind: the byte strings handed to [send], in
    order, and the log. *)
Record state : Type := {
  sent : list (list N);
  log : list event
}.

(** The [while] loop of [write], with the number of iterations it may
    still take; it returns the final [num_tries] and [bytes_sent]. *)
Fixpoint while_loop (fuel : nat) (self : writer) (record : text)
    (rec_len num_tries bytes_sent : Z) (s : state)
    : state * (error + Z * Z) :=
  match fuel with
  | O => (s, inl OutOfFuel)
  | S fuel' =>
      if (num_tries <? num_retry self)%Z && (bytes_sent <? rec_len)%Z then
        match encode record with
        | inl e => (s, inl e)
        | inr payload =>
            let s' := {| sent := sent s ++ [payload]; log := log s |} in
            match send self (length (sent s)) payload with
            | Failed errno => (s', inl (OSError errno))
            | Took n =>
                while_loop fuel' self record rec_len (num_tries + 1)%Z n s'
            end
        end
      else (s, inr (num_tries, bytes_sent))
  end.

Definition wrote : string :=
  "NetworkWriter.write() wrote %d/%d bytes after %d tries".

Definition write_at (fuel : nat) (self : writer) (record : text) (s : state)
    : state * (error + unit) :=
  let rec_len := Z.of_nat (length record) in
  match while_loop fuel self record rec_len 0%Z 0%Z s with
  | (s', inr (num_tries, bytes_sent)) =>
      ({| sent := sent s';
          log := log s' ++ [Logged DEBUG wrote
                              [AInt bytes_sent; AInt rec_len; AInt num_tries]] |},
       inr tt)
  | (s', inl e) => (s', inl e)
  end.

(** [write]: the loop takes at most [num_retry] iterations, so one more
    step than that is enough for it to end. *)
Definition write (self : writer) (record : text) (s : state)
    : state * (error + unit) :=
  write_at (S (Z.to_nat (num_retry self))) self record s.

(** The bytes of a record, when it has an encoding. *)
Definition payload_of (record : text) : list N :=
  match encode record with
  | inr payload => payload
  | inl _ => []
  end.

(** The number of colons of an address. *)
Fixpoint colons (s : string) : nat :=
  match s with
  | EmptyString => 0
  | String a s' => (if Ascii.eqb a ":" then 1 else 0) + colons s'
  end.

End NetworkWriter.

Module NetworkExamples.

(** The record [hi!], and a record of one code point that takes two
    bytes. *)
Definition hi : NetworkWriter.text := [104%N; 105%N; 33%N].
Definition e_acute : NetworkWriter.text := [233%N].

Definition empty : NetworkWriter.state :=
  {| NetworkWriter.sent := []; NetworkWriter.log := [] |}.

(** A socket that takes two bytes at the first call and everything
    afterwards, one that takes one byte each time, and one that fails
    at the second call. *)
Definition slow_start : NetworkWriter.writer :=
  {| NetworkWriter.num_retry := 3;
     NetworkWriter.send := λ i payload,
       NetworkWriter.Took (if decide (i = 0%nat) then 2%Z
                           else Z.of_nat (length payload)) |}.

Definition one_byte : NetworkWriter.writer :=
  {| NetworkWriter.num_retry := 2;
     NetworkWriter.send := λ _ _, NetworkWriter.Took 1%Z |}.

Definition broken_pipe : NetworkWriter.writer :=
  {| NetworkWriter.num_retry := 3;
     NetworkWriter.send := λ i _,
       if decide (i = 0%nat) then NetworkWriter.Took 1%Z
       else NetworkWriter.Failed 32%Z |}.

End NetworkExamples.

(** The message of the [ValueError] that [set_logger_config] raises
    for a logger of the cruise and a name that is not one of its valid
    configurations: the check that fails depends on the specification
    of the logger. *)
Definition invalid_config_message (c lg k : string) (spec : logger_spec)
    : string :=
  if negb (truthy_logger spec) then
    "Cruise " +:+ dq +:+ c +:+ dq +:+ " has no logger " +:+ dq +:+ lg +:+ dq
    +:+ "??"
  else if bool_decide (valid_configs spec = []) then
    "Logger " +:+ dq +:+ lg +:+ dq +:+ " in cruise " +:+ dq +:+ c +:+ dq
    +:+ " has no configs??"
  else
    "Config " +:+ dq +:+ k +:+ dq +:+ " not valid for logger "
    +:+ dq +:+ lg +:+ dq +:+ " in cruise " +:+ dq +:+ c +:+ dq.

Module Idle.

(** The scenario's cruise with a third logger, whose list of
    configurations is empty. *)
Definition winch : logger_spec := {| ls_host := None; ls_configs := Some [] |}.

Definition NBP1700 : cruise_config :=
  {| cc_cruise := cc_cruise Scenario.NBP1700;
     cc_loggers := Some (list_to_map
       [("knud", {| ls_host := None; ls_configs := Some ["off"; "net"] |});
        ("gyr1", {| ls_host := None; ls_configs := Some ["off"; "net"] |});
        ("winch", winch)]);
     cc_modes := cc_modes Scenario.NBP1700;
     cc_default_mode := cc_default_mode Scenario.NBP1700;
     cc_configs := cc_configs Scenario.NBP1700 |}.

Definition loaded : world := exec (load_cruise NBP1700) Scenario.start.

End Idle.

Module NetworkAddresses.

(** A reader of decimal ports, for the examples: digits only, where
    [int] also takes signs, blanks and underscores. *)
Definition digit (a : ascii) : option Z :=
  let n := Z.of_nat (nat_of_ascii a) in
  if (48 <=? n)%Z && (n <=? 57)%Z then Some (n - 48)%Z else None.

Fixpoint digits (acc : Z) (s : string) : option Z :=
  match s with
  | EmptyString => Some acc
  | String a s' =>
      match digit a with
      | Some d => digits (10 * acc + d)%Z s'
      | None => None
      end
  end.

Definition decimal (s : string) : exn + Z :=
  match s with
  | EmptyString => inl (ValueError [AStr "invalid literal for int() with base 10: ''"])
  | _ =>
      match digits 0%Z s with
      | Some n => inr n
      | None => inl (ValueError [AStr "invalid literal for int() with base 10"])
      end
  end.

(** A socket library that refuses the ports that do not fit 16 bits and
    nothing else. *)
Definition ports_only : NetworkWriter.library :=
  λ c, match c with
       | NetworkWriter.Connect _ p =>
           if (0 <=? p)%Z && (p <=? 65535)%Z then None
           else Some "OverflowError"
       | _ => None
       end.

End NetworkAddresses.

(** ** Callbacks as caller code *)

(** What a callback does when it is called is the caller's business:
    any computation over the world.  It may use the store, through its
    methods or otherwise, log, call [signal_update] again, and raise,
    also because it does not take the keywords it is given. *)
Definition behaviour : Type := callback → kwargs → M unit.

(** Line 539 with the callbacks' behaviour: the call is recorded, and
    the callback runs. *)
Definition call_with (run : behaviour) (f : callback) (kw : kwargs) : M unit :=
  emit (Called f kw) ;; run f kw.

Definition signal_scope_with (run : behaviour) (cruise_id : option string)
    : M unit :=
  a <- get_self ;;
  match callbacks a !! cruise_id with
  | Some registered =>
      for_each registered
        (λ '(callback, kwargs),
           logging DEBUG "Executing update callback for cruise %s: %s"
             [arg_of cruise_id; AFun callback]) ;;
      match last registered with
      | Some (callback, kwargs) => call_with run callback kwargs
      | None => raise (UnboundLocalError "callback")
      end
  | None => ret tt
  end.

Definition signal_update_with (run : behaviour) (cruise_id : option string)
    : M unit :=
  signal_scope_with run cruise_id ;;
  match cruise_id with
  | Some _ => signal_scope_with run None
  | None => ret tt
  end.

(** Callbacks that return and do nothing that the world shows: with
    them, [signal_update_with] is [signal_update]. *)
Definition quiet : behaviour := λ _ _, ret tt.

(** Callbacks that return and leave the store and the heap alone, and
    signal nothing themselves; they may log. *)
Definition passive (run : behaviour) : Prop :=
  ∀ f kw w, ∃ w', run f kw w = (w', inr tt)
                  ∧ self w' = self w ∧ heap w' = heap w
                  ∧ calls (trace w') = calls (trace w).


(** The world in which the callback of a scope is called: the loop has
    logged the registrations [rs] of the scope, and the call is
    recorded. *)
Definition at_call (w : world) (scope : option string)
    (rs : list (callback * kwargs)) (f : callback) (kw : kwargs) : world :=
  {| heap := heap w; self := self w;
     trace := trace w ++ debug_records scope rs ++ [Called f kw] |}.

Module Observers.



(** A callback named [x2] that does not take its keywords, the others
    being quiet. *)
Definition picky : behaviour :=
  λ f kw, if String.eqb f "x2"
          then raise (TypeError "x2() got an unexpected keyword argument")
          else ret tt.

End Observers.

(** * Properties *)

(** ** Basic facts about the primitives *)

Lemma truthy_map_lookup {K : Type} `{Countable K} {V : Type}
    (m : gmap K V) (k : K) (v : V) :
  m !! k = Some v → truthy_map m = true.
Proof.
  intros Hk. unfold truthy_map.
  rewrite bool_decide_eq_false_2; [reflexivity |].
  intros Hsize. apply map_size_empty_inv in Hsize. subst m.
  rewrite lookup_empty in Hk. discriminate.
Qed.

Lemma truthy_list_elem {A : Type} (l : list A) (x : A) :
  x ∈ l → truthy_list l = true.
Proof.
  intros Hx. unfold truthy_list. destruct l as [| y l'].
  - inversion Hx.
  - reflexivity.
Qed.

Lemma truthy_config_loggers (D : cruise_config) ls :
  cc_loggers D = Some ls → truthy_config D = true.
Proof.
  intros HD. unfold truthy_config. rewrite HD.
  rewrite (bool_decide_eq_true_2 (is_Some (Some ls))) by eauto.
  apply orb_true_iff. left. apply orb_true_iff. left.
  apply orb_true_iff. left. apply orb_true_r.
Qed.

Lemma truthy_config_modes (D : cruise_config) ms :
  cc_modes D = Some ms → truthy_config D = true.
Proof.
  intros HD. unfold truthy_config. rewrite HD.
  rewrite (bool_decide_eq_true_2 (is_Some (Some ms))) by eauto.
  apply orb_true_iff. left. apply orb_true_iff. left. apply orb_true_r.
Qed.

Lemma truthy_config_cruise (D : cruise_config) info :
  cc_cruise D = Some info → truthy_config D = true.
Proof.
  intros HD. unfold truthy_config. rewrite HD.
  rewrite (bool_decide_eq_true_2 (is_Some (Some info))) by eauto.
  reflexivity.
Qed.

Lemma truthy_logger_configs (spec : logger_spec) cfgs :
  ls_configs spec = Some cfgs → truthy_logger spec = true.
Proof.
  intros Hs. unfold truthy_logger. rewrite Hs.
  rewrite (bool_decide_eq_true_2 (is_Some (Some cfgs))) by eauto.
  apply orb_true_r.
Qed.

(** ** The read accessors *)

Lemma get_cruise_config_loaded (w : world) c D :
  cruise_configs (self w) !! c = Some D → truthy_config D = true →
  get_cruise_config c w = (w, inr D).
Proof.
  intros Hc Ht. unfold get_cruise_config, bind, get_self, get_or_raise.
  cbn. rewrite Hc, Ht. reflexivity.
Qed.

Lemma get_cruise_config_unknown (w : world) c :
  cruise_configs (self w) !! c = None →
  get_cruise_config c w = (w, inl (no_such_cruise c)).
Proof.
  intros Hc. unfold get_cruise_config, bind, get_self, get_or_raise.
  cbn. rewrite Hc. reflexivity.
Qed.

Lemma get_cruise_config_empty (w : world) c D :
  cruise_configs (self w) !! c = Some D → truthy_config D = false →
  get_cruise_config c w = (w, inl (no_such_cruise c)).
Proof.
  intros Hc Ht. unfold get_cruise_config, bind, get_self, get_or_raise.
  cbn. rewrite Hc, Ht. reflexivity.
Qed.

(** [get_cruise_config] never changes the world, and what it raises is
    the [ValueError] above. *)
Lemma get_cruise_config_cases (w : world) c :
  (∃ D, cruise_configs (self w) !! c = Some D ∧ truthy_config D = true
        ∧ get_cruise_config c w = (w, inr D))
  ∨ ((cruise_configs (self w) !! c = None
      ∨ ∃ D, cruise_configs (self w) !! c = Some D ∧ truthy_config D = false)
     ∧ get_cruise_config c w = (w, inl (no_such_cruise c))).
Proof.
  destruct (cruise_configs (self w) !! c) as [D |] eqn:Hc.
  - destruct (truthy_config D) eqn:Ht.
    + left. exists D. eauto using get_cruise_config_loaded.
    + right. split; [right; eauto |]. eauto using get_cruise_config_empty.
  - right. split; [left; reflexivity |]. eauto using get_cruise_config_unknown.
Qed.

Lemma get_loggers_loaded (w : world) c D ls lg spec :
  cruise_configs (self w) !! c = Some D → cc_loggers D = Some ls →
  ls !! lg = Some spec →
  get_loggers c w = (w, inr ls).
Proof.
  intros Hc HD Hl. unfold get_loggers, bind.
  rewrite (get_cruise_config_loaded w c D Hc (truthy_config_loggers D ls HD)).
  unfold get_or_raise. rewrite HD, (truthy_map_lookup ls lg spec Hl).
  reflexivity.
Qed.

(** For a logger that the cruise defines, [get_logger] gets past its
    checks and then fails on the unbound name. *)
Lemma get_logger_defined (w : world) c D ls lg spec :
  cruise_configs (self w) !! c = Some D → cc_loggers D = Some ls →
  ls !! lg = Some spec →
  get_logger c lg w = (w, inl (NameError "logger_id")).
Proof.
  intros Hc HD Hl. unfold get_logger, bind.
  rewrite (get_loggers_loaded w c D ls lg spec Hc HD Hl).
  rewrite Hl. rewrite bool_decide_eq_true_2 by eauto. reflexivity.
Qed.

(** A cruise that is not loaded, or a logger that the cruise does not
    define, is reported by a [ValueError], and the world stays as it
    was. *)
Lemma get_logger_missing (w : world) c lg :
  (cruise_configs (self w) !! c = None
   ∨ ∃ D ls, cruise_configs (self w) !! c = Some D ∧ cc_loggers D = Some ls
             ∧ ls !! lg = None) →
  ∃ args, get_logger c lg w = (w, inl (ValueError args)).
Proof.
  intros [Hc | (D & ls & Hc & HD & Hl)]; unfold get_logger, get_loggers, bind.
  - rewrite (get_cruise_config_unknown w c Hc). eauto.
  - rewrite (get_cruise_config_loaded w c D Hc (truthy_config_loggers D ls HD)).
    unfold get_or_raise. rewrite HD.
    destruct (truthy_map ls); [| eexists; reflexivity].
    cbn. rewrite Hl. rewrite bool_decide_eq_false_2 by (intros [? ?]; discriminate).
    eexists. reflexivity.
Qed.

(** C5 (defect of the code).  The claim: for a logger that a loaded
    cruise defines, [get_logger] returns the specification of the
    logger.  The code: the scenario's cruise defines the logger knud
    with the configurations off and net, and [get_logger] on it raises
    a [NameError] for the name logger_id, leaving the world as it was. *)
Theorem get_logger_knud_raises_NameError :
  (cc_loggers Scenario.NBP1700 ≫= lookup "knud")
    = Some {| ls_host := None; ls_configs := Some ["off"; "net"] |}
  ∧ get_logger "NBP1700" "knud" Scenario.loaded
    = (Scenario.loaded, inl (NameError "logger_id")).
Proof. split; vm_compute; reflexivity. Qed.

(** ** [get_config] *)

(** With a mode that the cruise defines, [get_config] gets past its
    checks and then fails on the unbound name, whatever the logger. *)
Lemma get_config_mode_defined (w : world) c lg m D cfgs k v ms l :
  cruise_configs (self w) !! c = Some D →
  cc_configs D = Some cfgs → cfgs !! k = Some v →
  cc_modes D = Some ms → ms !! m = Some l →
  get_config c lg (Some m) w = (w, inl (NameError "logger")).
Proof.
  intros Hc Hcf Hk Hms Hm. unfold get_config, bind.
  rewrite (get_cruise_config_loaded w c D Hc (truthy_config_modes D ms Hms)).
  rewrite (truthy_config_modes D ms Hms). cbn.
  unfold get_or_raise. rewrite Hcf, (truthy_map_lookup cfgs k v Hk).
  cbn. rewrite Hms, (truthy_map_lookup ms m l Hm). cbn. rewrite Hm.
  reflexivity.
Qed.

(** C2 (defect of the code).  The claim: after [set_mode] and a manual
    [set_logger_config], [get_config] without a mode returns the
    configuration set by hand and [get_config] with the mode returns
    the configuration the mode gives the logger.  The code: in the
    scenario's cruise, put in mode off and with gyr1 then set to net,
    the call without a mode returns the configuration net, and the call
    with mode off raises a [NameError] for the name logger. *)
Theorem get_config_with_mode_raises_NameError :
  result (set_mode "NBP1700" "off" ;; set_logger_config "NBP1700" "gyr1" "net")
         Scenario.loaded = inr tt
  ∧ result (get_config "NBP1700" "gyr1" None) Examples.overridden
    = inr (Some (JDict [("name", JStr "net")]))
  ∧ result (get_config "NBP1700" "gyr1" (Some "off")) Examples.overridden
    = inl (NameError "logger").
Proof. repeat split; vm_compute; reflexivity. Qed.

(** ** [load_cruise] and the separator *)

(** An id that holds the separator: the message of the [ValueError]
    has two conversions and gets one argument, so the formatting
    raises, before anything is stored. *)
Lemma load_cruise_separator (w : world) D cid :
  cc_cruise D ≫= ci_id = Some cid → str_in ID_SEPARATOR cid = true →
  load_cruise D w = (w, inl (TypeError not_enough)).
Proof.
  intros Hid Hsep. unfold load_cruise, bind. rewrite Hid. cbn.
  rewrite Hsep. reflexivity.
Qed.

(** C7 (defect of the code).  The claim: a definition whose id holds
    the separator makes [load_cruise] raise a validation error (a
    [ValueError] in this module) before any change.  The code: for the
    id NBP:1700 the call raises a [TypeError], not enough arguments for
    format string, from the formatting of the message; the world is
    unchanged. *)
Theorem load_cruise_separator_raises_TypeError :
  str_in ID_SEPARATOR "NBP:1700" = true
  ∧ load_cruise Examples.separator_id Scenario.start
    = (Scenario.start,
       inl (TypeError "not enough arguments for format string")).
Proof. split; vm_compute; reflexivity. Qed.

(** ** [signal_update] *)

Lemma for_each_logging (cid : option string) (registered : list (callback * kwargs))
    (w : world) :
  for_each registered
    (λ '(callback, kwargs),
       logging DEBUG "Executing update callback for cruise %s: %s"
         [arg_of cid; AFun callback]) w
  = ({| heap := heap w; self := self w;
        trace := trace w ++ debug_records cid registered |}, inr tt).
Proof.
  revert w. induction registered as [| [f kw] rest IH]; intros w.
  - cbn. unfold ret. rewrite app_nil_r. destruct w; reflexivity.
  - cbn. unfold bind, logging, emit. cbn. rewrite IH. cbn.
    rewrite <- app_assoc. reflexivity.
Qed.

Lemma calls_app (t1 t2 : list event) : calls (t1 ++ t2) = calls t1 ++ calls t2.
Proof. unfold calls. apply omap_app. Qed.

Lemma calls_debug_records cid registered : calls (debug_records cid registered) = [].
Proof.
  unfold calls, debug_records. induction registered as [| r rest IH]; [reflexivity |].
  cbn. exact IH.
Qed.

(** One scope of [signal_update] calls the last registration of the
    scope and no other. *)
Lemma signal_scope_calls (w : world) cid registered f kw :
  callbacks (self w) !! cid = Some registered → last registered = Some (f, kw) →
  result (signal_scope cid) w = inr tt
  ∧ heap (exec (signal_scope cid) w) = heap w
  ∧ self (exec (signal_scope cid) w) = self w
  ∧ calls (trace (exec (signal_scope cid) w)) = calls (trace w) ++ [(f, kw)].
Proof.
  intros Hcb Hlast. unfold result, exec, signal_scope, bind, get_self.
  cbn. rewrite Hcb. rewrite for_each_logging. rewrite Hlast. cbn.
  repeat split. rewrite !calls_app, calls_debug_records, app_nil_r.
  reflexivity.
Qed.

(** C1 (defect of the code).  The claim: [signal_update] calls every
    callback registered under the scope it is given, once each and in
    the order of registration, and then every callback registered for
    all cruises.  The code: with first and second registered for all
    cruises, in this order, [signal_update] without a cruise calls
    second alone; with x1, x2 registered for cruise X and any1, any2
    for all cruises, [signal_update] for X calls x2 and any2 alone. *)
Theorem signal_update_calls_only_last :
  callbacks (self Examples.two_observers) !! None
    = Some [("first", []); ("second", [])]
  ∧ calls (trace (exec (signal_update None) Examples.two_observers))
    = [("second", [])]
  ∧ callbacks (self Examples.four_observers) !! Some "X"
    = Some [("x1", []); ("x2", [])]
  ∧ callbacks (self Examples.four_observers) !! None
    = Some [("any1", []); ("any2", [])]
  ∧ calls (trace (exec (signal_update (Some "X")) Examples.four_observers))
    = [("x2", []); ("any2", [])].
Proof. repeat split; vm_compute; reflexivity. Qed.

(** ** [set_mode] *)

Lemma fresh_loc_unused (h : gmap loc table) : h !! fresh_loc h = None.
Proof. apply not_elem_of_dom. unfold fresh_loc. apply is_fresh. Qed.

Lemma mode_dict_Some (w : world) c m l :
  mode_dict w c m = Some l ↔
  ∃ D ms, cruise_configs (self w) !! c = Some D ∧ cc_modes D = Some ms
          ∧ ms !! m = Some l.
Proof.
  unfold mode_dict. split.
  - destruct (cruise_configs (self w) !! c) as [D |]; [| discriminate].
    cbn. destruct (cc_modes D) as [ms |] eqn:Hms; [| discriminate].
    cbn. intros Hm. eauto.
  - intros (D & ms & -> & Hms & Hm). cbn. rewrite Hms. exact Hm.
Qed.

(** One step of a method: the monad and its primitives unfold. *)
Ltac mstep :=
  unfold bind, ret, raise, get_or_raise, get_self, modify_self, deref,
    alloc, store_item, when; cbn.

(** A mode that the cruise defines, with its dictionary in place: the
    call returns and leaves the world [mode_set]. *)
Lemma set_mode_defined (w : world) c m l t :
  mode_dict w c m = Some l → heap w !! l = Some t →
  set_mode c m w = (mode_set w c m t, inr tt).
Proof.
  intros (D & ms & Hc & Hms & Hm)%mode_dict_Some Hl. unfold set_mode, bind at 1.
  rewrite (get_cruise_config_loaded w c D Hc (truthy_config_modes D ms Hms)).
  rewrite (truthy_config_modes D ms Hms). mstep.
  rewrite Hms, (truthy_map_lookup ms m l Hm). mstep. rewrite Hm. mstep. rewrite Hl. reflexivity.
Qed.

(** The same with the dictionary missing from the heap. *)
Lemma set_mode_dangling (w : world) c m l :
  mode_dict w c m = Some l → heap w !! l = None →
  set_mode c m w
  = ({| heap := heap w; self := set_mode_field <[c := m]> (self w);
        trace := trace w |}, inl BadRef).
Proof.
  intros (D & ms & Hc & Hms & Hm)%mode_dict_Some Hl. unfold set_mode, bind at 1.
  rewrite (get_cruise_config_loaded w c D Hc (truthy_config_modes D ms Hms)).
  rewrite (truthy_config_modes D ms Hms). mstep.
  rewrite Hms, (truthy_map_lookup ms m l Hm). mstep. rewrite Hm. mstep.
  rewrite Hl. reflexivity.
Qed.

(** A cruise that is not loaded or a mode that it does not define: a
    [ValueError], and the world is as it was. *)
Lemma set_mode_undefined (w : world) c m :
  mode_dict w c m = None →
  ∃ args, set_mode c m w = (w, inl (ValueError args)).
Proof.
  intros Hnone. unfold set_mode, bind at 1.
  destruct (get_cruise_config_cases w c)
    as [(D & Hc & Ht & ->) | [_ ->]]; [| eexists; reflexivity].
  rewrite Ht. mstep.
  unfold mode_dict in Hnone. rewrite Hc in Hnone. cbn in Hnone.
  destruct (cc_modes D) as [ms |]; [| eexists; reflexivity].
  cbn in Hnone. destruct (truthy_map ms); [| eexists; reflexivity].
  mstep. rewrite Hnone. eexists. reflexivity.
Qed.

(** All the outcomes of [set_mode]. *)
Lemma set_mode_outcome (w : world) c m :
  (∃ args, set_mode c m w = (w, inl (ValueError args)))
  ∨ (∃ l, mode_dict w c m = Some l ∧ heap w !! l = None
          ∧ set_mode c m w
            = ({| heap := heap w; self := set_mode_field <[c := m]> (self w);
                  trace := trace w |}, inl BadRef))
  ∨ (∃ l t, mode_dict w c m = Some l ∧ heap w !! l = Some t
            ∧ set_mode c m w = (mode_set w c m t, inr tt)).
Proof.
  destruct (mode_dict w c m) as [l |] eqn:Hd.
  - destruct (heap w !! l) as [t |] eqn:Hl.
    + right. right. exists l, t. eauto using set_mode_defined.
    + right. left. exists l. eauto using set_mode_dangling.
  - left. apply set_mode_undefined. exact Hd.
Qed.

(** ** [set_logger_config] *)

(** The checks of [set_logger_config] pass exactly for a logger of the
    cruise and one of its valid configurations. *)
Lemma set_logger_config_valid (w : world) c lg k D ls spec :
  cruise_configs (self w) !! c = Some D → cc_loggers D = Some ls →
  ls !! lg = Some spec → k ∈ valid_configs spec →
  set_logger_config c lg k w
  = match logger_config (self w) !! c with
    | Some l =>
        match heap w !! l with
        | Some t => (config_stored w l t lg k, inr tt)
        | None => (w, inl BadRef)
        end
    | None => (config_started w c lg k, inr tt)
    end.
Proof.
  intros Hc HD Hl Hk. unfold set_logger_config, bind at 1.
  rewrite (get_cruise_config_loaded w c D Hc (truthy_config_loggers D ls HD)).
  rewrite (truthy_config_loggers D ls HD). mstep.
  rewrite HD, (truthy_map_lookup ls lg spec Hl). mstep. rewrite Hl.
  unfold valid_configs in Hk.
  destruct (ls_configs spec) as [cfgs |] eqn:Hcf; [| inversion Hk].
  cbn in Hk. rewrite (truthy_logger_configs spec cfgs Hcf). mstep.
  rewrite Hcf, (truthy_list_elem cfgs k Hk). mstep.
  rewrite (bool_decide_eq_true_2 _ Hk). mstep.
  destruct (logger_config (self w) !! c) as [l |] eqn:Hlc.
  - rewrite bool_decide_eq_true_2 by eauto. mstep. rewrite Hlc.
    destruct (heap w !! l); [reflexivity |]. destruct w; reflexivity.
  - rewrite bool_decide_eq_false_2 by (intros [? ?]; discriminate). mstep.
    rewrite lookup_insert_eq. cbn. rewrite lookup_insert_eq. reflexivity.
Qed.

(** Any other request is refused with a [ValueError], in the world as
    it was. *)
Lemma set_logger_config_rejected (w : world) c lg k :
  ¬ accepts w c lg k →
  ∃ args, set_logger_config c lg k w = (w, inl (ValueError args)).
Proof.
  intros Hno. unfold set_logger_config, bind at 1.
  destruct (get_cruise_config_cases w c)
    as [(D & Hc & Ht & ->) | [_ ->]]; [| eexists; reflexivity].
  rewrite Ht. mstep.
  destruct (cc_loggers D) as [ls |] eqn:HD; [| eexists; reflexivity].
  destruct (truthy_map ls); [| eexists; reflexivity]. mstep.
  destruct (ls !! lg) as [spec |] eqn:Hl; [| eexists; reflexivity].
  destruct (truthy_logger spec); [| eexists; reflexivity]. mstep.
  destruct (ls_configs spec) as [cfgs |] eqn:Hcf; [| eexists; reflexivity].
  destruct (truthy_list cfgs); [| eexists; reflexivity]. mstep.
  rewrite bool_decide_eq_false_2; [eexists; reflexivity |].
  intros Hk. apply Hno. exists D, ls, spec. repeat split; try assumption.
  unfold valid_configs. rewrite Hcf. exact Hk.
Qed.

(** All the outcomes of [set_logger_config]. *)
Lemma set_logger_config_outcome (w : world) c lg k :
  (∃ e, set_logger_config c lg k w = (w, inl e))
  ∨ (∃ l t, accepts w c lg k ∧ logger_config (self w) !! c = Some l
            ∧ heap w !! l = Some t
            ∧ set_logger_config c lg k w = (config_stored w l t lg k, inr tt))
  ∨ (accepts w c lg k ∧ logger_config (self w) !! c = None
     ∧ set_logger_config c lg k w = (config_started w c lg k, inr tt)).
Proof.
  destruct (cruise_configs (self w) !! c) as [D |] eqn:Hc.
  2:{ left. destruct (set_logger_config_rejected w c lg k) as [args ->]; [| eauto].
      intros (D & ls & spec & HD & _). congruence. }
  destruct (cc_loggers D) as [ls |] eqn:HD.
  2:{ left. destruct (set_logger_config_rejected w c lg k) as [args ->]; [| eauto].
      intros (D' & ls & spec & HD' & Hls & _). congruence. }
  destruct (ls !! lg) as [spec |] eqn:Hl.
  2:{ left. destruct (set_logger_config_rejected w c lg k) as [args ->]; [| eauto].
      intros (D' & ls' & spec & HD' & Hls & Hs & _). congruence. }
  destruct (decide (k ∈ valid_configs spec)) as [Hk | Hk].
  2:{ left. destruct (set_logger_config_rejected w c lg k) as [args ->]; [| eauto].
      intros (D' & ls' & spec' & HD' & Hls & Hs & Hk'). apply Hk. congruence. }
  assert (accepts w c lg k) as Hacc by (exists D, ls, spec; eauto).
  rewrite (set_logger_config_valid w c lg k D ls spec Hc HD Hl Hk).
  destruct (logger_config (self w) !! c) as [l |] eqn:Hlc.
  - destruct (heap w !! l) as [t |] eqn:Hh.
    + right. left. exists l, t. eauto.
    + left. eauto.
  - right. right. eauto.
Qed.

(** C3.  For a loaded cruise [c] and a mode [m] that it defines,
    [set_mode c m] returns, records [m] as the Current Mode of [c] and
    makes the live per-logger table of [c] a dictionary with exactly
    the contents of the mode's mapping, whatever the table held before
    (entries set by hand are gone); the stored definitions and the
    objects that existed before are untouched.  When the cruise is not
    loaded or does not define the mode, the call raises a [ValueError]
    and the world is the one before the call. *)
Theorem set_mode_replaces_live_table (w : world) (c m : string) :
  (∀ l t, mode_dict w c m = Some l → heap w !! l = Some t →
     let w' := exec (set_mode c m) w in
     result (set_mode c m) w = inr tt
     ∧ mode (self w') !! c = Some m
     ∧ live_table w' c = Some t
     ∧ (∀ lg, current_config w' c lg = t !! lg)
     ∧ cruise_configs (self w') = cruise_configs (self w)
     ∧ (∀ l', is_Some (heap w !! l') → heap w' !! l' = heap w !! l'))
  ∧ (mode_dict w c m = None →
     ∃ args, set_mode c m w = (w, inl (ValueError args))).
Proof.
  split; [| apply set_mode_undefined].
  intros l t Hd Hl w'. subst w'. unfold exec, result.
  rewrite (set_mode_defined w c m l t Hd Hl). cbn.
  assert (live_table (mode_set w c m t) c = Some t) as Hlive.
  { unfold live_table. cbn. rewrite lookup_insert_eq. cbn.
    apply lookup_insert_eq. }
  repeat split.
  - apply lookup_insert_eq.
  - exact Hlive.
  - intros lg. unfold current_config. rewrite Hlive. reflexivity.
  - intros l' [t' Hl']. apply lookup_insert_ne. intros <-.
    rewrite fresh_loc_unused in Hl'. discriminate.
Qed.

Lemma set_mode_replaces_live_table_witness :
  mode (self (exec (set_mode "NBP1700" "port") Examples.overridden)) !! "NBP1700"
    = Some "port"
  ∧ current_config Examples.overridden "NBP1700" "gyr1" = Some "net"
  ∧ current_config (exec (set_mode "NBP1700" "off") Examples.overridden)
      "NBP1700" "gyr1" = Some "off".
Proof.
  split; [| split].
  - apply (proj1 (set_mode_replaces_live_table Examples.overridden "NBP1700" "port")
             2%positive Scenario.port_mode); vm_compute; reflexivity.
  - vm_compute; reflexivity.
  - pose proof (proj1 (set_mode_replaces_live_table Examples.overridden
                         "NBP1700" "off") 1%positive Scenario.off_mode) as H.
    cbv zeta in H. destruct H as (_ & _ & _ & H & _);
      [vm_compute; reflexivity | vm_compute; reflexivity |].
    rewrite H. vm_compute; reflexivity.
Defined.

(** ** The checks of [set_logger_config] *)

(** The message for a configuration that is not one of the logger's. *)
Lemma set_logger_config_not_valid (w : world) c lg k D ls spec :
  cruise_configs (self w) !! c = Some D → cc_loggers D = Some ls →
  ls !! lg = Some spec → valid_configs spec ≠ [] → k ∉ valid_configs spec →
  set_logger_config c lg k w
  = (w, inl (ValueError
       [AStr ("Config " +:+ dq +:+ k +:+ dq +:+ " not valid for logger "
              +:+ dq +:+ lg +:+ dq +:+ " in cruise " +:+ dq +:+ c +:+ dq)])).
Proof.
  intros Hc HD Hl Hne Hk. unfold set_logger_config, bind at 1.
  rewrite (get_cruise_config_loaded w c D Hc (truthy_config_loggers D ls HD)).
  rewrite (truthy_config_loggers D ls HD). mstep.
  rewrite HD, (truthy_map_lookup ls lg spec Hl). mstep. rewrite Hl.
  unfold valid_configs in Hne, Hk.
  destruct (ls_configs spec) as [cfgs |] eqn:Hcf; [| contradiction].
  cbn in Hne, Hk. rewrite (truthy_logger_configs spec cfgs Hcf). mstep.
  assert (truthy_list cfgs = true) as Ht
    by (destruct cfgs; [contradiction | reflexivity]).
  rewrite Hcf, Ht. mstep. rewrite (bool_decide_eq_false_2 _ Hk). reflexivity.
Qed.

(** The messages for a logger without configurations. *)
Lemma set_logger_config_message (w : world) c lg k D ls spec :
  cruise_configs (self w) !! c = Some D → cc_loggers D = Some ls →
  ls !! lg = Some spec → k ∉ valid_configs spec →
  set_logger_config c lg k w
  = (w, inl (ValueError [AStr (invalid_config_message c lg k spec)])).
Proof.
  intros Hc HD Hl Hk. unfold invalid_config_message.
  destruct (truthy_logger spec) eqn:Hspec; cbn [negb].
  - destruct (bool_decide (valid_configs spec = [])) eqn:Hempty.
    + apply bool_decide_eq_true in Hempty.
      unfold set_logger_config, bind at 1.
      rewrite (get_cruise_config_loaded w c D Hc (truthy_config_loggers D ls HD)).
      rewrite (truthy_config_loggers D ls HD). mstep.
      rewrite HD, (truthy_map_lookup ls lg spec Hl). mstep. rewrite Hl, Hspec.
      unfold valid_configs in Hempty.
      destruct (ls_configs spec) as [cfgs |]; cbn in Hempty.
      * subst cfgs. reflexivity.
      * reflexivity.
    + apply bool_decide_eq_false in Hempty.
      exact (set_logger_config_not_valid w c lg k D ls spec Hc HD Hl Hempty Hk).
  - unfold set_logger_config, bind at 1.
    rewrite (get_cruise_config_loaded w c D Hc (truthy_config_loggers D ls HD)).
    rewrite (truthy_config_loggers D ls HD). mstep.
    rewrite HD, (truthy_map_lookup ls lg spec Hl). mstep. rewrite Hl, Hspec.
    reflexivity.
Qed.

(** C4, as the claim states it, fails on the error: for a logger whose
    list of configurations is empty, every name is outside the valid
    set, and the [ValueError] that [set_logger_config] raises says that
    the logger has no configs: it names the logger and the cruise and
    not the configuration that was asked for.  The world is
    unchanged. *)
Lemma set_logger_config_error_names_no_config :
  cruise_configs (self Idle.loaded) !! "NBP1700" = Some Idle.NBP1700
  ∧ valid_configs Idle.winch = []
  ∧ set_logger_config "NBP1700" "winch" "net" Idle.loaded
    = (Idle.loaded,
       inl (ValueError
              [AStr ("Logger " +:+ dq +:+ "winch" +:+ dq +:+ " in cruise "
                     +:+ dq +:+ "NBP1700" +:+ dq +:+ " has no configs??")]))
  ∧ str_in "net"
      ("Logger " +:+ dq +:+ "winch" +:+ dq +:+ " in cruise "
       +:+ dq +:+ "NBP1700" +:+ dq +:+ " has no configs??") = false.
Proof. repeat split; vm_compute; reflexivity. Qed.

(** C4.  For a loaded cruise [c], a logger [lg] of [c] and a name [k]
    that is not among the valid configurations of [lg],
    [set_logger_config c lg k] raises a [ValueError] (the error class
    of this module for a failed validation) and the world after the
    call is the world before it: in particular the Current
    Configuration of [lg] is what it was.  The message is that of the
    check that fails: when the logger has a non-empty list of
    configurations it names the configuration, the logger and the
    cruise; when the list is empty or absent it says that the logger
    has no configs, and names the logger and the cruise; when the
    specification of the logger is an empty dictionary it says that the
    cruise has no such logger. *)
Theorem set_logger_config_invalid_rejected (w : world) c lg k D ls spec :
  cruise_configs (self w) !! c = Some D → cc_loggers D = Some ls →
  ls !! lg = Some spec → k ∉ valid_configs spec →
  ∃ args,
    set_logger_config c lg k w = (w, inl (ValueError args))
    ∧ current_config (exec (set_logger_config c lg k) w) c lg
      = current_config w c lg
    ∧ args = [AStr (invalid_config_message c lg k spec)]
    ∧ (valid_configs spec ≠ [] →
       args = [AStr ("Config " +:+ dq +:+ k +:+ dq +:+ " not valid for logger "
                     +:+ dq +:+ lg +:+ dq +:+ " in cruise "
                     +:+ dq +:+ c +:+ dq)])
    ∧ (valid_configs spec = [] → truthy_logger spec = true →
       args = [AStr ("Logger " +:+ dq +:+ lg +:+ dq +:+ " in cruise "
                     +:+ dq +:+ c +:+ dq +:+ " has no configs??")])
    ∧ (truthy_logger spec = false →
       args = [AStr ("Cruise " +:+ dq +:+ c +:+ dq +:+ " has no logger "
                     +:+ dq +:+ lg +:+ dq +:+ "??")]).
Proof.
  intros Hc HD Hl Hk.
  exists [AStr (invalid_config_message c lg k spec)].
  pose proof (set_logger_config_message w c lg k D ls spec Hc HD Hl Hk) as Hrun.
  unfold exec. rewrite Hrun. cbn [fst].
  split; [reflexivity |]. split; [reflexivity |]. split; [reflexivity |].
  unfold invalid_config_message. split; [| split].
  - intros Hne.
    assert (truthy_logger spec = true) as ->.
    { unfold valid_configs in Hne.
      destruct (ls_configs spec) as [cfgs |] eqn:Hcf; [| contradiction].
      exact (truthy_logger_configs spec cfgs Hcf). }
    rewrite (bool_decide_eq_false_2 _ Hne). reflexivity.
  - intros Hempty ->. rewrite (bool_decide_eq_true_2 _ Hempty). reflexivity.
  - intros ->. reflexivity.
Qed.

Lemma set_logger_config_invalid_rejected_witness :
  ∃ args,
    set_logger_config "NBP1700" "knud" "file" Scenario.loaded
      = (Scenario.loaded, inl (ValueError args))
    ∧ args = [AStr ("Config " +:+ dq +:+ "file" +:+ dq +:+ " not valid for logger "
                    +:+ dq +:+ "knud" +:+ dq +:+ " in cruise "
                    +:+ dq +:+ "NBP1700" +:+ dq)].
Proof.
  destruct (set_logger_config_invalid_rejected Scenario.loaded "NBP1700" "knud"
              "file" Scenario.NBP1700
              (list_to_map
                 [("knud", {| ls_host := None; ls_configs := Some ["off"; "net"] |});
                  ("gyr1", {| ls_host := None; ls_configs := Some ["off"; "net"] |})])
              {| ls_host := None; ls_configs := Some ["off"; "net"] |})
    as (args & Hrun & _ & _ & Hargs & _).
  - vm_compute; reflexivity.
  - reflexivity.
  - vm_compute; reflexivity.
  - cbn. intros Hin. apply elem_of_cons in Hin as [Heq | Hin]; [discriminate |].
    apply elem_of_cons in Hin as [Heq | Hin]; [discriminate |].
    inversion Hin.
  - exists args. split; [exact Hrun |]. apply Hargs. cbn. discriminate.
Defined.

(** ** The invariant *)

Lemma wf_check_sound (w : world) : wf_check w = true → wf w.
Proof.
  unfold wf_check. intros H.
  apply andb_true_iff in H as [H Hdef]. apply andb_true_iff in H as [Hal Hinj].
  apply bool_decide_eq_true in Hal, Hinj, Hdef.
  split.
  - intros l [c Hc]. exact (Hal c l Hc).
  - intros c1 c2 l H1 H2. exact (Hinj c1 l H1 c2 l H2 eq_refl).
  - intros l (c & D & ms & m & Hc & Hms & Hm).
    specialize (Hdef c D Hc). cbn in Hdef. rewrite Hms in Hdef.
    exact (proj1 (Hdef m l Hm)).
  - intros l (c & D & ms & m & Hc & Hms & Hm) [c' Hc'].
    specialize (Hdef c D Hc). cbn in Hdef. rewrite Hms in Hdef.
    exact (proj2 (Hdef m l Hm) c' l Hc' eq_refl).
Qed.

(** The invariant reads the heap, the live tables and the stored
    definitions, and nothing else. *)
Lemma wf_same_graph (w w' : world) :
  heap w' = heap w → logger_config (self w') = logger_config (self w) →
  cruise_configs (self w') = cruise_configs (self w) →
  wf w → wf w'.
Proof.
  intros Hh Hl Hc [Hal Hinj Hdef Hsep].
  assert (∀ l, def_loc w' l → def_loc w l) as Hd.
  { intros l (c & D & ms & m & H1 & H2 & H3). rewrite Hc in H1.
    exists c, D, ms, m. eauto. }
  assert (∀ l, live_loc w' l → live_loc w l) as Hlv.
  { intros l [c H1]. rewrite Hl in H1. exists c. exact H1. }
  split.
  - intros l Hlive. rewrite Hh. eauto.
  - intros c1 c2 l. rewrite Hl. apply Hinj.
  - intros l Hdl. rewrite Hh. eauto.
  - intros l Hdl Hlive. eauto.
Qed.


(** A new live table for [c], at the unused reference. *)
Lemma wf_new_live_table (w : world) (c : string) (t : table) (a : InMemoryServerAPI)
    (tr : list event) :
  wf w →
  logger_config a = <[c := fresh_loc (heap w)]> (logger_config (self w)) →
  cruise_configs a = cruise_configs (self w) →
  wf {| heap := <[fresh_loc (heap w) := t]> (heap w); self := a; trace := tr |}.
Proof.
  intros [Hal Hinj Hdef Hsep] Hlc Hcc.
  pose proof (fresh_loc_unused (heap w)) as Hfresh.
  assert (∀ l, is_Some (heap w !! l) → l ≠ fresh_loc (heap w)) as Hne.
  { intros l [t' Hl] ->. rewrite Hfresh in Hl. discriminate. }
  assert (∀ l, def_loc {| heap := <[fresh_loc (heap w) := t]> (heap w);
                          self := a; trace := tr |} l → def_loc w l) as Hd.
  { intros l (c' & D & ms & m & H1 & H2 & H3). cbn in H1. rewrite Hcc in H1.
    exists c', D, ms, m. eauto. }
  split; cbn.
  - intros l [c' Hc']. cbn in Hc'. rewrite Hlc in Hc'.
    destruct (decide (c = c')) as [<- | Hcc'].
    + rewrite lookup_insert_eq in Hc'. injection Hc' as <-.
      rewrite lookup_insert_eq. eauto.
    + rewrite lookup_insert_ne in Hc' by exact Hcc'.
      assert (is_Some (heap w !! l)) as Hl by (apply Hal; exists c'; exact Hc').
      rewrite lookup_insert_ne by (apply not_eq_sym, Hne, Hl). exact Hl.
  - intros c1 c2 l. rewrite Hlc.
    destruct (decide (c = c1)) as [<- | H1], (decide (c = c2)) as [<- | H2];
      rewrite ?lookup_insert_eq, ?lookup_insert_ne by assumption.
    + reflexivity.
    + intros [= <-] H. exfalso. eapply Hne; [| reflexivity].
      apply Hal. exists c2. exact H.
    + intros H [= <-]. exfalso. eapply Hne; [| reflexivity].
      apply Hal. exists c1. exact H.
    + apply Hinj.
  - intros l Hdl. apply Hd in Hdl.
    rewrite lookup_insert_ne by (apply not_eq_sym, Hne, Hdef, Hdl).
    apply Hdef, Hdl.
  - intros l Hdl [c' Hc']. cbn in Hc'. rewrite Hlc in Hc'. apply Hd in Hdl.
    destruct (decide (c = c')) as [<- | Hcc'].
    + rewrite lookup_insert_eq in Hc'. injection Hc' as <-.
      eapply Hne; [apply Hdef, Hdl | reflexivity].
    + rewrite lookup_insert_ne in Hc' by exact Hcc'.
      apply (Hsep l Hdl). exists c'. exact Hc'.
Qed.

(** An object replaced in place: the graph is the same. *)
Lemma wf_replace_object (w : world) (l : loc) (t : table) :
  wf w → is_Some (heap w !! l) →
  wf {| heap := <[l := t]> (heap w); self := self w; trace := trace w |}.
Proof.
  intros [Hal Hinj Hdef Hsep] Hl.
  assert (∀ l', is_Some (heap w !! l') → is_Some (<[l := t]> (heap w) !! l')) as Hkeep.
  { intros l' Hl'. apply lookup_insert_is_Some.
    destruct (decide (l = l')); [left; assumption | right; split; assumption]. }
  split; cbn.
  - intros l' Hlive. apply Hkeep, Hal, Hlive.
  - apply Hinj.
  - intros l' Hdl. apply Hkeep, Hdef, Hdl.
  - intros l' Hdl Hlive. exact (Hsep l' Hdl Hlive).
Qed.

Lemma wf_set_mode (w : world) c m : wf w → wf (exec (set_mode c m) w).
Proof.
  intros Hwf. unfold exec.
  destruct (set_mode_outcome w c m)
    as [[args ->] | [(l & _ & _ & ->) | (l & t & _ & _ & ->)]]; cbn.
  - exact Hwf.
  - revert Hwf. apply wf_same_graph; reflexivity.
  - unfold mode_set. apply (wf_new_live_table w c t); [exact Hwf | reflexivity..].
Qed.

Lemma wf_set_logger_config (w : world) c lg k :
  wf w → wf (exec (set_logger_config c lg k) w).
Proof.
  intros Hwf. unfold exec.
  destruct (set_logger_config_outcome w c lg k)
    as [[e ->] | [(l & t & _ & Hl & Ht & ->) | (_ & Hnone & ->)]]; cbn.
  - exact Hwf.
  - unfold config_stored. apply wf_replace_object; [exact Hwf | eauto].
  - unfold config_started. rewrite insert_insert_eq.
    apply (wf_new_live_table w c (<[lg := k]> ∅)); [exact Hwf | reflexivity..].
Qed.

Lemma wf_perform (w : world) r : wf w → wf (exec (perform r) w).
Proof. destruct r; [apply wf_set_mode | apply wf_set_logger_config]. Qed.

Lemma wf_run (rs : list request) (w : world) : wf w → wf (run rs w).
Proof.
  revert w. induction rs as [| r rs IH]; intros w Hwf; [exact Hwf |].
  cbn. apply IH, wf_perform, Hwf.
Qed.

(** ** The frame of [set_logger_config] *)

Lemma current_config_unfold (w : world) c lg :
  current_config w c lg
  = match logger_config (self w) !! c with
    | Some l => match heap w !! l with
                | Some t => t !! lg
                | None => None
                end
    | None => None
    end.
Proof.
  unfold current_config, live_table.
  destruct (logger_config (self w) !! c) as [l |]; [| reflexivity].
  cbn. destruct (heap w !! l); reflexivity.
Qed.

(** C9.  In a well-formed world, for a loaded cruise [c], a logger
    [lg] of [c] and a valid configuration [k] of [lg],
    [set_logger_config c lg k] returns and changes the Current
    Configuration of [lg] in [c] to [k] and nothing else that can be
    read: the Current Configuration of every other logger, in [c] and
    in every other cruise, is what it was, and so are the Current Mode
    of every cruise, the stored definitions with the contents of all
    their mode dictionaries, the registered callbacks and the status
    log. *)
Theorem set_logger_config_changes_one_entry (w : world) c lg k D ls spec :
  wf w →
  cruise_configs (self w) !! c = Some D → cc_loggers D = Some ls →
  ls !! lg = Some spec → k ∈ valid_configs spec →
  let w' := exec (set_logger_config c lg k) w in
  result (set_logger_config c lg k) w = inr tt
  ∧ current_config w' c lg = Some k
  ∧ (∀ c' lg', (c', lg') ≠ (c, lg) →
       current_config w' c' lg' = current_config w c' lg')
  ∧ mode (self w') = mode (self w)
  ∧ cruise_configs (self w') = cruise_configs (self w)
  ∧ (∀ l, def_loc w l → heap w' !! l = heap w !! l)
  ∧ callbacks (self w') = callbacks (self w)
  ∧ status (self w') = status (self w).
Proof.
  intros [Hal Hinj Hdef Hsep] Hc HD Hl Hk w'. subst w'. unfold exec, result.
  rewrite (set_logger_config_valid w c lg k D ls spec Hc HD Hl Hk).
  pose proof (fresh_loc_unused (heap w)) as Hfresh.
  destruct (logger_config (self w) !! c) as [l |] eqn:Hlc.
  - destruct (Hal l (ex_intro _ c Hlc)) as [t Ht]. rewrite Ht. cbn.
    repeat split.
    + rewrite current_config_unfold. cbn. rewrite Hlc, lookup_insert_eq.
      apply lookup_insert_eq.
    + intros c' lg' Hne. rewrite !current_config_unfold. cbn.
      destruct (decide (c' = c)) as [-> | Hcc].
      * rewrite Hlc, lookup_insert_eq, Ht. apply lookup_insert_ne.
        intros <-. apply Hne. reflexivity.
      * destruct (logger_config (self w) !! c') as [l' |] eqn:Hlc'; [| reflexivity].
        rewrite lookup_insert_ne; [reflexivity |].
        intros <-. apply Hcc. exact (Hinj c' c l Hlc' Hlc).
    + intros l' Hdl. apply lookup_insert_ne. intros <-.
      apply (Hsep l Hdl). exists c. exact Hlc.
  - cbn. repeat split.
    + rewrite current_config_unfold. cbn. rewrite !lookup_insert_eq.
      reflexivity.
    + intros c' lg' Hne. rewrite !current_config_unfold. cbn.
      destruct (decide (c' = c)) as [-> | Hcc].
      * rewrite Hlc, !lookup_insert_eq. rewrite lookup_insert_ne.
        -- apply lookup_empty.
        -- intros <-. apply Hne. reflexivity.
      * rewrite lookup_insert_ne by (apply not_eq_sym, Hcc).
        destruct (logger_config (self w) !! c') as [l' |] eqn:Hlc'; [| reflexivity].
        assert (fresh_loc (heap w) ≠ l') as Hfl.
        { intros <-. destruct (Hal _ (ex_intro _ c' Hlc')) as [t' Ht'].
          rewrite Hfresh in Ht'. discriminate. }
        rewrite !lookup_insert_ne by exact Hfl. reflexivity.
    + intros l' Hdl.
      assert (fresh_loc (heap w) ≠ l') as Hfl.
      { intros <-. destruct (Hdef _ Hdl) as [t' Ht'].
        rewrite Hfresh in Ht'. discriminate. }
      rewrite !lookup_insert_ne by exact Hfl. reflexivity.
Qed.

Lemma set_logger_config_changes_one_entry_witness :
  current_config (exec (set_logger_config "NBP1700" "gyr1" "net") Scenario.loaded)
    "NBP1700" "gyr1" = Some "net"
  ∧ current_config (exec (set_logger_config "NBP1700" "gyr1" "net") Scenario.loaded)
      "NBP1700" "knud" = current_config Scenario.loaded "NBP1700" "knud"
  ∧ current_config Scenario.loaded "NBP1700" "gyr1" = Some "off".
Proof.
  pose proof (set_logger_config_changes_one_entry Scenario.loaded
                "NBP1700" "gyr1" "net" Scenario.NBP1700
                (list_to_map
                   [("knud", {| ls_host := None; ls_configs := Some ["off"; "net"] |});
                    ("gyr1", {| ls_host := None; ls_configs := Some ["off"; "net"] |})])
                {| ls_host := None; ls_configs := Some ["off"; "net"] |}) as H.
  cbv zeta in H. destruct H as (_ & Hk & Hother & _).
  - apply wf_check_sound. vm_compute; reflexivity.
  - vm_compute; reflexivity.
  - reflexivity.
  - vm_compute; reflexivity.
  - cbn. apply elem_of_cons. right. apply elem_of_cons. left. reflexivity.
  - split; [exact Hk |]. split; [| vm_compute; reflexivity].
    apply Hother. intros Heq. discriminate Heq.
Defined.

(** ** [load_cruise] *)

(** With an id that has no separator, [load_cruise] stores the
    definition and then sets the default mode, when there is one. *)
Lemma load_cruise_accepted (w : world) D cid :
  id_of D = Some cid → str_in ID_SEPARATOR cid = false →
  load_cruise D w
  = match cc_default_mode D with
    | Some m => set_mode cid m (installed w cid D)
    | None => (installed w cid D, inr tt)
    end.
Proof.
  intros Hid Hsep. unfold id_of in Hid. unfold load_cruise, bind at 1.
  rewrite Hid. mstep. rewrite Hsep. mstep.
  destruct (cc_default_mode D); reflexivity.
Qed.

(** [set_mode] never touches the stored definitions, and the objects
    that exist keep their contents. *)
Lemma set_mode_frame (w : world) c m :
  cruise_configs (self (exec (set_mode c m) w)) = cruise_configs (self w)
  ∧ (∀ l, is_Some (heap w !! l) → heap (exec (set_mode c m) w) !! l = heap w !! l).
Proof.
  unfold exec.
  destruct (set_mode_outcome w c m)
    as [[args ->] | [(l & _ & _ & ->) | (l & t & _ & _ & ->)]]; cbn;
    split; try reflexivity.
  intros l' [t' Hl']. apply lookup_insert_ne. intros <-.
  rewrite fresh_loc_unused in Hl'. discriminate.
Qed.

Lemma get_cruises_eq (w : world) :
  get_cruises w = (w, inr ((map_to_list (cruise_configs (self w))).*1)).
Proof. reflexivity. Qed.

(** C6.  For a definition [D] whose id [cid] has no separator, the
    world after [load_cruise D] stores exactly [D] under [cid],
    whatever was stored there before: [get_cruise_config cid] returns
    [D], [get_cruises] lists [cid], the other cruises keep their
    definitions, and the dictionaries that the definition refers to
    keep their contents.  The call returns normally when the
    definition is valid, that is, when it names no default mode or
    names one of its modes. *)
Theorem load_cruise_stores_definition (w : world) D info cid :
  cc_cruise D = Some info → ci_id info = Some cid →
  str_in ID_SEPARATOR cid = false →
  let w' := exec (load_cruise D) w in
  cruise_configs (self w') = <[cid := D]> (cruise_configs (self w))
  ∧ get_cruise_config cid w' = (w', inr D)
  ∧ (∃ ids, get_cruises w' = (w', inr ids) ∧ cid ∈ ids)
  ∧ (∀ c, c ≠ cid → cruise_configs (self w') !! c = cruise_configs (self w) !! c)
  ∧ (∀ l, is_Some (heap w !! l) → heap w' !! l = heap w !! l)
  ∧ ((cc_default_mode D = None
      ∨ ∃ m ms l, cc_default_mode D = Some m ∧ cc_modes D = Some ms
                  ∧ ms !! m = Some l ∧ is_Some (heap w !! l)) →
     result (load_cruise D) w = inr tt).
Proof.
  intros Hinfo Hcid Hsep w'.
  assert (id_of D = Some cid) as Hid by (unfold id_of; rewrite Hinfo; exact Hcid).
  assert (cruise_configs (self w') = <[cid := D]> (cruise_configs (self w))
          ∧ (∀ l, is_Some (heap w !! l) → heap w' !! l = heap w !! l)) as [Hcc Hheap].
  { subst w'. unfold exec. rewrite (load_cruise_accepted w D cid Hid Hsep).
    destruct (cc_default_mode D) as [m |]; [| split; reflexivity].
    destruct (set_mode_frame (installed w cid D) cid m) as [H1 H2].
    unfold exec in H1, H2. split; [exact H1 | exact H2]. }
  assert (cruise_configs (self w') !! cid = Some D) as Hlook
    by (rewrite Hcc; apply lookup_insert_eq).
  repeat split.
  - exact Hcc.
  - apply get_cruise_config_loaded; [exact Hlook |].
    exact (truthy_config_cruise D info Hinfo).
  - exists ((map_to_list (cruise_configs (self w'))).*1).
    split; [apply get_cruises_eq |].
    apply list_elem_of_fmap. exists (cid, D). split; [reflexivity |].
    apply elem_of_map_to_list. exact Hlook.
  - intros c Hne. rewrite Hcc. apply lookup_insert_ne. apply not_eq_sym, Hne.
  - exact Hheap.
  - unfold result. rewrite (load_cruise_accepted w D cid Hid Hsep).
    intros [-> | (m & ms & l & -> & Hms & Hm & [t Hl])]; [reflexivity |].
    rewrite (set_mode_defined (installed w cid D) cid m l t); [reflexivity | |].
    + apply mode_dict_Some. exists D, ms. cbn. rewrite lookup_insert_eq. eauto.
    + exact Hl.
Qed.

Lemma load_cruise_stores_definition_witness :
  get_cruise_config "NBP1700" Scenario.loaded = (Scenario.loaded, inr Scenario.NBP1700)
  ∧ result (load_cruise Scenario.NBP1700) Scenario.start = inr tt.
Proof.
  pose proof (load_cruise_stores_definition Scenario.start Scenario.NBP1700
                {| ci_id := Some "NBP1700"; ci_start := Some "2017-01-01";
                   ci_end := Some "2017-02-01" |} "NBP1700"
                eq_refl eq_refl eq_refl) as H.
  cbv zeta in H. destruct H as (_ & Hget & _ & _ & _ & Hret).
  split; [exact Hget |]. apply Hret. right.
  exists "off", (list_to_map [("off", 1%positive); ("port", 2%positive)]), 1%positive.
  split; [reflexivity |]. split; [reflexivity |].
  split; [vm_compute; reflexivity |].
  exists Scenario.off_mode. vm_compute; reflexivity.
Defined.

(** ** [delete_cruise] *)

(** [delete_cruise] always returns, in the world [deleted]. *)
Lemma delete_cruise_eq (w : world) (c : string) :
  delete_cruise c w = (deleted w c, inr tt).
Proof.
  unfold delete_cruise, deleted, bind at 1. mstep.
  destruct w as [h [cc md lc cb st] tr]. cbn.
  destruct (cc !! c) as [D |] eqn:Hcc, (md !! c) as [m |] eqn:Hmd,
    (lc !! c) as [l |] eqn:Hlc, (cb !! Some c) as [r |] eqn:Hcb;
    repeat (mstep; rewrite ?Hcc, ?Hmd, ?Hlc, ?Hcb);
    rewrite ?(delete_id cc), ?(delete_id md), ?(delete_id lc), ?(delete_id cb)
      by assumption;
    reflexivity.
Qed.

(** C8, as the claim states it, fails: the cruise X was never loaded,
    an observer is registered for it, and [delete_cruise] on X, which
    returns without raising, removes the registration: the store after
    the call is not the store before it. *)
Lemma delete_unknown_cruise_drops_observers :
  cruise_configs (self Examples.observed_unknown) !! "X" = None
  ∧ result (delete_cruise "X") Examples.observed_unknown = inr tt
  ∧ callbacks (self Examples.observed_unknown) !! Some "X"
    = Some [("reload", [])]
  ∧ callbacks (self (exec (delete_cruise "X") Examples.observed_unknown))
      !! Some "X" = None
  ∧ self (exec (delete_cruise "X") Examples.observed_unknown)
    ≠ self Examples.observed_unknown.
Proof.
  split; [vm_compute; reflexivity |]. split; [vm_compute; reflexivity |].
  split; [vm_compute; reflexivity |]. split; [vm_compute; reflexivity |].
  intros Heq.
  assert (callbacks (self (exec (delete_cruise "X") Examples.observed_unknown))
            !! Some "X"
          = callbacks (self Examples.observed_unknown) !! Some "X") as H
    by (rewrite Heq; reflexivity).
  vm_compute in H. discriminate H.
Qed.

(** C8, amended.  [delete_cruise c] never raises.  Whether or not [c]
    is loaded, the world after the call has no entry for [c] in any of
    the four tables: [c] is not listed by [get_cruises] and has no
    Current Mode, no live table and no observer registration of its
    own; every other cruise keeps its entries, and the observers of all
    cruises, the status log and the heap are untouched.  When [c] is
    not loaded the call logs an error and the stored definitions are
    the same; the whole store is the same when, further, nothing is
    recorded under [c] in the other three tables.  That is the case
    after a first [delete_cruise c]: a second one returns, logs, and
    leaves the store as the first one left it. *)
Theorem delete_cruise_effect (w : world) (c : string) :
  let w' := exec (delete_cruise c) w in
  result (delete_cruise c) w = inr tt
  ∧ (∃ ids, get_cruises w' = (w', inr ids) ∧ c ∉ ids)
  ∧ (cruise_configs (self w') !! c = None ∧ mode (self w') !! c = None
     ∧ logger_config (self w') !! c = None
     ∧ callbacks (self w') !! Some c = None)
  ∧ (∀ c', c' ≠ c →
       cruise_configs (self w') !! c' = cruise_configs (self w) !! c'
       ∧ mode (self w') !! c' = mode (self w) !! c'
       ∧ logger_config (self w') !! c' = logger_config (self w) !! c'
       ∧ callbacks (self w') !! Some c' = callbacks (self w) !! Some c')
  ∧ callbacks (self w') !! None = callbacks (self w) !! None
  ∧ status (self w') = status (self w)
  ∧ heap w' = heap w
  ∧ (cruise_configs (self w) !! c = None →
       trace w' = trace w ++ [undefined_cruise c]
       ∧ cruise_configs (self w') = cruise_configs (self w)
       ∧ (mode (self w) !! c = None → logger_config (self w) !! c = None →
          callbacks (self w) !! Some c = None → self w' = self w))
  ∧ delete_cruise c w'
    = ({| heap := heap w'; self := self w';
          trace := trace w' ++ [undefined_cruise c] |}, inr tt).
Proof.
  intros w'. subst w'. unfold exec, result. rewrite !delete_cruise_eq. cbn.
  split; [reflexivity |]. split.
  { exists ((map_to_list (delete c (cruise_configs (self w)))).*1).
    split; [reflexivity |].
    intros ([c' D] & Hc' & Hin)%list_elem_of_fmap. cbn in Hc'. subst c'.
    apply elem_of_map_to_list in Hin. rewrite lookup_delete_eq in Hin.
    discriminate. }
  split; [rewrite !lookup_delete_eq; auto |]. split.
  { intros c' Hne. rewrite !lookup_delete_ne by congruence. auto. }
  split; [apply lookup_delete_ne; discriminate |].
  split; [reflexivity |]. split; [reflexivity |]. split.
  - intros Hcc. rewrite Hcc. split; [reflexivity |].
    split; [apply delete_id, Hcc |].
    intros Hmd Hlc Hcb. rewrite !delete_id by assumption.
    destruct w as [h [cc md lc cb st] tr]. reflexivity.
  - unfold deleted at 1. cbn. rewrite lookup_delete_eq.
    rewrite !(delete_id (delete _ _)) by apply lookup_delete_eq. reflexivity.
Qed.

Lemma delete_cruise_effect_witness :
  result (delete_cruise "NBP1700") Scenario.loaded = inr tt
  ∧ mode (self (exec (delete_cruise "NBP1700") Scenario.loaded)) !! "NBP1700" = None
  ∧ mode (self Scenario.loaded) !! "NBP1700" = Some "off"
  ∧ result (delete_cruise "NBP1700")
      (exec (delete_cruise "NBP1700") Scenario.loaded) = inr tt.
Proof.
  pose proof (delete_cruise_effect Scenario.loaded "NBP1700") as H.
  cbv zeta in H. destruct H as (Hret & _ & (_ & Hmode & _) & _ & _ & _ & _ & _ & Hagain).
  split; [exact Hret |]. split; [exact Hmode |].
  split; [vm_compute; reflexivity |].
  unfold result. rewrite Hagain. reflexivity.
Defined.

(** ** Stored definitions under [set_mode] and [set_logger_config] *)

(** Neither call rebinds a stored definition, and in a well-formed
    world neither writes into the dictionary of a mode. *)
Lemma perform_frame (w : world) (r : request) :
  wf w →
  cruise_configs (self (exec (perform r) w)) = cruise_configs (self w)
  ∧ (∀ l, def_loc w l → heap (exec (perform r) w) !! l = heap w !! l).
Proof.
  intros Hwf. pose proof Hwf as [Hal Hinj Hdef Hsep]. destruct r as [c m | c lg k]; cbn.
  - destruct (set_mode_frame w c m) as [Hcc Hheap].
    split; [exact Hcc |]. intros l Hdl. apply Hheap, Hdef, Hdl.
  - pose proof (fresh_loc_unused (heap w)) as Hfresh. unfold exec.
    destruct (set_logger_config_outcome w c lg k)
      as [[e ->] | [(l & t & _ & Hl & Ht & ->) | (_ & Hnone & ->)]]; cbn;
      (split; [reflexivity |]); intros l' Hdl.
    + reflexivity.
    + apply lookup_insert_ne. intros <-. apply (Hsep l Hdl). exists c. exact Hl.
    + assert (fresh_loc (heap w) ≠ l') as Hfl.
      { intros <-. destruct (Hdef _ Hdl) as [t' Ht']. rewrite Hfresh in Ht'.
        discriminate. }
      rewrite !lookup_insert_ne by exact Hfl. reflexivity.
Qed.

Lemma def_loc_same_definitions (w w' : world) (l : loc) :
  cruise_configs (self w') = cruise_configs (self w) → def_loc w l → def_loc w' l.
Proof.
  intros Hcc (c & D & ms & m & H1 & H2 & H3). exists c, D, ms, m.
  rewrite Hcc. eauto.
Qed.

Lemma run_frame (rs : list request) (w : world) :
  wf w →
  cruise_configs (self (run rs w)) = cruise_configs (self w)
  ∧ (∀ l, def_loc w l → heap (run rs w) !! l = heap w !! l).
Proof.
  revert w. induction rs as [| r rs IH]; intros w Hwf; [split; reflexivity |].
  cbn. destruct (perform_frame w r Hwf) as [Hcc Hheap].
  destruct (IH _ (wf_perform w r Hwf)) as [Hcc' Hheap'].
  split; [congruence |].
  intros l Hdl. rewrite Hheap'; [apply Hheap, Hdl |].
  eapply def_loc_same_definitions; [exact Hcc | exact Hdl].
Qed.

(** A definition stored in a well-formed world, when its dictionaries
    exist and are not live tables. *)
Lemma wf_installed (w : world) (cid : string) (D : cruise_config) :
  wf w → loadable w D → wf (installed w cid D).
Proof.
  intros [Hal Hinj Hdef Hsep] Hload.
  assert (∀ l, def_loc (installed w cid D) l →
               is_Some (heap w !! l) ∧ ¬ live_loc w l) as Hd.
  { intros l (c & D' & ms & m & H1 & H2 & H3). cbn in H1.
    destruct (decide (cid = c)) as [<- | Hne].
    - rewrite lookup_insert_eq in H1. injection H1 as <-. eauto.
    - rewrite lookup_insert_ne in H1 by exact Hne.
      assert (def_loc w l) as Hdl by (exists c, D', ms, m; eauto).
      split; [apply Hdef, Hdl | intros Hlive; exact (Hsep l Hdl Hlive)]. }
  split; cbn.
  - exact Hal.
  - exact Hinj.
  - intros l Hdl. apply Hd, Hdl.
  - intros l Hdl Hlive. exact (proj2 (Hd l Hdl) Hlive).
Qed.

Lemma wf_load_cruise (w : world) (D : cruise_config) :
  wf w → loadable w D → wf (exec (load_cruise D) w).
Proof.
  intros Hwf Hload. unfold exec.
  destruct (id_of D) as [cid |] eqn:Hid.
  - destruct (str_in ID_SEPARATOR cid) eqn:Hsep.
    + rewrite (load_cruise_separator w D cid Hid Hsep). exact Hwf.
    + rewrite (load_cruise_accepted w D cid Hid Hsep).
      pose proof (wf_installed w cid D Hwf Hload) as Hwf'.
      destruct (cc_default_mode D) as [m |]; [| exact Hwf'].
      exact (wf_set_mode (installed w cid D) cid m Hwf').
  - unfold load_cruise, bind at 1. unfold id_of in Hid. rewrite Hid. exact Hwf.
Qed.

(** ** [get_configs] for a cruise and a mode *)

Lemma truthy_str_nonempty (s : string) : s ≠ EmptyString → truthy_str s = true.
Proof.
  intros Hs. unfold truthy_str. apply negb_true_iff, String.eqb_neq, Hs.
Qed.

Lemma get_configs_at_mode (d : nat) (w : world) c m l :
  c ≠ EmptyString → m ≠ EmptyString → mode_dict w c m = Some l →
  get_configs_at (S d) (Some c) (Some m) w = (w, inr (Ref l)).
Proof.
  intros Hc Hm (D & ms & Hcc & Hms & Hl)%mode_dict_Some.
  cbn [get_configs_at from_option default id].
  rewrite (truthy_str_nonempty c Hc), (truthy_str_nonempty m Hm).
  unfold bind at 1.
  rewrite (get_cruise_config_loaded w c D Hcc (truthy_config_modes D ms Hms)).
  rewrite (truthy_config_modes D ms Hms). mstep.
  rewrite Hms, (truthy_map_lookup ms m l Hl). mstep. rewrite Hl. reflexivity.
Qed.

Lemma loadable_check_sound (w : world) (D : cruise_config) :
  loadable_check w D = true → loadable w D.
Proof.
  unfold loadable_check. intros H%bool_decide_eq_true ms m l Hms Hm.
  rewrite Hms in H. cbn in H. destruct (H m l Hm) as [Hal Hnl].
  split; [exact Hal |]. intros [c Hc]. exact (Hnl c l Hc eq_refl).
Qed.

(** C10, as the claim states it, fails on its last part: for a mode
    whose name is the empty string, [get_configs] takes the mode for
    omitted.  The cruise is loaded with such a mode, whose dictionary
    is object 1 and maps both loggers to off, and no call follows;
    [get_configs] for the cruise and this mode returns a new dictionary
    of the loggers' current configuration specifications, not the
    mode's mapping. *)
Lemma get_configs_ignores_empty_mode_name :
  mode_dict Examples.unnamed_loaded "NBP1700" EmptyString = Some 1%positive
  ∧ mode_mapping Examples.unnamed_loaded "NBP1700" EmptyString
    = Some Scenario.off_mode
  ∧ result (get_configs (Some "NBP1700") (Some EmptyString))
      (run [] Examples.unnamed_loaded)
    = inr (Fresh (list_to_map
        [("knud", VJson (JDict [("name", JStr "off")]));
         ("gyr1", VJson (JDict [("name", JStr "off")]))])).
Proof. repeat split; vm_compute; reflexivity. Qed.

(** C10, amended.  In a well-formed world, after [load_cruise D] for a
    definition whose mode dictionaries exist and are not live tables,
    and then after any sequence of [set_mode] and [set_logger_config]
    calls, with any arguments and whether they return or raise: the
    stored definitions are the ones stored by the load, every mode of
    every stored cruise is the same dictionary object with the same
    contents, and no live table is the dictionary of a mode (the live
    table is a copy, and an override writes into the copy).  For a
    cruise id and a mode name that are not empty strings,
    [get_configs] with both returns the mode's own dictionary, whose
    contents are those it had after the load. *)
Theorem stored_definitions_never_mutated (w0 : world) (D : cruise_config)
    (rs : list request) :
  wf w0 → loadable w0 D →
  let w1 := exec (load_cruise D) w0 in
  let w := run rs w1 in
  cruise_configs (self w) = cruise_configs (self w1)
  ∧ (∀ c m, mode_dict w c m = mode_dict w1 c m
            ∧ mode_mapping w c m = mode_mapping w1 c m)
  ∧ (∀ l, def_loc w l → live_loc w l → False)
  ∧ (∀ c m l, c ≠ EmptyString → m ≠ EmptyString → mode_dict w1 c m = Some l →
       get_configs (Some c) (Some m) w = (w, inr (Ref l))
       ∧ heap w !! l = heap w1 !! l).
Proof.
  intros Hwf0 Hload w1 w.
  assert (wf w1) as Hwf1 by (apply wf_load_cruise; assumption).
  destruct (run_frame rs w1 Hwf1) as [Hcc Hheap]. fold w in Hcc, Hheap.
  assert (∀ c m, mode_dict w c m = mode_dict w1 c m) as Hdict.
  { intros c m. unfold mode_dict. rewrite Hcc. reflexivity. }
  assert (∀ c m l, mode_dict w1 c m = Some l → heap w !! l = heap w1 !! l) as Hsame.
  { intros c m l (D' & ms & H1 & H2 & H3)%mode_dict_Some. apply Hheap.
    exists c, D', ms, m. eauto. }
  split; [exact Hcc |]. split; [| split].
  - intros c m. split; [apply Hdict |].
    unfold mode_mapping. rewrite Hdict.
    destruct (mode_dict w1 c m) as [l |] eqn:Hd; [| reflexivity].
    cbn. exact (Hsame c m l Hd).
  - apply wf_sep. apply wf_run, Hwf1.
  - intros c m l Hc Hm Hd. split; [| exact (Hsame c m l Hd)].
    apply (get_configs_at_mode 999 w c m l Hc Hm). rewrite Hdict. exact Hd.
Qed.

Lemma stored_definitions_never_mutated_witness :
  current_config (run Examples.requests Scenario.loaded) "NBP1700" "knud"
    = Some "net"
  ∧ mode_mapping (run Examples.requests Scenario.loaded) "NBP1700" "port"
    = Some Scenario.port_mode
  ∧ get_configs (Some "NBP1700") (Some "port")
      (run Examples.requests Scenario.loaded)
    = (run Examples.requests Scenario.loaded, inr (Ref 2%positive)).
Proof.
  pose proof (stored_definitions_never_mutated Scenario.start Scenario.NBP1700
                Examples.requests) as H.
  cbv zeta in H. destruct H as (_ & Hmap & _ & Hget).
  - apply wf_check_sound. vm_compute; reflexivity.
  - apply loadable_check_sound. vm_compute; reflexivity.
  - split; [vm_compute; reflexivity |]. split.
    + transitivity (mode_mapping Scenario.loaded "NBP1700" "port");
        [exact (proj2 (Hmap "NBP1700" "port")) | vm_compute; reflexivity].
    + apply (Hget "NBP1700" "port" 2%positive); [discriminate | discriminate |].
      vm_compute; reflexivity.
Defined.

(** ** The invariant along every method *)

(** In a well-formed world the two calls that follow references find
    their objects: they return or raise a [ValueError]. *)
Lemma set_mode_no_BadRef (w : world) c m :
  wf w →
  result (set_mode c m) w = inr tt
  ∨ ∃ args, set_mode c m w = (w, inl (ValueError args)).
Proof.
  intros Hwf. unfold result.
  destruct (set_mode_outcome w c m)
    as [[args ->] | [(l & Hd & Hl & _) | (l & t & _ & _ & ->)]].
  - right. eauto.
  - exfalso. apply mode_dict_Some in Hd as (D & ms & H1 & H2 & H3).
    destruct (wf_def_alloc w Hwf l) as [t Ht]; [exists c, D, ms, m; eauto |].
    congruence.
  - left. reflexivity.
Qed.

Lemma set_logger_config_no_BadRef (w : world) c lg k :
  wf w →
  result (set_logger_config c lg k) w = inr tt
  ∨ ∃ args, set_logger_config c lg k w = (w, inl (ValueError args)).
Proof.
  intros Hwf. unfold result.
  destruct (set_logger_config_outcome w c lg k)
    as [[e He] | [(l & t & _ & _ & _ & ->) | (_ & _ & ->)]];
    [| left; reflexivity..].
  destruct (cruise_configs (self w) !! c) as [D |] eqn:Hc.
  2:{ right. apply set_logger_config_rejected.
      intros (D & ls & spec & HD & _). congruence. }
  destruct (cc_loggers D) as [ls |] eqn:HD.
  2:{ right. apply set_logger_config_rejected.
      intros (D' & ls & spec & HD' & Hls & _). congruence. }
  destruct (ls !! lg) as [spec |] eqn:Hl.
  2:{ right. apply set_logger_config_rejected.
      intros (D' & ls' & spec & HD' & Hls & Hs & _). congruence. }
  destruct (decide (k ∈ valid_configs spec)) as [Hk | Hk].
  2:{ right. apply set_logger_config_rejected.
      intros (D' & ls' & spec' & HD' & Hls & Hs & Hk'). apply Hk. congruence. }
  exfalso. rewrite (set_logger_config_valid w c lg k D ls spec Hc HD Hl Hk) in He.
  destruct (logger_config (self w) !! c) as [l |] eqn:Hlc; [| discriminate].
  destruct (wf_live_alloc w Hwf l (ex_intro _ c Hlc)) as [t Ht].
  rewrite Ht in He. discriminate.
Qed.






(** * Further properties of the methods *)

(** ** Reading the live configuration *)

Lemma truthy_map_nonempty {K : Type} `{Countable K} {V : Type} (m : gmap K V) :
  m ≠ ∅ → truthy_map m = true.
Proof.
  intros Hne. unfold truthy_map. rewrite bool_decide_eq_false_2; [reflexivity |].
  intros Hsize. apply Hne, map_size_empty_inv, Hsize.
Qed.

Lemma map_nonempty_lookup {K : Type} `{Countable K} {V : Type}
    (m : gmap K V) (k : K) (v : V) :
  m !! k = Some v → m ≠ ∅.
Proof. intros Hk ->. rewrite lookup_empty in Hk. discriminate. Qed.

Lemma truthy_map_empty {K : Type} `{Countable K} {V : Type} :
  truthy_map (∅ : gmap K V) = false.
Proof. unfold truthy_map. rewrite map_size_empty. reflexivity. Qed.

(** [get_config] without a mode, up to the lookup of the live table. *)
Lemma get_config_current (w : world) c lg D cfgs :
  cruise_configs (self w) !! c = Some D → cc_configs D = Some cfgs →
  cfgs ≠ ∅ →
  get_config c lg None w
  = match logger_config (self w) !! c with
    | None => (w, inl (no_config_defined c))
    | Some l =>
        match heap w !! l with
        | None => (w, inl BadRef)
        | Some t =>
            if truthy_map t then (w, inr (t !! lg ≫= λ k, cfgs !! k))
            else (w, inl (no_config_defined c))
        end
    end.
Proof.
  intros Hc Hcf Hne.
  assert (truthy_config D = true) as Ht.
  { unfold truthy_config. rewrite Hcf.
    rewrite (bool_decide_eq_true_2 (is_Some (Some cfgs))) by eauto.
    apply orb_true_r. }
  unfold get_config, bind at 1.
  rewrite (get_cruise_config_loaded w c D Hc Ht), Ht. mstep.
  rewrite Hcf, (truthy_map_nonempty cfgs Hne). mstep.
  destruct (logger_config (self w) !! c) as [l |]; [| reflexivity]. mstep.
  destruct (heap w !! l) as [t |]; [| reflexivity].
  destruct (truthy_map t); [| reflexivity]. cbn.
  destruct (t !! lg); reflexivity.
Qed.

(** X1.  [get_config] without a mode reads the live table of the
    cruise and then the configuration table of the definition: for a
    loaded cruise with a non-empty configuration table and a non-empty
    live table [t] it returns the specification of the name that [t]
    gives the logger, and [None], without an error, when [t] has no
    entry for the logger or when the name is not in the configuration
    table.  The world is unchanged. *)
Theorem get_config_reads_live_table (w : world) c lg D cfgs t :
  cruise_configs (self w) !! c = Some D → cc_configs D = Some cfgs →
  cfgs ≠ ∅ → live_table w c = Some t → t ≠ ∅ →
  get_config c lg None w = (w, inr (t !! lg ≫= λ k, cfgs !! k))
  ∧ (t !! lg = None → result (get_config c lg None) w = inr None)
  ∧ (∀ k, t !! lg = Some k → cfgs !! k = None →
          result (get_config c lg None) w = inr None).
Proof.
  intros Hc Hcf Hne Hlive Hnt.
  assert (get_config c lg None w = (w, inr (t !! lg ≫= λ k, cfgs !! k))) as Heq.
  { rewrite (get_config_current w c lg D cfgs Hc Hcf Hne).
    unfold live_table in Hlive.
    destruct (logger_config (self w) !! c) as [l |]; [| discriminate].
    cbn in Hlive. rewrite Hlive, (truthy_map_nonempty t Hnt). reflexivity. }
  split; [exact Heq |]. unfold result. rewrite Heq. cbn. split.
  - intros ->. reflexivity.
  - intros k -> Hk. cbn. rewrite Hk. reflexivity.
Qed.

Lemma get_config_reads_live_table_witness :
  get_config "NBP1700" "gyr1" None Examples.overridden
    = (Examples.overridden, inr (Some (JDict [("name", JStr "net")])))
  ∧ result (get_config "NBP1700" "winch" None) Examples.overridden = inr None.
Proof.
  split.
  - destruct (get_config_reads_live_table Examples.overridden "NBP1700" "gyr1"
                Scenario.NBP1700 More.configs Scenario.port_mode)
      as (H & _ & _).
    + vm_compute; reflexivity.
    + reflexivity.
    + apply (map_nonempty_lookup _ "off" (JDict [("name", JStr "off")])).
      vm_compute; reflexivity.
    + vm_compute; reflexivity.
    + apply (map_nonempty_lookup _ "knud" "off"). vm_compute; reflexivity.
    + rewrite H. vm_compute; reflexivity.
  - destruct (get_config_reads_live_table Examples.overridden "NBP1700" "winch"
                Scenario.NBP1700 More.configs Scenario.port_mode)
      as (_ & H & _).
    + vm_compute; reflexivity.
    + reflexivity.
    + apply (map_nonempty_lookup _ "off" (JDict [("name", JStr "off")])).
      vm_compute; reflexivity.
    + vm_compute; reflexivity.
    + apply (map_nonempty_lookup _ "knud" "off"). vm_compute; reflexivity.
    + apply H. vm_compute; reflexivity.
Defined.

(** X2.  Reading the live configuration can fail although the cruise
    and the logger exist: [get_config] without a mode raises a
    [ValueError], in the world as it was, when the definition has no
    configuration table or an empty one, when the cruise has no live
    table yet (no mode was ever set and no logger configured), and when
    the live table is empty (the cruise is in a mode that maps no
    logger). *)
Theorem get_config_without_live_state (w : world) c lg D :
  cruise_configs (self w) !! c = Some D → truthy_config D = true →
  (cc_configs D = None ∨ cc_configs D = Some ∅ →
     get_config c lg None w = (w, inl (no_configs c)))
  ∧ (∀ cfgs, cc_configs D = Some cfgs → cfgs ≠ ∅ →
       logger_config (self w) !! c = None ∨ live_table w c = Some ∅ →
       get_config c lg None w = (w, inl (no_config_defined c))).
Proof.
  intros Hc Ht. split.
  - intros Hcf. unfold get_config, bind at 1.
    rewrite (get_cruise_config_loaded w c D Hc Ht), Ht. mstep.
    destruct Hcf as [-> | ->]; [reflexivity |].
    rewrite truthy_map_empty. reflexivity.
  - intros cfgs Hcf Hne Hlive.
    rewrite (get_config_current w c lg D cfgs Hc Hcf Hne).
    destruct Hlive as [-> | Hlive]; [reflexivity |].
    unfold live_table in Hlive.
    destruct (logger_config (self w) !! c) as [l |]; [| reflexivity].
    cbn in Hlive. rewrite Hlive, truthy_map_empty. reflexivity.
Qed.

Lemma get_config_without_live_state_witness :
  get_config "NBP1700" "knud" None More.no_default_loaded
  = (More.no_default_loaded, inl (no_config_defined "NBP1700")).
Proof.
  apply (proj2 (get_config_without_live_state More.no_default_loaded "NBP1700"
                  "knud" More.no_default eq_refl eq_refl) More.configs).
  - reflexivity.
  - apply (map_nonempty_lookup _ "off" (JDict [("name", JStr "off")])).
    vm_compute; reflexivity.
  - left. vm_compute; reflexivity.
Defined.



(** ** Loading a cruise *)

(** X4.  A cruise starts in its default mode: when the definition has
    an id without the separator and names as default a mode that it
    defines, [load_cruise] returns, and in the world it leaves
    [get_mode] returns the default mode and the Current Configuration
    of every logger is what the default mode's mapping gives it. *)
Theorem load_cruise_enters_default_mode (w : world) D cid m ms l t :
  id_of D = Some cid → str_in ID_SEPARATOR cid = false →
  cc_default_mode D = Some m → cc_modes D = Some ms → ms !! m = Some l →
  heap w !! l = Some t →
  let w' := exec (load_cruise D) w in
  result (load_cruise D) w = inr tt
  ∧ get_mode cid w' = (w', inr (Some m))
  ∧ live_table w' cid = Some t
  ∧ (∀ lg, current_config w' cid lg = t !! lg).
Proof.
  intros Hid Hsep Hdef Hms Hm Hl w'. subst w'. unfold exec, result.
  rewrite (load_cruise_accepted w D cid Hid Hsep), Hdef.
  rewrite (set_mode_defined (installed w cid D) cid m l t).
  - cbn -[insert].
    assert (live_table (mode_set (installed w cid D) cid m t) cid = Some t) as Hlive.
    { unfold live_table. cbn -[insert]. rewrite lookup_insert_eq. cbn -[insert].
      apply lookup_insert_eq. }
    repeat split.
    + unfold get_mode, bind, get_self, ret. cbn -[insert].
      rewrite lookup_insert_eq. reflexivity.
    + exact Hlive.
    + intros lg. unfold current_config. rewrite Hlive. reflexivity.
  - apply mode_dict_Some. exists D, ms. cbn -[insert].
    rewrite lookup_insert_eq. eauto.
  - exact Hl.
Qed.

Lemma load_cruise_enters_default_mode_witness :
  get_mode "NBP1700" Scenario.loaded = (Scenario.loaded, inr (Some "off"))
  ∧ current_config Scenario.loaded "NBP1700" "gyr1" = Some "off".
Proof.
  destruct (load_cruise_enters_default_mode Scenario.start Scenario.NBP1700
              "NBP1700" "off" More.modes 1%positive Scenario.off_mode)
    as (_ & Hmode & _ & Hcur).
  - reflexivity.
  - reflexivity.
  - reflexivity.
  - reflexivity.
  - vm_compute; reflexivity.
  - vm_compute; reflexivity.
  - split; [exact Hmode |].
    transitivity (Scenario.off_mode !! "gyr1"); [apply Hcur | vm_compute; reflexivity].
Defined.





(** X7.  A definition without an id is never loaded: when the key
    [cruise] or its key [id] is absent, [load_cruise] raises a
    [NameError] for the name cruise_configs, from the line that would
    invent an id, and the world is unchanged. *)
Theorem load_cruise_without_id (w : world) D :
  id_of D = None →
  load_cruise D w = (w, inl (NameError "cruise_configs")).
Proof.
  intros Hid. unfold id_of in Hid. unfold load_cruise, bind at 1.
  rewrite Hid. reflexivity.
Qed.

Lemma load_cruise_without_id_witness :
  load_cruise More.anonymous Scenario.start
  = (Scenario.start, inl (NameError "cruise_configs")).
Proof. apply load_cruise_without_id. reflexivity. Defined.

(** ** Composition of the mode and configuration calls *)

(** What [set_mode] leaves to read: the mode's mapping for its cruise,
    and for the other cruises what was there. *)
Lemma current_config_mode_set (w : world) c m t c' lg :
  wf w →
  current_config (mode_set w c m t) c' lg
  = if decide (c' = c) then t !! lg else current_config w c' lg.
Proof.
  intros Hwf. rewrite !current_config_unfold. unfold mode_set. cbn -[insert].
  pose proof (fresh_loc_unused (heap w)) as Hfresh.
  destruct (decide (c' = c)) as [-> | Hne].
  - rewrite !lookup_insert_eq. reflexivity.
  - rewrite lookup_insert_ne by (apply not_eq_sym, Hne).
    destruct (logger_config (self w) !! c') as [l' |] eqn:Hlc'; [| reflexivity].
    rewrite lookup_insert_ne; [reflexivity |].
    intros Heq. destruct (wf_live_alloc w Hwf l' (ex_intro _ c' Hlc')) as [t' Ht'].
    rewrite <- Heq in Ht'. congruence.
Qed.

(** X8.  [set_mode] is idempotent in what can be read: in a
    well-formed world, when a first [set_mode c m] succeeds, a second
    one succeeds too and leaves the same Current Mode for every
    cruise, the same Current Configuration for every logger of every
    cruise, and the same definitions, callbacks and status log.  (The
    live table of [c] is a new object each time.) *)
Theorem set_mode_idempotent (w : world) c m l t :
  wf w → mode_dict w c m = Some l → heap w !! l = Some t →
  let w1 := exec (set_mode c m) w in
  let w2 := exec (set_mode c m) w1 in
  result (set_mode c m) w1 = inr tt
  ∧ mode (self w2) = mode (self w1)
  ∧ (∀ c' lg, current_config w2 c' lg = current_config w1 c' lg)
  ∧ cruise_configs (self w2) = cruise_configs (self w1)
  ∧ callbacks (self w2) = callbacks (self w1)
  ∧ status (self w2) = status (self w1).
Proof.
  intros Hwf Hd Hl w1 w2. subst w1 w2. unfold exec, result.
  rewrite (set_mode_defined w c m l t Hd Hl). cbn [fst].
  pose proof (fresh_loc_unused (heap w)) as Hfresh.
  assert (wf (mode_set w c m t)) as Hwf1.
  { apply (wf_new_live_table w c t); [exact Hwf | reflexivity..]. }
  assert (mode_dict (mode_set w c m t) c m = Some l) as Hd1 by exact Hd.
  assert (heap (mode_set w c m t) !! l = Some t) as Hl1.
  { cbn -[insert]. rewrite lookup_insert_ne; [exact Hl |].
    intros Heq. rewrite Heq in Hfresh. congruence. }
  rewrite (set_mode_defined (mode_set w c m t) c m l t Hd1 Hl1). cbn [fst snd].
  split; [reflexivity |]. split.
  { cbn -[insert]. apply insert_insert_eq. }
  split; [| repeat split].
  intros c' lg. rewrite (current_config_mode_set _ c m t c' lg Hwf1).
  destruct (decide (c' = c)) as [-> | Hne]; [| reflexivity].
  rewrite (current_config_mode_set w c m t c lg Hwf).
  destruct (decide (c = c)); [reflexivity | contradiction].
Qed.

Lemma set_mode_idempotent_witness :
  result (set_mode "NBP1700" "port")
    (exec (set_mode "NBP1700" "port") Scenario.loaded) = inr tt
  ∧ current_config
      (exec (set_mode "NBP1700" "port")
         (exec (set_mode "NBP1700" "port") Scenario.loaded)) "NBP1700" "gyr1"
    = Some "net".
Proof.
  destruct (set_mode_idempotent Scenario.loaded "NBP1700" "port" 2%positive
              Scenario.port_mode) as (Hrun & _ & Hcur & _).
  - apply wf_check_sound. vm_compute; reflexivity.
  - vm_compute; reflexivity.
  - vm_compute; reflexivity.
  - split; [exact Hrun |]. rewrite Hcur. vm_compute; reflexivity.
Defined.

(** ** Observers *)



(** ** The scopes of the table of callbacks *)



Lemma scopes_check_sound (w : world) : scopes_check w = true → scopes_nonempty w.
Proof.
  unfold scopes_check. intros H%bool_decide_eq_true scope rs Hrs.
  exact (H scope rs Hrs).
Qed.

(** ** The read accessors of a definition *)

(** X11.  [get_modes] lists the names of the modes of a loaded cruise,
    each once, and returns the empty list for a definition whose mode
    table is empty; for a definition without the key [modes] it raises
    a [TypeError], from [list(None)], and for an unknown cruise the
    [ValueError] of [get_cruise_config].  The world is unchanged. *)
Theorem get_modes_lists_modes (w : world) (c : string) :
  (∀ D ms, cruise_configs (self w) !! c = Some D → cc_modes D = Some ms →
     ∃ names, get_modes c w = (w, inr names) ∧ NoDup names
              ∧ (∀ m, m ∈ names ↔ is_Some (ms !! m))
              ∧ (ms = ∅ → names = []))
  ∧ (∀ D, cruise_configs (self w) !! c = Some D → truthy_config D = true →
       cc_modes D = None →
       get_modes c w = (w, inl (TypeError "'NoneType' object is not iterable")))
  ∧ (cruise_configs (self w) !! c = None →
     get_modes c w = (w, inl (no_such_cruise c))).
Proof.
  split; [| split].
  - intros D ms Hc Hms. exists ((map_to_list ms).*1).
    split; [| split; [| split]].
    + unfold get_modes, bind.
      rewrite (get_cruise_config_loaded w c D Hc (truthy_config_modes D ms Hms)).
      rewrite Hms. reflexivity.
    + apply NoDup_fst_map_to_list.
    + intros m. rewrite list_elem_of_fmap. split.
      * intros ([m' l] & -> & Hin). apply elem_of_map_to_list in Hin. eauto.
      * intros [l Hl]. exists (m, l). split; [reflexivity |].
        apply elem_of_map_to_list. exact Hl.
    + intros ->. rewrite map_to_list_empty. reflexivity.
  - intros D Hc Ht Hms. unfold get_modes, bind.
    rewrite (get_cruise_config_loaded w c D Hc Ht), Hms. reflexivity.
  - intros Hc. unfold get_modes, bind.
    rewrite (get_cruise_config_unknown w c Hc). reflexivity.
Qed.

Lemma get_modes_lists_modes_witness :
  ∃ names, get_modes "NBP1700" Scenario.loaded = (Scenario.loaded, inr names)
           ∧ "port" ∈ names.
Proof.
  destruct (proj1 (get_modes_lists_modes Scenario.loaded "NBP1700")
              Scenario.NBP1700 More.modes) as (names & Hrun & _ & Hin & _).
  - vm_compute; reflexivity.
  - reflexivity.
  - exists names. split; [exact Hrun |]. apply Hin. exists 2%positive.
    vm_compute; reflexivity.
Defined.

(** X12.  [get_loggers] returns the logger table of a loaded cruise
    when the table is not empty, and raises a [ValueError] when the
    definition has no key [loggers] or an empty table (a cruise without
    loggers cannot be listed); the world is unchanged. *)
Theorem get_loggers_nonempty_or_error (w : world) (c : string) D :
  cruise_configs (self w) !! c = Some D → truthy_config D = true →
  (∀ ls, cc_loggers D = Some ls → ls ≠ ∅ → get_loggers c w = (w, inr ls))
  ∧ (cc_loggers D = None ∨ cc_loggers D = Some ∅ →
     get_loggers c w = (w, inl (no_loggers c))).
Proof.
  intros Hc Ht. split.
  - intros ls HD Hne. unfold get_loggers, bind.
    rewrite (get_cruise_config_loaded w c D Hc Ht). unfold get_or_raise.
    rewrite HD, (truthy_map_nonempty ls Hne). reflexivity.
  - intros HD. unfold get_loggers, bind.
    rewrite (get_cruise_config_loaded w c D Hc Ht). unfold get_or_raise.
    destruct HD as [-> | ->]; [reflexivity |].
    rewrite truthy_map_empty. reflexivity.
Qed.

Lemma get_loggers_nonempty_or_error_witness :
  get_loggers "NBP1700" Scenario.loaded = (Scenario.loaded, inr More.loggers).
Proof.
  apply (proj1 (get_loggers_nonempty_or_error Scenario.loaded "NBP1700"
                  Scenario.NBP1700 eq_refl eq_refl)).
  - reflexivity.
  - apply (map_nonempty_lookup _ "knud"
             {| ls_host := None; ls_configs := Some ["off"; "net"] |}).
    vm_compute; reflexivity.
Defined.

(** ** Loading and deleting *)

(** What [load_cruise] leaves of the store, whatever its outcome: the
    store before, or the definition stored and possibly the mode and
    the live table of its cruise rebound. *)
Lemma load_cruise_outcome (w : world) (D : cruise_config) :
  exec (load_cruise D) w = w
  ∨ ∃ cid, id_of D = Some cid ∧ str_in ID_SEPARATOR cid = false
      ∧ (exec (load_cruise D) w = installed w cid D
         ∨ (∃ m, exec (load_cruise D) w
                 = {| heap := heap w;
                      self := set_mode_field <[cid := m]>
                                (self (installed w cid D));
                      trace := trace w |})
         ∨ (∃ m t, exec (load_cruise D) w = mode_set (installed w cid D) cid m t)).
Proof.
  unfold exec. destruct (id_of D) as [cid |] eqn:Hid.
  - destruct (str_in ID_SEPARATOR cid) eqn:Hsep.
    + left. rewrite (load_cruise_separator w D cid Hid Hsep). reflexivity.
    + right. exists cid. split; [reflexivity |]. split; [exact Hsep |].
      rewrite (load_cruise_accepted w D cid Hid Hsep).
      destruct (cc_default_mode D) as [m |]; [| left; reflexivity].
      destruct (set_mode_outcome (installed w cid D) cid m)
        as [[args ->] | [(l & _ & _ & ->) | (l & t & _ & _ & ->)]].
      * left. reflexivity.
      * right. left. exists m. reflexivity.
      * right. right. exists m, t. reflexivity.
  - left. unfold load_cruise, bind at 1. unfold id_of in Hid. rewrite Hid.
    reflexivity.
Qed.

(** X13.  Deleting undoes loading: when nothing is recorded under the
    id of a definition (no definition, mode, live table or observer),
    [load_cruise] followed by [delete_cruise] of that id leaves the
    store object as it was before the load, whether the load returned
    or raised on its default mode; the delete returns.  (The live table
    that the load made stays on the heap, unreferenced.) *)
Theorem delete_cruise_undoes_load_cruise (w : world) D cid :
  id_of D = Some cid →
  cruise_configs (self w) !! cid = None → mode (self w) !! cid = None →
  logger_config (self w) !! cid = None →
  callbacks (self w) !! Some cid = None →
  let w' := exec (delete_cruise cid) (exec (load_cruise D) w) in
  self w' = self w
  ∧ result (delete_cruise cid) (exec (load_cruise D) w) = inr tt
  ∧ (∀ l, is_Some (heap w !! l) → heap w' !! l = heap w !! l).
Proof.
  intros Hid Hcc Hmd Hlc Hcb w'. subst w'.
  pose proof (fresh_loc_unused (heap w)) as Hfresh.
  assert (∀ {V : Type} (m : gmap string V) v,
            m !! cid = None → delete cid (<[cid := v]> m) = m) as Hdel.
  { intros V m v Hm. rewrite delete_insert_eq. apply delete_id, Hm. }
  assert (∀ x, exec (delete_cruise cid) x = deleted x cid
               ∧ result (delete_cruise cid) x = inr tt) as Hdelete.
  { intros x. unfold exec, result. rewrite delete_cruise_eq. split; reflexivity. }
  destruct (Hdelete (exec (load_cruise D) w)) as [-> ->].
  split; [| split; [reflexivity |]].
  - destruct (load_cruise_outcome w D)
      as [-> | (cid' & Hid' & _ & [-> | [[m ->] | (m & t & ->)]])];
      try (rewrite Hid in Hid'; injection Hid' as <-);
      destruct w as [h [cc md lc cb st] tr];
      cbn in Hcc, Hmd, Hlc, Hcb;
      unfold deleted, installed, mode_set; cbn -[insert delete];
      rewrite ?Hdel, ?(delete_id cc), ?(delete_id md), ?(delete_id lc),
        ?(delete_id cb) by assumption;
      reflexivity.
  - intros l [t' Hl]. unfold deleted. cbn -[insert].
    destruct (load_cruise_outcome w D)
      as [-> | (cid' & _ & _ & [-> | [[m ->] | (m & t & ->)]])];
      try reflexivity.
    cbn -[insert]. apply lookup_insert_ne. intros <-. congruence.
Qed.

Lemma delete_cruise_undoes_load_cruise_witness :
  self (exec (delete_cruise "NBP1700") Scenario.loaded) = self Scenario.start.
Proof.
  apply (delete_cruise_undoes_load_cruise Scenario.start Scenario.NBP1700
           "NBP1700" eq_refl eq_refl eq_refl eq_refl eq_refl).
Defined.

(** ** Invariants of reachable worlds *)










(** ** The views of [get_configs] *)

Lemma comprehension_pure (keys : list string) (f : string → M pyval)
    (g : string → pyval) (w : world) :
  (∀ k, k ∈ keys → f k w = (w, inr (g k))) →
  comprehension keys f w = (w, inr (list_to_map ((λ k, (k, g k)) <$> keys))).
Proof.
  induction keys as [| k keys IH]; intros Hf; [reflexivity |].
  cbn -[insert]. unfold bind at 1. rewrite (Hf k) by (apply elem_of_cons; eauto).
  unfold bind at 1. rewrite IH.
  - reflexivity.
  - intros k' Hk'. apply Hf, elem_of_cons. eauto.
Qed.

Lemma lookup_keys_to_map {V : Type} (keys : list string) (g : string → V) (k : string) :
  (list_to_map ((λ k, (k, g k)) <$> keys) : gmap string V) !! k
  = if decide (k ∈ keys) then Some (g k) else None.
Proof.
  induction keys as [| k' keys IH].
  - cbn. destruct (decide (k ∈ [])) as [Hin | _]; [inversion Hin | apply lookup_empty].
  - cbn -[insert]. destruct (decide (k' = k)) as [-> | Hne].
    + rewrite lookup_insert_eq.
      destruct (decide (k ∈ k :: keys)) as [_ | Hn]; [reflexivity |].
      exfalso. apply Hn, elem_of_cons. eauto.
    + rewrite lookup_insert_ne by exact Hne. rewrite IH.
      destruct (decide (k ∈ keys)) as [Hin | Hn],
               (decide (k ∈ k' :: keys)) as [Hin' | Hn']; try reflexivity.
      * exfalso. apply Hn', elem_of_cons. eauto.
      * exfalso. apply elem_of_cons in Hin' as [-> | Hin']; [apply Hne | apply Hn];
          eauto.
Qed.

Lemma elem_of_keys {V : Type} (m : gmap string V) (k : string) :
  k ∈ (map_to_list m).*1 ↔ is_Some (m !! k).
Proof.
  rewrite list_elem_of_fmap. split.
  - intros ([k' v] & -> & Hin). apply elem_of_map_to_list in Hin. eauto.
  - intros [v Hv]. exists (k, v). split; [reflexivity |].
    apply elem_of_map_to_list. exact Hv.
Qed.

(** X17.  The view of a cruise without a mode: for a loaded cruise
    with a non-empty id, non-empty logger and configuration tables and
    a non-empty live table, [get_configs] with the cruise and no mode
    (or the empty string for a mode) returns a new dictionary whose
    keys are the loggers of the definition, each with the
    specification of its Current Configuration, or [None] when the
    live table has no entry for the logger or names a configuration
    that the table lacks.  A logger that only the live table knows is
    not listed.  The world is unchanged. *)
Theorem get_configs_current_view (w : world) c m D ls cfgs t :
  c ≠ EmptyString → m = None ∨ m = Some EmptyString →
  cruise_configs (self w) !! c = Some D →
  cc_loggers D = Some ls → ls ≠ ∅ →
  cc_configs D = Some cfgs → cfgs ≠ ∅ →
  live_table w c = Some t → t ≠ ∅ →
  ∃ d, get_configs (Some c) m w = (w, inr (Fresh d))
       ∧ (∀ lg, is_Some (ls !! lg) →
                d !! lg = Some (pyval_of (t !! lg ≫= λ k, cfgs !! k)))
       ∧ (∀ lg, ls !! lg = None → d !! lg = None).
Proof.
  intros Hc Hm Hcc HD Hls Hcf Hcfgs Hlive Ht.
  set (g := λ lg : string, pyval_of (t !! lg ≫= λ k, cfgs !! k)).
  exists (list_to_map ((λ k, (k, g k)) <$> (map_to_list ls).*1)).
  split; [| split].
  - unfold get_configs. change recursion_limit with (S 999).
    cbn [get_configs_at from_option default id].
    rewrite (truthy_str_nonempty c Hc).
    assert (from_option truthy_str false m = false) as ->
      by (destruct Hm as [-> | ->]; reflexivity).
    unfold bind at 1.
    assert (truthy_config D = true) as HtD by exact (truthy_config_loggers D ls HD).
    assert (get_loggers c w = (w, inr ls)) as ->.
    { unfold get_loggers, bind. rewrite (get_cruise_config_loaded w c D Hcc HtD).
      unfold get_or_raise. rewrite HD, (truthy_map_nonempty ls Hls). reflexivity. }
    unfold bind at 1.
    rewrite (comprehension_pure _ _ g); [reflexivity |].
    intros lg _. unfold bind.
    rewrite (get_config_current w c lg D cfgs Hcc Hcf Hcfgs).
    unfold live_table in Hlive.
    destruct (logger_config (self w) !! c) as [l |]; [| discriminate].
    cbn in Hlive. rewrite Hlive, (truthy_map_nonempty t Ht). reflexivity.
  - intros lg Hlg. rewrite lookup_keys_to_map.
    destruct (decide (lg ∈ (map_to_list ls).*1)) as [_ | Hn]; [reflexivity |].
    exfalso. apply Hn, elem_of_keys, Hlg.
  - intros lg Hlg. rewrite lookup_keys_to_map.
    destruct (decide (lg ∈ (map_to_list ls).*1)) as [Hin | _]; [| reflexivity].
    apply elem_of_keys in Hin as [v Hv]. congruence.
Qed.

Lemma get_configs_current_view_witness :
  ∃ d, get_configs (Some "NBP1700") None Examples.overridden
         = (Examples.overridden, inr (Fresh d))
       ∧ d !! "gyr1" = Some (VJson (JDict [("name", JStr "net")]))
       ∧ d !! "winch" = None.
Proof.
  destruct (get_configs_current_view Examples.overridden "NBP1700" None
              Scenario.NBP1700 More.loggers More.configs Scenario.port_mode)
    as (d & Hrun & Hin & Hout).
  - discriminate.
  - left. reflexivity.
  - vm_compute; reflexivity.
  - reflexivity.
  - apply (map_nonempty_lookup _ "knud"
             {| ls_host := None; ls_configs := Some ["off"; "net"] |}).
    vm_compute; reflexivity.
  - reflexivity.
  - apply (map_nonempty_lookup _ "off" (JDict [("name", JStr "off")])).
    vm_compute; reflexivity.
  - vm_compute; reflexivity.
  - apply (map_nonempty_lookup _ "knud" "off"). vm_compute; reflexivity.
  - exists d. split; [exact Hrun |]. split.
    + rewrite Hin; [vm_compute; reflexivity |].
      exists {| ls_host := None; ls_configs := Some ["off"; "net"] |}.
      vm_compute; reflexivity.
    + apply Hout. vm_compute; reflexivity.
Defined.

(** ** The queries only read *)

Lemma reads_only_ret {A : Type} (a : A) : reads_only (ret a).
Proof. intros w. reflexivity. Qed.

Lemma reads_only_raise {A : Type} (e : exn) : reads_only (raise (A := A) e).
Proof. intros w. reflexivity. Qed.

Lemma reads_only_bind {A B : Type} (p : M A) (k : A → M B) :
  reads_only p → (∀ a, reads_only (k a)) → reads_only (bind p k).
Proof.
  intros Hp Hk w. unfold bind. specialize (Hp w).
  destruct (p w) as [w' [e | a]]; cbn in Hp; subst w'; [reflexivity | apply Hk].
Qed.

Lemma reads_only_get_self : reads_only get_self.
Proof. intros w. reflexivity. Qed.

Lemma reads_only_deref (l : loc) : reads_only (deref l).
Proof. intros w. unfold deref. destruct (heap w !! l); reflexivity. Qed.

Lemma reads_only_raise_ValueError {A : Type} fmt args :
  reads_only (raise_ValueError (A := A) fmt args).
Proof.
  unfold raise_ValueError. destruct (percent fmt args); apply reads_only_raise.
Qed.

Lemma reads_only_unbound {A : Type} name : reads_only (unbound (A := A) name).
Proof. apply reads_only_raise. Qed.

Lemma reads_only_get_or_raise {A : Type} (x : option A) test (p : M A) :
  reads_only p → reads_only (get_or_raise x test p).
Proof.
  intros Hp. unfold get_or_raise. destruct x as [a |]; [| exact Hp].
  destruct (test a); [apply reads_only_ret | exact Hp].
Qed.

Lemma reads_only_comprehension keys (f : string → M pyval) :
  (∀ k, reads_only (f k)) → reads_only (comprehension keys f).
Proof.
  intros Hf. induction keys as [| k keys IH]; [apply reads_only_ret |].
  cbn [comprehension]. apply reads_only_bind; [apply Hf |]. intros v.
  apply reads_only_bind; [exact IH |]. intros rest. apply reads_only_ret.
Qed.

Lemma reads_only_for_fold {A S : Type} (l : list A) (s : S) (body : A → S → M S) :
  (∀ x s, reads_only (body x s)) → reads_only (for_fold l s body).
Proof.
  intros Hb. revert s. induction l as [| x l IH]; intros s; [apply reads_only_ret |].
  cbn [for_fold]. apply reads_only_bind; [apply Hb |]. intros s'. apply IH.
Qed.

Create HintDb reads discriminated.

#[local] Hint Resolve reads_only_ret reads_only_raise reads_only_get_self
  reads_only_deref reads_only_raise_ValueError reads_only_unbound
  reads_only_get_or_raise : reads.

Ltac reads :=
  repeat first
    [ apply reads_only_bind; [| intros ?]
    | apply reads_only_get_or_raise
    | solve [auto with reads]
    | match goal with
      | |- reads_only (match ?x with _ => _ end) => destruct x
      | |- reads_only (if ?b then _ else _) => destruct b
      end ].

Lemma reads_only_get_cruise_config c : reads_only (get_cruise_config c).
Proof. unfold get_cruise_config. reads. Qed.

Lemma reads_only_get_loggers c : reads_only (get_loggers c).
Proof.
  unfold get_loggers. apply reads_only_bind; [apply reads_only_get_cruise_config |].
  intros D. reads.
Qed.

Lemma reads_only_get_config c lg m : reads_only (get_config c lg m).
Proof.
  unfold get_config. apply reads_only_bind; [apply reads_only_get_cruise_config |].
  intros D. reads.
Qed.

Lemma reads_only_get_configs_at d cid m : reads_only (get_configs_at d cid m).
Proof.
  revert cid m. induction d as [| d IH]; intros cid m; [apply reads_only_raise |].
  cbn [get_configs_at].
  destruct (from_option truthy_str false cid).
  - destruct (from_option truthy_str false m).
    + apply reads_only_bind; [apply reads_only_get_cruise_config |]. intros D. reads.
    + apply reads_only_bind; [apply reads_only_get_loggers |]. intros ls.
      apply reads_only_bind; [| intros ?; apply reads_only_ret].
      apply reads_only_comprehension. intros lg.
      apply reads_only_bind; [apply reads_only_get_config |]. intros ?.
      apply reads_only_ret.
  - apply reads_only_bind; [unfold get_cruises; reads |]. intros cs.
    apply reads_only_bind; [| intros ?; apply reads_only_ret].
    apply reads_only_for_fold. intros c acc.
    apply reads_only_bind; [apply IH |]. intros r.
    apply reads_only_bind; [| intros ?; apply reads_only_ret].
    destruct r; reads.
Qed.

(** X18.  The queries only read: whether they return or raise,
    [get_cruises], [get_cruise_config], [get_mode], [get_modes],
    [get_default_mode], [get_loggers], [get_logger], [get_config] and
    [get_configs] end in the world they started from: the store, the
    dictionaries of the heap and the log are untouched, and no callback
    is called. *)
Theorem queries_only_read (c lg : string) (cid m : option string) :
  reads_only get_cruises ∧ reads_only (get_cruise_config c)
  ∧ reads_only (get_mode c) ∧ reads_only (get_modes c)
  ∧ reads_only (get_default_mode c) ∧ reads_only (get_loggers c)
  ∧ reads_only (get_logger c lg) ∧ reads_only (get_config c lg m)
  ∧ reads_only (get_configs cid m).
Proof.
  repeat apply conj.
  - unfold get_cruises. reads.
  - apply reads_only_get_cruise_config.
  - unfold get_mode. reads.
  - unfold get_modes. apply reads_only_bind; [apply reads_only_get_cruise_config |].
    intros D. reads.
  - unfold get_default_mode.
    apply reads_only_bind; [apply reads_only_get_cruise_config |]. intros D. reads.
  - apply reads_only_get_loggers.
  - unfold get_logger. apply reads_only_bind; [apply reads_only_get_loggers |].
    intros ls. reads.
  - apply reads_only_get_config.
  - apply reads_only_get_configs_at.
Qed.

(** ** [get_configs] without a cruise *)

Lemma get_cruises_keys (w : world) :
  get_cruises w = (w, inr (map_to_list (cruise_configs (self w))).*1).
Proof. reflexivity. Qed.

Lemma for_fold_raises {A S : Type} (l : list A) (body : A → S → M S)
    (x : A) (w : world) :
  x ∈ l → (∀ y s, reads_only (body y s)) →
  (∀ s, ∃ e, body x s w = (w, inl e)) →
  ∀ s, ∃ e, for_fold l s body w = (w, inl e).
Proof.
  intros Hin Hread Hx. induction l as [| y l IH]; intros s; [inversion Hin |].
  cbn [for_fold]. unfold bind at 1.
  pose proof (Hread y s w) as Hw.
  destruct (body y s w) as [w' [e | s']] eqn:Hy; cbn in Hw; subst w'.
  - exists e. reflexivity.
  - apply elem_of_cons in Hin as [-> | Hin].
    + destruct (Hx s) as [e He]. congruence.
    + apply IH, Hin.
Qed.

Lemma get_configs_at_empty_id (d : nat) (w : world) cid m D :
  cid = None ∨ cid = Some EmptyString →
  cruise_configs (self w) !! EmptyString = Some D →
  ∃ e, get_configs_at d cid m w = (w, inl e).
Proof.
  intros Hcid HD. revert cid Hcid. induction d as [| d IH]; intros cid Hcid.
  - exists RecursionError. reflexivity.
  - cbn [get_configs_at].
    assert (from_option truthy_str false cid = false) as ->
      by (destruct Hcid as [-> | ->]; reflexivity).
    unfold bind at 1. rewrite get_cruises_keys. unfold bind at 1.
    match goal with
    | |- context [for_fold ?l ?s0 ?body w] =>
        assert (∃ e, for_fold l s0 body w = (w, inl e)) as [e He];
          [apply (for_fold_raises l body EmptyString w) |]
    end.
    + apply elem_of_keys. eauto.
    + intros y s. apply reads_only_bind; [apply reads_only_get_configs_at |].
      intros r. apply reads_only_bind; [| intros ?; apply reads_only_ret].
      destruct r; reads.
    + intros s. destruct (IH (Some EmptyString)) as [e He]; [eauto |].
      exists e. unfold bind at 1. rewrite He. reflexivity.
    + exists e. rewrite He. reflexivity.
Qed.

Lemma get_configs_at_only_empty_id (d : nat) (w : world) cid m D :
  cid = None ∨ cid = Some EmptyString →
  cruise_configs (self w) = {[ EmptyString := D ]} →
  get_configs_at d cid m w = (w, inl RecursionError).
Proof.
  intros Hcid HD. revert cid Hcid. induction d as [| d IH]; intros cid Hcid.
  - reflexivity.
  - cbn [get_configs_at].
    assert (from_option truthy_str false cid = false) as ->
      by (destruct Hcid as [-> | ->]; reflexivity).
    unfold bind at 1. rewrite get_cruises_keys. unfold bind at 1.
    rewrite HD, map_to_list_singleton. cbn [fmap list_fmap fst for_fold].
    unfold bind at 1. unfold bind at 1. rewrite IH by eauto. reflexivity.
Qed.

(** X19.  A cruise whose id is the empty string breaks the view of all
    cruises.  [load_cruise] accepts the empty string as an id; once the
    store has a definition under it, [get_configs] without a cruise (or
    with the empty string for a cruise) never returns a dictionary,
    whatever the mode: the loop over the cruises calls [get_configs]
    with the empty id, which the truth test [if cruise_id:] takes for
    an omitted cruise, so the method recurses into itself until an
    exception ends it.  When the empty id is the only cruise, that
    exception is [RecursionError].  The world is unchanged. *)
Theorem get_configs_empty_id_never_returns (w : world) cid m D :
  cid = None ∨ cid = Some EmptyString →
  cruise_configs (self w) !! EmptyString = Some D →
  ∃ e, get_configs cid m w = (w, inl e)
       ∧ (cruise_configs (self w) = {[ EmptyString := D ]} → e = RecursionError).
Proof.
  intros Hcid HD. unfold get_configs.
  destruct (get_configs_at_empty_id recursion_limit w cid m D Hcid HD) as [e He].
  exists e. split; [exact He |]. intros Honly.
  rewrite (get_configs_at_only_empty_id recursion_limit w cid m D Hcid Honly) in He.
  congruence.
Qed.

Lemma get_configs_empty_id_never_returns_witness :
  cruise_configs (self Fleet.with_empty_id) !! EmptyString = Some Fleet.empty_id
  ∧ ∃ e, get_configs None None Fleet.with_empty_id = (Fleet.with_empty_id, inl e).
Proof.
  split; [vm_compute; reflexivity |].
  destruct (get_configs_empty_id_never_returns Fleet.with_empty_id None None
              Fleet.empty_id) as (e & He & _).
  - left. reflexivity.
  - vm_compute; reflexivity.
  - exists e. exact He.
Defined.

(** ** The keys of the view of all cruises *)

Lemma str_in_separator_head (a : ascii) (s : string) :
  str_in ID_SEPARATOR (String a s) = false →
  a ≠ ":"%char ∧ str_in ID_SEPARATOR s = false.
Proof.
  cbn [str_in]. intros [Hp Hs]%orb_false_iff. split; [| exact Hs].
  intros ->. unfold ID_SEPARATOR in Hp. cbn in Hp.
  destruct s; discriminate.
Qed.

Lemma munged_inj (c1 c2 l1 l2 : string) :
  str_in ID_SEPARATOR c1 = false → str_in ID_SEPARATOR c2 = false →
  munged c1 l1 = munged c2 l2 → c1 = c2 ∧ l1 = l2.
Proof.
  unfold munged, ID_SEPARATOR. revert c2.
  induction c1 as [| a c1 IH]; intros [| b c2] H1 H2 Heq;
    unfold String.append in Heq; fold String.append in Heq.
  - injection Heq as Heq. subst l2. eauto.
  - injection Heq as Hb _. apply str_in_separator_head in H2 as [Hb' _].
    congruence.
  - injection Heq as Ha _. apply str_in_separator_head in H1 as [Ha' _].
    congruence.
  - injection Heq as Hab Heq. subst b.
    apply str_in_separator_head in H1 as [_ H1].
    apply str_in_separator_head in H2 as [_ H2].
    destruct (IH c2 H1 H2 Heq) as [-> ->]. eauto.
Qed.

#[local] Instance munged_logger_inj (c : string) : Inj (=) (=) (munged c).
Proof.
  intros l1 l2 Heq. unfold munged in Heq.
  apply (String.app_inj c), (String.app_inj ID_SEPARATOR) in Heq. exact Heq.
Qed.

Lemma get_configs_at_depth (d d' : nat) c m :
  c ≠ EmptyString →
  get_configs_at (S d) (Some c) m = get_configs_at (S d') (Some c) m.
Proof.
  intros Hc. cbn [get_configs_at from_option default id].
  rewrite (truthy_str_nonempty c Hc). reflexivity.
Qed.

Lemma for_fold_invariant {A S : Type} (Inv : list A → S → Prop) (l : list A)
    (body : A → S → M S) (w : world) :
  (∀ seen x s, x ∈ l → Inv seen s →
               ∃ s', body x s w = (w, inr s') ∧ Inv (seen ++ [x]) s') →
  ∀ seen s, Inv seen s →
            ∃ s', for_fold l s body w = (w, inr s') ∧ Inv (seen ++ l) s'.
Proof.
  induction l as [| x l IH]; intros Hbody seen s Hinv.
  - exists s. rewrite app_nil_r. eauto.
  - destruct (Hbody seen x s) as (s1 & Hx & Hinv1);
      [apply elem_of_cons; eauto | exact Hinv |].
    destruct (IH (λ seen x s Hin, Hbody seen x s
                    (proj2 (elem_of_cons _ _ _) (or_intror Hin)))
                 (seen ++ [x]) s1 Hinv1) as (s2 & Hl & Hinv2).
    exists s2. cbn [for_fold]. unfold bind. rewrite Hx. split; [exact Hl |].
    rewrite <- app_assoc in Hinv2. exact Hinv2.
Qed.

Lemma get_configs_at_all_cruises (d : nat) (w : world) (m : option string)
    (view : string → gmap string pyval) :
  ids_ok w →
  (∀ c, is_Some (cruise_configs (self w) !! c) →
        ∃ r, get_configs_at d (Some c) m w = (w, inr r)
             ∧ items_of w r = Some (view c)) →
  ∃ v, get_configs_at (S d) None m w = (w, inr (Fresh v))
       ∧ (∀ c lg, is_Some (cruise_configs (self w) !! c) →
                  v !! munged c lg = view c !! lg)
       ∧ (∀ k, is_Some (v !! k) →
               ∃ c lg, is_Some (cruise_configs (self w) !! c)
                       ∧ k = munged c lg).
Proof.
  intros Hids Hviews.
  set (stored := λ c : string, is_Some (cruise_configs (self w) !! c)).
  set (Inv := λ (seen : list string) (v : gmap string pyval),
         (∀ c lg, stored c →
                  v !! munged c lg
                  = if decide (c ∈ seen) then view c !! lg else None)
         ∧ (∀ k, is_Some (v !! k) →
                 ∃ c lg, stored c ∧ k = munged c lg)).
  assert (∀ c, stored c → str_in ID_SEPARATOR c = false) as Hsep
    by (intros c [D HD]; exact (Hids c D HD)).
  cbn [get_configs_at from_option].
  unfold bind at 1. rewrite get_cruises_keys. unfold bind at 1.
  match goal with
  | |- context [for_fold ?l ?s0 ?body w] =>
      destruct (for_fold_invariant Inv l body w) with (seen := @nil string)
        (s := s0) as (v & Hv & Hinv1 & Hinv2)
  end.
  - intros seen c acc Hc%elem_of_keys [Hacc1 Hacc2].
    destruct (Hviews c Hc) as (r & Hr & Hitems).
    exists (kmap (munged c) (view c) ∪ acc). split.
    + unfold bind at 1. rewrite Hr.
      destruct r as [l | dr]; cbn in Hitems.
      * unfold bind, deref. destruct (heap w !! l) as [t |]; [| discriminate].
        cbn in Hitems. injection Hitems as Hitems. cbn. rewrite Hitems.
        reflexivity.
      * injection Hitems as ->. reflexivity.
    + split.
      * intros c' lg Hc'.
        destruct (decide (c' = c)) as [-> | Hcc].
        -- rewrite decide_True
             by (apply elem_of_app; right; apply list_elem_of_singleton;
                 reflexivity).
           destruct (view c !! lg) as [x |] eqn:Hx.
           ++ apply lookup_union_Some_l. rewrite lookup_kmap by apply _. exact Hx.
           ++ rewrite lookup_union_r by (rewrite lookup_kmap by apply _; exact Hx).
              rewrite (Hacc1 c lg Hc'), Hx.
              destruct (decide (c ∈ seen)); reflexivity.
        -- rewrite lookup_union_r.
           ++ rewrite (Hacc1 c' lg Hc').
              destruct (decide (c' ∈ seen)) as [Hin | Hn].
              ** rewrite decide_True by (apply elem_of_app; eauto). reflexivity.
              ** rewrite decide_False; [reflexivity |].
                 intros [Hin | Hin%list_elem_of_singleton]%elem_of_app; eauto.
           ++ apply lookup_kmap_None; [apply _ |]. intros lg' Heq.
              exfalso. apply Hcc.
              exact (proj1 (munged_inj c' c lg lg' (Hsep c' Hc') (Hsep c Hc) Heq)).
      * intros k [x Hk]. apply lookup_union_Some_raw in Hk as [Hk | [_ Hk]].
        -- apply lookup_kmap_Some in Hk as (lg & -> & _); [| apply _].
           exists c, lg. eauto.
        -- apply Hacc2. eauto.
  - split.
    + intros c lg _. rewrite lookup_empty.
      rewrite decide_False; [reflexivity | intros Hin; inversion Hin].
    + intros k [x Hk]. rewrite lookup_empty in Hk. discriminate.
  - exists v. split; [rewrite Hv; reflexivity |]. split; [| exact Hinv2].
    intros c lg Hc. rewrite (Hinv1 c lg Hc). cbn [app].
    rewrite decide_True by (apply elem_of_keys; exact Hc). reflexivity.
Qed.

(** X20.  The view of all cruises keeps the loggers of different
    cruises apart.  In a world where no stored id contains the
    separator and none is the empty string, and where [get_configs]
    returns for each stored cruise, [get_configs] without a cruise
    returns a new dictionary that holds, under the key
    [cruise_id:logger], exactly what the view of the cruise holds under
    [logger], for every stored cruise and every logger name, and has no
    other key; two cruises never overwrite each other's entries.  The
    world is unchanged. *)
Theorem get_configs_all_cruises (w : world) (m : option string)
    (view : string → gmap string pyval) :
  ids_ok w →
  cruise_configs (self w) !! EmptyString = None →
  (∀ c, is_Some (cruise_configs (self w) !! c) →
        ∃ r, get_configs (Some c) m w = (w, inr r)
             ∧ items_of w r = Some (view c)) →
  ∃ v, get_configs None m w = (w, inr (Fresh v))
       ∧ (∀ c lg, is_Some (cruise_configs (self w) !! c) →
                  v !! munged c lg = view c !! lg)
       ∧ (∀ k, is_Some (v !! k) →
               ∃ c lg, is_Some (cruise_configs (self w) !! c)
                       ∧ k = munged c lg).
Proof.
  intros Hids Hempty Hviews. unfold get_configs.
  change recursion_limit with (S 999).
  apply get_configs_at_all_cruises; [exact Hids |].
  intros c Hc. destruct (Hviews c Hc) as (r & Hr & Hitems).
  assert (c ≠ EmptyString) as Hne.
  { intros ->. destruct Hc as [D HD]. congruence. }
  exists r. split; [| exact Hitems].
  rewrite (get_configs_at_depth 998 999 c m Hne). exact Hr.
Qed.

Lemma get_configs_all_cruises_witness :
  ∃ d, get_configs None None Fleet.two_cruises
         = (Fleet.two_cruises, inr (Fresh d))
       ∧ d !! "NBP1700:gyr1" = Some (VJson (JDict [("name", JStr "off")]))
       ∧ d !! "LMG1800:gyr1" = Some (VJson (JDict [("name", JStr "net")])).
Proof.
  set (view_of := λ c : string,
         match (get_configs (Some c) None Fleet.two_cruises).2 with
         | inr (Fresh d) => d
         | _ => ∅
         end).
  destruct (get_configs_all_cruises Fleet.two_cruises None view_of)
    as (d & Hrun & Hin & _).
  - intros c D HD.
    assert (c ∈ (map_to_list (cruise_configs (self Fleet.two_cruises))).*1) as Hc
      by (apply elem_of_keys; eauto).
    vm_compute in Hc.
    apply elem_of_cons in Hc as [-> | Hc]; [vm_compute; reflexivity |].
    apply list_elem_of_singleton in Hc as ->. vm_compute; reflexivity.
  - vm_compute; reflexivity.
  - intros c Hc%elem_of_keys. exists (Fresh (view_of c)).
    split; [| reflexivity]. vm_compute in Hc.
    apply elem_of_cons in Hc as [-> | Hc]; [vm_compute; reflexivity |].
    apply list_elem_of_singleton in Hc as ->. vm_compute; reflexivity.
  - exists d. split; [exact Hrun |]. split.
    + change "NBP1700:gyr1" with (munged "NBP1700" "gyr1"). rewrite Hin.
      * vm_compute; reflexivity.
      * exists Scenario.NBP1700. vm_compute; reflexivity.
    + change "LMG1800:gyr1" with (munged "LMG1800" "gyr1"). rewrite Hin.
      * vm_compute; reflexivity.
      * exists Fleet.LMG1800. vm_compute; reflexivity.
Defined.

(** * The network writer *)

Lemma state_eta (s : NetworkWriter.state) :
  {| NetworkWriter.sent := NetworkWriter.sent s;
     NetworkWriter.log := NetworkWriter.log s |} = s.
Proof. destruct s; reflexivity. Qed.

Lemma encode_error (record : NetworkWriter.text) e :
  NetworkWriter.encode record = inl e →
  ∃ c, e = NetworkWriter.UnicodeEncodeError c.
Proof.
  induction record as [| c record IH]; cbn; [discriminate |].
  unfold NetworkWriter.utf8.
  repeat match goal with
         | |- context [if ?x then _ else _] => destruct x
         end;
    try (destruct (NetworkWriter.encode record); [| discriminate];
         intros [= <-]; apply IH; reflexivity).
  intros [= <-]. eauto.
Qed.

(** The loop, step by step. *)
Lemma while_loop_stop fuel self record rec_len k b s :
  (NetworkWriter.num_retry self ≤ k ∨ rec_len ≤ b)%Z →
  NetworkWriter.while_loop (S fuel) self record rec_len k b s
  = (s, inr (k, b)).
Proof.
  intros Hstop. cbn [NetworkWriter.while_loop].
  destruct (Z.ltb_spec k (NetworkWriter.num_retry self)),
           (Z.ltb_spec b rec_len); cbn; try reflexivity.
  lia.
Qed.

Lemma while_loop_step fuel self record rec_len k b s :
  (k < NetworkWriter.num_retry self)%Z → (b < rec_len)%Z →
  NetworkWriter.while_loop (S fuel) self record rec_len k b s
  = match NetworkWriter.encode record with
    | inl e => (s, inl e)
    | inr payload =>
        let s' := {| NetworkWriter.sent := NetworkWriter.sent s ++ [payload];
                     NetworkWriter.log := NetworkWriter.log s |} in
        match NetworkWriter.send self (length (NetworkWriter.sent s)) payload with
        | NetworkWriter.Failed errno => (s', inl (NetworkWriter.OSError errno))
        | NetworkWriter.Took n =>
            NetworkWriter.while_loop fuel self record rec_len (k + 1)%Z n s'
        end
    end.
Proof.
  intros Hk Hb. cbn [NetworkWriter.while_loop].
  destruct (Z.ltb_spec k (NetworkWriter.num_retry self)),
           (Z.ltb_spec b rec_len); try lia.
  reflexivity.
Qed.

Lemma while_loop_ends self record rec_len (m : nat) :
  ∀ fuel k b s,
    (Z.to_nat (NetworkWriter.num_retry self - k) ≤ m)%nat → (m < fuel)%nat →
    ∃ n res s',
      NetworkWriter.while_loop fuel self record rec_len k b s = (s', res)
      ∧ res ≠ inl NetworkWriter.OutOfFuel
      ∧ (n ≤ m)%nat
      ∧ NetworkWriter.sent s'
        = NetworkWriter.sent s ++ replicate n (NetworkWriter.payload_of record)
      ∧ NetworkWriter.log s' = NetworkWriter.log s
      ∧ ∀ fuel', (m < fuel')%nat →
                 NetworkWriter.while_loop fuel' self record rec_len k b s
                 = (s', res).
Proof.
  induction m as [| m IH]; intros fuel k b s Hm Hfuel.
  - destruct fuel as [| fuel]; [lia |].
    exists 0%nat, (inr (k, b)), s.
    assert (NetworkWriter.num_retry self ≤ k ∨ rec_len ≤ b)%Z as Hstop by lia.
    rewrite (while_loop_stop _ _ _ _ _ _ _ Hstop).
    split; [reflexivity |]. split; [discriminate |]. split; [lia |].
    split; [cbn; rewrite app_nil_r; reflexivity |]. split; [reflexivity |].
    intros [| fuel'] Hf; [lia |]. apply while_loop_stop, Hstop.
  - destruct fuel as [| fuel]; [lia |].
    destruct (decide (k < NetworkWriter.num_retry self ∧ b < rec_len)%Z)
      as [[Hk Hb] | Hstop].
    + rewrite (while_loop_step _ _ _ _ _ _ _ Hk Hb).
      unfold NetworkWriter.payload_of.
      destruct (NetworkWriter.encode record) as [e | payload] eqn:Henc.
      * exists 0%nat, (inl e), s.
        split; [reflexivity |]. split.
        { destruct (encode_error record e Henc) as [c ->]. discriminate. }
        split; [lia |].
        split; [cbn; rewrite app_nil_r; reflexivity |]. split; [reflexivity |].
        intros [| fuel'] Hf; [lia |].
        rewrite (while_loop_step _ _ _ _ _ _ _ Hk Hb), Henc. reflexivity.
      * cbn zeta.
        destruct (NetworkWriter.send self (length (NetworkWriter.sent s)) payload)
          as [r | errno] eqn:Hsend.
        -- destruct (IH fuel (k + 1)%Z r
                       {| NetworkWriter.sent := NetworkWriter.sent s ++ [payload];
                          NetworkWriter.log := NetworkWriter.log s |})
             as (n & res & s' & Hrun & Hres & Hn & Hsent & Hlog & Hany);
             [lia | lia |].
           exists (S n), res, s'. split; [exact Hrun |]. split; [exact Hres |].
           split; [lia |]. split.
           { rewrite Hsent. cbn [NetworkWriter.sent replicate].
             unfold NetworkWriter.payload_of. rewrite Henc, <- app_assoc.
             reflexivity. }
           split; [exact Hlog |].
           intros [| fuel'] Hf; [lia |].
           rewrite (while_loop_step _ _ _ _ _ _ _ Hk Hb), Henc. cbn zeta.
           rewrite Hsend. apply Hany. lia.
        -- exists 1%nat, (inl (NetworkWriter.OSError errno)),
             {| NetworkWriter.sent := NetworkWriter.sent s ++ [payload];
                NetworkWriter.log := NetworkWriter.log s |}.
           split; [reflexivity |]. split; [discriminate |]. split; [lia |].
           split; [reflexivity |]. split; [reflexivity |].
           intros [| fuel'] Hf; [lia |].
           rewrite (while_loop_step _ _ _ _ _ _ _ Hk Hb), Henc. cbn zeta.
           rewrite Hsend. reflexivity.
    + exists 0%nat, (inr (k, b)), s.
      assert (NetworkWriter.num_retry self ≤ k ∨ rec_len ≤ b)%Z as Hstop' by lia.
      rewrite (while_loop_stop _ _ _ _ _ _ _ Hstop').
      split; [reflexivity |]. split; [discriminate |]. split; [lia |].
      split; [cbn; rewrite app_nil_r; reflexivity |]. split; [reflexivity |].
      intros [| fuel'] Hf; [lia |]. apply while_loop_stop, Hstop'.
Qed.

(** X21.  [write] ends, and every try hands the whole record to the
    socket.  Whatever the socket answers, the loop of [write] takes at
    most [num_retry] iterations (none when [num_retry] is not
    positive): with any number of steps above that the model of the
    loop gives the same outcome, which is never that of a loop cut
    short.  The byte strings handed to [send] during the call are [n]
    copies of the whole encoded record, for some [n] that is at most
    [num_retry]: a try that follows a partial send starts again from
    the first byte.  Apart from that, the call adds at most its one
    debug record to the log. *)
Theorem write_ends (self : NetworkWriter.writer) (record : NetworkWriter.text)
    (s : NetworkWriter.state) (fuel : nat) :
  (Z.to_nat (NetworkWriter.num_retry self) < fuel)%nat →
  NetworkWriter.write_at fuel self record s = NetworkWriter.write self record s
  ∧ (NetworkWriter.write self record s).2 ≠ inl NetworkWriter.OutOfFuel
  ∧ ∃ n, (n ≤ Z.to_nat (NetworkWriter.num_retry self))%nat
         ∧ NetworkWriter.sent (NetworkWriter.write self record s).1
           = NetworkWriter.sent s
             ++ replicate n (NetworkWriter.payload_of record)
         ∧ ∃ records, NetworkWriter.log (NetworkWriter.write self record s).1
                      = NetworkWriter.log s ++ records
                      ∧ (length records ≤ 1)%nat.
Proof.
  intros Hfuel.
  destruct (while_loop_ends self record (Z.of_nat (length record))
              (Z.to_nat (NetworkWriter.num_retry self))
              (S (Z.to_nat (NetworkWriter.num_retry self))) 0%Z 0%Z s)
    as (n & res & s' & Hrun & Hres & Hn & Hsent & Hlog & Hany); [lia | lia |].
  unfold NetworkWriter.write, NetworkWriter.write_at.
  rewrite (Hany fuel Hfuel), Hrun.
  split; [reflexivity |].
  destruct res as [e | [tries bytes]]; cbn [fst snd].
  - split; [intros [= ->]; apply Hres; reflexivity |].
    exists n. split; [exact Hn |].
    split; [exact Hsent |]. exists []. rewrite app_nil_r. split; [exact Hlog | cbn; lia].
  - split; [discriminate |]. exists n. split; [exact Hn |].
    cbn [NetworkWriter.sent NetworkWriter.log]. split; [exact Hsent |].
    eexists. rewrite Hlog. split; [reflexivity | cbn; lia].
Qed.

Lemma write_ends_witness :
  NetworkWriter.write_at 10 NetworkExamples.slow_start NetworkExamples.hi
    NetworkExamples.empty
  = NetworkWriter.write NetworkExamples.slow_start NetworkExamples.hi
      NetworkExamples.empty
  ∧ NetworkWriter.sent
      (NetworkWriter.write NetworkExamples.slow_start NetworkExamples.hi
         NetworkExamples.empty).1
    = [[104%N; 105%N; 33%N]; [104%N; 105%N; 33%N]].
Proof.
  destruct (write_ends NetworkExamples.slow_start NetworkExamples.hi
              NetworkExamples.empty 10) as (Hsame & _ & _).
  - vm_compute. lia.
  - split; [exact Hsame | vm_compute; reflexivity].
Defined.

Lemma while_loop_schedule self record payload rec_len (n : nat) :
  ∀ (r : nat → Z) fuel k b s,
    (n < fuel)%nat →
    (0 < n → NetworkWriter.encode record = inr payload)%nat →
    (∀ i, (i < n)%nat →
          NetworkWriter.send self (length (NetworkWriter.sent s) + i) payload
          = NetworkWriter.Took (r i)) →
    (∀ i, (S i < n)%nat → (r i < rec_len)%Z) →
    ((0 < n)%nat →
     (b < rec_len)%Z ∧ (k + Z.of_nat n ≤ NetworkWriter.num_retry self)%Z) →
    (NetworkWriter.num_retry self ≤ k + Z.of_nat n
     ∨ rec_len ≤ match n with O => b | S n' => r n' end)%Z →
    NetworkWriter.while_loop fuel self record rec_len k b s
    = ({| NetworkWriter.sent := NetworkWriter.sent s ++ replicate n payload;
          NetworkWriter.log := NetworkWriter.log s |},
       inr ((k + Z.of_nat n)%Z, match n with O => b | S n' => r n' end)).
Proof.
  induction n as [| n IH]; intros r fuel k b s Hfuel Henc Hsend Hlow Hgo Hstop.
  - destruct fuel as [| fuel]; [lia |].
    rewrite while_loop_stop by lia.
    cbn [replicate]. rewrite app_nil_r, state_eta, Z.add_0_r. reflexivity.
  - destruct fuel as [| fuel]; [lia |].
    destruct Hgo as [Hb Hk]; [lia |].
    rewrite while_loop_step by lia. rewrite Henc by lia. cbn zeta.
    rewrite <- (Nat.add_0_r (length (NetworkWriter.sent s))).
    rewrite (Hsend 0%nat) by lia.
    rewrite (IH (λ i, r (S i)) fuel (k + 1)%Z (r 0%nat)).
    + cbn [NetworkWriter.sent NetworkWriter.log replicate].
      rewrite <- app_assoc. cbn [app].
      replace (k + 1 + Z.of_nat n)%Z with (k + Z.of_nat (S n))%Z by lia.
      destruct n; reflexivity.
    + lia.
    + intros _. apply Henc. lia.
    + intros i Hi. cbn [NetworkWriter.sent]. rewrite length_app. cbn [length].
      replace (length (NetworkWriter.sent s) + 1 + i)%nat
        with (length (NetworkWriter.sent s) + S i)%nat by lia.
      apply Hsend. lia.
    + intros i Hi. apply Hlow. lia.
    + intros Hn. split; [apply (Hlow 0%nat); lia | lia].
    + destruct Hstop as [Hstop | Hstop]; [left; lia | right].
      destruct n; exact Hstop.
Qed.

(** X22.  How many tries [write] makes.  Suppose the socket answers
    the first [n] calls of this [write] with the byte counts [r 0], ...,
    [r (n-1)], that [n] is at most [num_retry], that the record is not
    empty (and has an encoding) when [n] is positive, that each count
    but the last is below the length of the record, and that either
    [n] tries use up [num_retry] or the last count reaches the length
    of the record (for [n = 0]: [num_retry] is not positive or the
    record is empty).  Then [write] returns after exactly [n] calls of
    [send], each with the whole encoded record, and logs one debug
    record with the last count (0 when nothing was sent), the length of
    the record and [n].  In particular [num_retry] is the number of
    tries, the first one included, and [write] returns normally when
    they are used up with the record still not fully sent. *)
Theorem write_tries (self : NetworkWriter.writer) (record : NetworkWriter.text)
    (payload : list N) (s : NetworkWriter.state) (r : nat → Z) (n : nat) :
  let rec_len := Z.of_nat (length record) in
  let last := match n with O => 0%Z | S n' => r n' end in
  (n ≤ Z.to_nat (NetworkWriter.num_retry self))%nat →
  ((0 < n)%nat → record ≠ [] ∧ NetworkWriter.encode record = inr payload) →
  (∀ i, (i < n)%nat →
        NetworkWriter.send self (length (NetworkWriter.sent s) + i) payload
        = NetworkWriter.Took (r i)) →
  (∀ i, (S i < n)%nat → (r i < rec_len)%Z) →
  (n = Z.to_nat (NetworkWriter.num_retry self) ∨ (rec_len ≤ last)%Z) →
  NetworkWriter.write self record s
  = ({| NetworkWriter.sent := NetworkWriter.sent s ++ replicate n payload;
        NetworkWriter.log :=
          NetworkWriter.log s
          ++ [Logged DEBUG NetworkWriter.wrote
                [AInt last; AInt rec_len; AInt (Z.of_nat n)]] |},
     inr tt).
Proof.
  intros rec_len last Hn Hrec Hsend Hlow Hstop.
  unfold NetworkWriter.write, NetworkWriter.write_at. fold rec_len.
  rewrite (while_loop_schedule self record payload rec_len n r).
  - reflexivity.
  - lia.
  - intros H0. apply Hrec, H0.
  - exact Hsend.
  - exact Hlow.
  - intros H0. destruct (Hrec H0) as [Hne _]. split; [| lia].
    subst rec_len. destruct record; [congruence | cbn; lia].
  - destruct Hstop as [-> | Hlast]; [left; lia | right; exact Hlast].
Qed.

Lemma write_tries_witness :
  NetworkWriter.write NetworkExamples.one_byte NetworkExamples.hi
    NetworkExamples.empty
  = ({| NetworkWriter.sent := [[104%N; 105%N; 33%N]; [104%N; 105%N; 33%N]];
        NetworkWriter.log :=
          [Logged DEBUG NetworkWriter.wrote [AInt 1; AInt 3; AInt 2]] |},
     inr tt).
Proof.
  apply (write_tries NetworkExamples.one_byte NetworkExamples.hi
           [104%N; 105%N; 33%N] NetworkExamples.empty (λ _, 1%Z) 2).
  - vm_compute. lia.
  - intros _. split; [discriminate | reflexivity].
  - intros i _. reflexivity.
  - intros i _. vm_compute. reflexivity.
  - left. reflexivity.
Defined.

Lemma utf8_length (c : N) (b : list N) :
  NetworkWriter.utf8 c = inr b →
  (1 ≤ length b)%nat ∧ (length b = 1%nat ↔ (c < 128)%N).
Proof.
  unfold NetworkWriter.utf8.
  destruct (N.ltb_spec c 128) as [H1 | H1].
  { intros [= <-]. cbn. split; [lia |]. split; [intros _; exact H1 | reflexivity]. }
  destruct (c <? 2048)%N.
  { intros [= <-]. cbn. split; [lia |]. split; [discriminate | lia]. }
  destruct (c <? 65536)%N.
  - destruct ((55296 <=? c)%N && (c <=? 57343)%N); [discriminate |].
    intros [= <-]. cbn. split; [lia |]. split; [discriminate | lia].
  - intros [= <-]. cbn. split; [lia |]. split; [discriminate | lia].
Qed.

Lemma encode_length (record : NetworkWriter.text) (payload : list N) :
  NetworkWriter.encode record = inr payload →
  (length record ≤ length payload)%nat
  ∧ (length record = length payload ↔ Forall (λ c, (c < 128)%N) record).
Proof.
  revert payload. induction record as [| c record IH]; intros payload; cbn.
  - intros [= <-]. split; [reflexivity |]. split; [constructor | reflexivity].
  - destruct (NetworkWriter.utf8 c) as [e | b] eqn:Hc; [discriminate |].
    destruct (NetworkWriter.encode record) as [e | bs]; [discriminate |].
    intros [= <-]. destruct (utf8_length c b Hc) as [Hb1 Hb].
    destruct (IH bs eq_refl) as [Hle Hiff]. rewrite length_app.
    split; [lia |]. split.
    + intros Heq. constructor; [apply Hb; lia | apply Hiff; lia].
    + intros [Hc' Hrec]%Forall_cons. apply Hb in Hc'. apply Hiff in Hrec. lia.
Qed.

(** X23.  [write] compares bytes with code points.  The count that
    [send] returns is in bytes of the encoded record, and the loop
    compares it with [len(record)], the number of code points.  The
    encoded record is never shorter than the record, and exactly as
    long when every code point is below 128.  For a record with a
    larger code point, a first [send] that takes as many bytes as the
    record has code points, which is less than the whole, ends the
    loop: [write] returns after that one try and logs the count as
    [len/len] bytes. *)
Theorem write_compares_bytes_with_code_points (self : NetworkWriter.writer)
    (record : NetworkWriter.text) (payload : list N) (s : NetworkWriter.state) :
  NetworkWriter.encode record = inr payload →
  (length record ≤ length payload)%nat
  ∧ (length record = length payload ↔ Forall (λ c, (c < 128)%N) record)
  ∧ ((0 < NetworkWriter.num_retry self)%Z →
     ¬ Forall (λ c, (c < 128)%N) record →
     NetworkWriter.send self (length (NetworkWriter.sent s)) payload
     = NetworkWriter.Took (Z.of_nat (length record)) →
     (length record < length payload)%nat
     ∧ NetworkWriter.write self record s
       = ({| NetworkWriter.sent := NetworkWriter.sent s ++ [payload];
             NetworkWriter.log :=
               NetworkWriter.log s
               ++ [Logged DEBUG NetworkWriter.wrote
                     [AInt (Z.of_nat (length record));
                      AInt (Z.of_nat (length record)); AInt 1]] |},
          inr tt)).
Proof.
  intros Henc. destruct (encode_length record payload Henc) as [Hle Hiff].
  split; [exact Hle |]. split; [exact Hiff |].
  intros Hretry Hwide Hsend.
  assert (length record ≠ length payload) as Hne by (intros H; apply Hwide, Hiff, H).
  split; [lia |].
  assert (record ≠ []) as Hrec by (intros ->; apply Hwide; constructor).
  unfold NetworkWriter.write, NetworkWriter.write_at.
  rewrite (while_loop_schedule self record payload (Z.of_nat (length record)) 1
             (λ _, Z.of_nat (length record))).
  - reflexivity.
  - lia.
  - intros _. exact Henc.
  - intros i Hi. replace i with 0%nat by lia. rewrite Nat.add_0_r. exact Hsend.
  - intros i Hi. lia.
  - intros _. split; [| lia]. destruct record; [congruence | cbn; lia].
  - right. lia.
Qed.

Lemma write_compares_bytes_with_code_points_witness :
  NetworkWriter.write
    {| NetworkWriter.num_retry := 2;
       NetworkWriter.send := λ _ _, NetworkWriter.Took 1%Z |}
    NetworkExamples.e_acute NetworkExamples.empty
  = ({| NetworkWriter.sent := [[195%N; 169%N]];
        NetworkWriter.log :=
          [Logged DEBUG NetworkWriter.wrote [AInt 1; AInt 1; AInt 1]] |},
     inr tt).
Proof.
  destruct (write_compares_bytes_with_code_points
              {| NetworkWriter.num_retry := 2;
                 NetworkWriter.send := λ _ _, NetworkWriter.Took 1%Z |}
              NetworkExamples.e_acute [195%N; 169%N] NetworkExamples.empty)
    as (_ & _ & Hstop).
  - vm_compute; reflexivity.
  - destruct Hstop as [_ Hrun].
    + reflexivity.
    + intros H. apply Forall_cons in H as [H _]. vm_compute in H. discriminate.
    + reflexivity.
    + exact Hrun.
Defined.

Lemma while_loop_fails self record payload rec_len errno (n : nat) :
  ∀ (r : nat → Z) fuel k b s,
    (n < fuel)%nat →
    NetworkWriter.encode record = inr payload →
    (∀ i, (i < n)%nat →
          NetworkWriter.send self (length (NetworkWriter.sent s) + i) payload
          = NetworkWriter.Took (r i) ∧ (r i < rec_len)%Z) →
    NetworkWriter.send self (length (NetworkWriter.sent s) + n) payload
    = NetworkWriter.Failed errno →
    (b < rec_len)%Z → (k + Z.of_nat n < NetworkWriter.num_retry self)%Z →
    NetworkWriter.while_loop fuel self record rec_len k b s
    = ({| NetworkWriter.sent := NetworkWriter.sent s ++ replicate (S n) payload;
          NetworkWriter.log := NetworkWriter.log s |},
       inl (NetworkWriter.OSError errno)).
Proof.
  induction n as [| n IH]; intros r fuel k b s Hfuel Henc Hsend Hfail Hb Hk;
    (destruct fuel as [| fuel]; [lia |]);
    rewrite while_loop_step by lia; rewrite Henc; cbn zeta.
  - rewrite Nat.add_0_r in Hfail. rewrite Hfail. reflexivity.
  - destruct (Hsend 0%nat) as [H0 Hr0]; [lia |].
    rewrite Nat.add_0_r in H0. rewrite H0.
    rewrite (IH (λ i, r (S i)) fuel (k + 1)%Z (r 0%nat)).
    + cbn [NetworkWriter.sent NetworkWriter.log replicate].
      rewrite <- app_assoc. reflexivity.
    + lia.
    + exact Henc.
    + intros i Hi. cbn [NetworkWriter.sent]. rewrite length_app. cbn [length].
      replace (length (NetworkWriter.sent s) + 1 + i)%nat
        with (length (NetworkWriter.sent s) + S i)%nat by lia.
      apply Hsend. lia.
    + cbn [NetworkWriter.sent]. rewrite length_app. cbn [length].
      replace (length (NetworkWriter.sent s) + 1 + n)%nat
        with (length (NetworkWriter.sent s) + S n)%nat by lia.
      exact Hfail.
    + exact Hr0.
    + lia.
Qed.

(** X24.  [write] catches nothing.  For a record that is not empty
    and a positive [num_retry]: when the record has no encoding (it
    holds a lone surrogate), [write] raises the [UnicodeEncodeError]
    before anything is handed to the socket; and when the socket takes
    fewer bytes than the record has code points at each of the first
    [n] calls and fails at the next, with tries left, [write] raises
    that [OSError] after [n + 1] calls of [send].  In both cases no
    debug record is logged and no further try is made. *)
Theorem write_raises (self : NetworkWriter.writer) (record : NetworkWriter.text)
    (s : NetworkWriter.state) :
  record ≠ [] → (0 < NetworkWriter.num_retry self)%Z →
  (∀ e, NetworkWriter.encode record = inl e →
        NetworkWriter.write self record s = (s, inl e))
  ∧ (∀ payload (r : nat → Z) (n : nat) errno,
       NetworkWriter.encode record = inr payload →
       (n < Z.to_nat (NetworkWriter.num_retry self))%nat →
       (∀ i, (i < n)%nat →
             NetworkWriter.send self (length (NetworkWriter.sent s) + i) payload
             = NetworkWriter.Took (r i)
             ∧ (r i < Z.of_nat (length record))%Z) →
       NetworkWriter.send self (length (NetworkWriter.sent s) + n) payload
       = NetworkWriter.Failed errno →
       NetworkWriter.write self record s
       = ({| NetworkWriter.sent :=
               NetworkWriter.sent s ++ replicate (S n) payload;
             NetworkWriter.log := NetworkWriter.log s |},
          inl (NetworkWriter.OSError errno))).
Proof.
  intros Hrec Hretry.
  assert (0 < Z.of_nat (length record))%Z as Hlen
    by (destruct record; [congruence | cbn; lia]).
  split.
  - intros e Henc. unfold NetworkWriter.write, NetworkWriter.write_at.
    rewrite while_loop_step by lia. rewrite Henc. reflexivity.
  - intros payload r n errno Henc Hn Hsend Hfail.
    unfold NetworkWriter.write, NetworkWriter.write_at.
    rewrite (while_loop_fails self record payload (Z.of_nat (length record))
               errno n r) by (try assumption; lia).
    reflexivity.
Qed.

Lemma write_raises_witness :
  NetworkWriter.write NetworkExamples.broken_pipe NetworkExamples.hi
    NetworkExamples.empty
  = ({| NetworkWriter.sent := [[104%N; 105%N; 33%N]; [104%N; 105%N; 33%N]];
        NetworkWriter.log := [] |},
     inl (NetworkWriter.OSError 32))
  ∧ NetworkWriter.write NetworkExamples.broken_pipe [55296%N]
      NetworkExamples.empty
    = (NetworkExamples.empty,
       inl (NetworkWriter.UnicodeEncodeError 55296)).
Proof.
  split.
  - destruct (write_raises NetworkExamples.broken_pipe NetworkExamples.hi
                NetworkExamples.empty) as [_ Hfail];
      [discriminate | reflexivity |].
    apply (Hfail [104%N; 105%N; 33%N] (λ _, 1%Z) 1%nat 32%Z).
    + reflexivity.
    + vm_compute. lia.
    + intros i Hi. replace i with 0%nat by lia. split; reflexivity.
    + reflexivity.
  - destruct (write_raises NetworkExamples.broken_pipe [55296%N]
                NetworkExamples.empty) as [Henc _];
      [discriminate | reflexivity |].
    apply Henc. reflexivity.
Defined.

Lemma find_colons (s : string) :
  (NetworkWriter.find ":" s = -1)%Z ↔ NetworkWriter.colons s = 0%nat.
Proof.
  assert (∀ s, (-1 ≤ NetworkWriter.find ":" s)%Z) as Hlow.
  { intros s'. induction s' as [| a s' IH]; cbn; [lia |].
    destruct (Ascii.eqb a ":"); [lia |].
    destruct (Z.eqb_spec (NetworkWriter.find ":" s') (-1)); lia. }
  induction s as [| a s IH]; cbn; [split; reflexivity |].
  destruct (Ascii.eqb a ":"); [split; [lia | discriminate] |].
  cbn. specialize (Hlow s).
  destruct (Z.eqb_spec (NetworkWriter.find ":" s) (-1)) as [Heq | Hne].
  - split; [intros _; apply IH, Heq | reflexivity].
  - split; [lia |]. intros H0. apply IH in H0. contradiction.
Qed.

Lemma split_colons (s : string) :
  match NetworkWriter.colons s with
  | 0%nat => NetworkWriter.split ":" s = [s]
  | 1%nat => ∃ host port,
               s = host +:+ ":" +:+ port
               ∧ NetworkWriter.colons host = 0%nat
               ∧ NetworkWriter.colons port = 0%nat
               ∧ NetworkWriter.split ":" s = [host; port]
  | _ => ∃ a b c rest, NetworkWriter.split ":" s = a :: b :: c :: rest
  end.
Proof.
  induction s as [| a s IH]; cbn [NetworkWriter.colons NetworkWriter.split];
    [reflexivity |].
  destruct (Ascii.eqb_spec a ":") as [-> | Hne]; cbn [Nat.add].
  - destruct (NetworkWriter.colons s) as [| [| n]] eqn:Hs.
    + rewrite IH. exists EmptyString, s.
      split; [reflexivity |]. split; [reflexivity |]. split; [exact Hs |].
      reflexivity.
    + destruct IH as (host & port & _ & _ & _ & ->). eauto.
    + destruct IH as (x & y & z & rest & ->). eauto.
  - destruct (NetworkWriter.colons s) as [| [| n]].
    + rewrite IH. reflexivity.
    + destruct IH as (host & port & -> & Hh & Hp & ->).
      exists (String a host), port.
      split; [reflexivity |]. split; [| split; [exact Hp | reflexivity]].
      cbn. destruct (Ascii.eqb_spec a ":"); [contradiction | exact Hh].
    + destruct IH as (x & y & z & rest & ->). eauto.
Qed.

Lemma colons_app (s t : string) :
  NetworkWriter.colons (s +:+ t)
  = (NetworkWriter.colons s + NetworkWriter.colons t)%nat.
Proof.
  induction s as [| a s IH]; [reflexivity |].
  change (String a s +:+ t) with (String a (s +:+ t)).
  cbn [NetworkWriter.colons]. rewrite IH. lia.
Qed.

Lemma split_host_port (host port : string) :
  NetworkWriter.colons host = 0%nat → NetworkWriter.colons port = 0%nat →
  NetworkWriter.split ":" (host +:+ ":" +:+ port) = [host; port].
Proof.
  intros Hh Hp.
  pose proof (split_colons port) as Hport. rewrite Hp in Hport.
  induction host as [| a host IH].
  - change (EmptyString +:+ ":" +:+ port) with (String ":" port).
    cbn [NetworkWriter.split]. rewrite Ascii.eqb_refl, Hport. reflexivity.
  - change (String a host +:+ ":" +:+ port)
      with (String a (host +:+ ":" +:+ port)).
    cbn [NetworkWriter.split NetworkWriter.colons] in *.
    destruct (Ascii.eqb a ":"); [discriminate |].
    rewrite IH by exact Hh. reflexivity.
Qed.

Lemma init_calls (lib : NetworkWriter.library) host p :
  (if truthy_str host then
     NetworkWriter.calling lib (NetworkWriter.NewSocket NetworkWriter.TCP)
       (NetworkWriter.calling lib (NetworkWriter.Connect host p)
          (inr {| NetworkWriter.ep_protocol := NetworkWriter.TCP;
                  NetworkWriter.ep_host := host;
                  NetworkWriter.ep_port := p |}))
   else
     NetworkWriter.calling lib (NetworkWriter.NewSocket NetworkWriter.UDP)
       (NetworkWriter.calling lib (NetworkWriter.SetSockOpt "SO_BROADCAST")
          (NetworkWriter.calling lib (NetworkWriter.SetSockOpt "SO_REUSEPORT")
             (NetworkWriter.calling lib (NetworkWriter.Connect "<broadcast>" p)
                (inr {| NetworkWriter.ep_protocol := NetworkWriter.UDP;
                        NetworkWriter.ep_host := "<broadcast>";
                        NetworkWriter.ep_port := p |})))))
  = match NetworkWriter.first_failure lib
            (NetworkWriter.socket_calls (NetworkWriter.endpoint_of host p)) with
    | Some e => inl e
    | None => inr (NetworkWriter.endpoint_of host p)
    end.
Proof.
  unfold NetworkWriter.endpoint_of, NetworkWriter.socket_calls,
    NetworkWriter.calling.
  destruct (truthy_str host); cbn;
    repeat match goal with
           | |- context [lib ?c] => destruct (lib c); [reflexivity |]
           end; reflexivity.
Qed.

(** X25.  [NetworkWriter] takes an address with exactly one colon, and
    its constructor returns only with a connected socket.  Without a
    colon, [__init__] raises the [ValueError] of line 34, whose
    arguments are the message, with its [%s] left as it is, and the
    address; with more than one colon the unpacking of the split
    address raises a [ValueError] of its own; in both cases neither
    [int] nor the socket library is called.  An address with one colon
    is [host:port] with no colon in either part: [int] is applied to
    the port, and its error, if any, is raised before any call of the
    socket library; otherwise the library is called in order, for a
    TCP socket to the host and the port when the host is not empty,
    and for a UDP socket with [SO_BROADCAST] and [SO_REUSEPORT] to
    [<broadcast>] and the port when it is: [__init__] raises what the
    first failing call raises (an [OverflowError] from [connect] for
    port 70000, say) and returns when every call has returned. *)
Theorem init_wants_one_colon (int : string → exn + Z)
    (lib : NetworkWriter.library) (network : string) :
  (NetworkWriter.colons network = 0%nat →
   NetworkWriter.init int lib network
   = inl (NetworkWriter.Checked
            (ValueError [AStr NetworkWriter.bad_network; AStr network])))
  ∧ ((2 ≤ NetworkWriter.colons network)%nat →
     NetworkWriter.init int lib network
     = inl (NetworkWriter.Checked
              (ValueError [AStr "too many values to unpack (expected 2)"])))
  ∧ (NetworkWriter.colons network = 1%nat →
     ∃ host port, network = host +:+ ":" +:+ port
                  ∧ NetworkWriter.colons host = 0%nat
                  ∧ NetworkWriter.colons port = 0%nat)
  ∧ (∀ host port,
       network = host +:+ ":" +:+ port →
       NetworkWriter.colons host = 0%nat → NetworkWriter.colons port = 0%nat →
       NetworkWriter.init int lib network
       = match int port with
         | inl e => inl (NetworkWriter.Checked e)
         | inr p =>
             match NetworkWriter.first_failure lib
                     (NetworkWriter.socket_calls
                        (NetworkWriter.endpoint_of host p)) with
             | Some e => inl e
             | None => inr (NetworkWriter.endpoint_of host p)
             end
         end)
  ∧ (∀ ep, NetworkWriter.init int lib network = inr ep →
           NetworkWriter.colons network = 1%nat
           ∧ Forall (λ c, lib c = None) (NetworkWriter.socket_calls ep)
           ∧ lib (NetworkWriter.Connect (NetworkWriter.ep_host ep)
                    (NetworkWriter.ep_port ep)) = None).
Proof.
  pose proof (find_colons network) as Hfind.
  pose proof (split_colons network) as Hsplit.
  assert (∀ host port,
            network = host +:+ ":" +:+ port →
            NetworkWriter.colons host = 0%nat →
            NetworkWriter.colons port = 0%nat →
            NetworkWriter.init int lib network
            = match int port with
              | inl e => inl (NetworkWriter.Checked e)
              | inr p =>
                  match NetworkWriter.first_failure lib
                          (NetworkWriter.socket_calls
                             (NetworkWriter.endpoint_of host p)) with
                  | Some e => inl e
                  | None => inr (NetworkWriter.endpoint_of host p)
                  end
              end) as Hone.
  { intros host port -> Hh Hp. unfold NetworkWriter.init.
    destruct (Z.eqb_spec (NetworkWriter.find ":" (host +:+ ":" +:+ port)) (-1))
      as [Heq | _].
    { apply find_colons in Heq. rewrite colons_app in Heq.
      change (":" +:+ port) with (String ":" port) in Heq. cbn in Heq. lia. }
    rewrite (split_host_port host port Hh Hp).
    destruct (int port) as [e | p]; [reflexivity |]. apply init_calls. }
  split; [| split; [| split; [| split]]].
  - intros H0. unfold NetworkWriter.init.
    rewrite (proj2 Hfind H0). reflexivity.
  - intros H2. unfold NetworkWriter.init.
    destruct (Z.eqb_spec (NetworkWriter.find ":" network) (-1)) as [Heq | _];
      [apply (proj1 Hfind) in Heq; lia |].
    destruct (NetworkWriter.colons network) as [| [| n]]; [lia | lia |].
    destruct Hsplit as (x & y & z & rest & ->). reflexivity.
  - intros H1. rewrite H1 in Hsplit.
    destruct Hsplit as (host & port & Hnet & Hh & Hp & _). eauto.
  - exact Hone.
  - intros ep Hep.
    destruct (NetworkWriter.colons network) as [| [| n]] eqn:Hn.
    + unfold NetworkWriter.init in Hep. rewrite (proj2 Hfind eq_refl) in Hep.
      discriminate.
    + destruct Hsplit as (host & port & Hnet & Hh & Hp & _).
      rewrite (Hone host port Hnet Hh Hp) in Hep.
      destruct (int port) as [e | p]; [discriminate |].
      destruct (NetworkWriter.first_failure lib
                  (NetworkWriter.socket_calls (NetworkWriter.endpoint_of host p)))
        as [e |] eqn:Hfail; [discriminate |].
      injection Hep as <-. split; [reflexivity |].
      assert (Forall (λ c, lib c = None)
                (NetworkWriter.socket_calls (NetworkWriter.endpoint_of host p)))
        as Hall.
      { revert Hfail.
        generalize (NetworkWriter.socket_calls (NetworkWriter.endpoint_of host p)).
        intros cs. induction cs as [| c cs IH]; cbn; [constructor |].
        destruct (lib c) eqn:Hc; [discriminate |].
        intros Hrest. constructor; [exact Hc | exact (IH Hrest)]. }
      split; [exact Hall |].
      rewrite Forall_forall in Hall. apply Hall.
      unfold NetworkWriter.socket_calls.
      destruct (NetworkWriter.ep_protocol (NetworkWriter.endpoint_of host p));
        repeat (apply elem_of_cons; first [left; reflexivity | right]).
    + exfalso. unfold NetworkWriter.init in Hep.
      destruct (Z.eqb_spec (NetworkWriter.find ":" network) (-1)) as [Heq | _];
        [discriminate |].
      destruct Hsplit as (x & y & z & rest & Hs). rewrite Hs in Hep.
      discriminate.
Qed.

Lemma init_wants_one_colon_witness :
  NetworkWriter.init NetworkAddresses.decimal NetworkAddresses.ports_only
    "rvdas:70000"
  = inl (NetworkWriter.Library (NetworkWriter.Connect "rvdas" 70000)
           "OverflowError")
  ∧ NetworkWriter.init NetworkAddresses.decimal NetworkAddresses.ports_only
      ":6202"
    = inr {| NetworkWriter.ep_protocol := NetworkWriter.UDP;
             NetworkWriter.ep_host := "<broadcast>";
             NetworkWriter.ep_port := 6202 |}.
Proof.
  split.
  - destruct (init_wants_one_colon NetworkAddresses.decimal
                NetworkAddresses.ports_only "rvdas:70000")
      as (_ & _ & _ & Hone & _).
    rewrite (Hone "rvdas" "70000"); reflexivity.
  - destruct (init_wants_one_colon NetworkAddresses.decimal
                NetworkAddresses.ports_only ":6202")
      as (_ & _ & _ & Hone & _).
    rewrite (Hone EmptyString "6202"); reflexivity.
Defined.

(** ** [signal_update] with the callbacks' behaviour *)

Lemma signal_scope_with_quiet (w : world) scope :
  signal_scope_with quiet scope w = signal_scope scope w.
Proof.
  unfold signal_scope_with, signal_scope, bind, get_self. cbn.
  destruct (callbacks (self w) !! scope) as [rs |]; [| reflexivity].
  rewrite for_each_logging. cbn.
  destruct (last rs) as [[f kw] |]; reflexivity.
Qed.

Lemma signal_update_with_quiet (w : world) scope :
  signal_update_with quiet scope w = signal_update scope w.
Proof.
  unfold signal_update_with, signal_update, bind.
  rewrite signal_scope_with_quiet.
  destruct (signal_scope scope w) as [w1 [e | []]]; [reflexivity |].
  destruct scope; [apply signal_scope_with_quiet | reflexivity].
Qed.

Lemma signal_scope_with_cases (run : behaviour) (w : world) scope :
  scopes_nonempty w →
  (callbacks (self w) !! scope = None
   ∧ signal_scope_with run scope w = (w, inr tt))
  ∨ (∃ rs f kw, callbacks (self w) !! scope = Some rs
                ∧ last rs = Some (f, kw)
                ∧ signal_scope_with run scope w
                  = run f kw (at_call w scope rs f kw)).
Proof.
  intros Hne. unfold signal_scope_with, bind, get_self. cbn.
  destruct (callbacks (self w) !! scope) as [rs |] eqn:Hrs.
  - right. rewrite for_each_logging. cbn.
    destruct (last rs) as [[f kw] |] eqn:Hlast.
    + exists rs, f, kw. split; [reflexivity |]. split; [exact Hlast |].
      unfold call_with, bind, emit, at_call. cbn. rewrite <- app_assoc.
      reflexivity.
    + apply last_None in Hlast. exfalso. exact (Hne scope rs Hrs Hlast).
  - left. split; reflexivity.
Qed.

Lemma last_call_registered (w : world) scope rs f kw :
  callbacks (self w) !! scope = Some rs → last rs = Some (f, kw) →
  last_call w scope = [(f, kw)].
Proof.
  intros Hrs Hlast. unfold last_call, registered. rewrite Hrs. cbn.
  rewrite Hlast. reflexivity.
Qed.

Lemma last_call_unknown (w : world) scope :
  callbacks (self w) !! scope = None → last_call w scope = [].
Proof. intros Hrs. unfold last_call, registered. rewrite Hrs. reflexivity. Qed.

Lemma calls_at_call (w : world) scope rs f kw :
  calls (trace (at_call w scope rs f kw)) = calls (trace w) ++ [(f, kw)].
Proof.
  unfold at_call. cbn. rewrite !calls_app, calls_debug_records. reflexivity.
Qed.

(** One scope, with callbacks that are passive. *)
Lemma signal_scope_with_passive (run : behaviour) (w : world) scope :
  scopes_nonempty w → passive run →
  ∃ w', signal_scope_with run scope w = (w', inr tt)
        ∧ self w' = self w ∧ heap w' = heap w
        ∧ calls (trace w') = calls (trace w) ++ last_call w scope.
Proof.
  intros Hne Hrun.
  destruct (signal_scope_with_cases run w scope Hne)
    as [[Hrs ->] | (rs & f & kw & Hrs & Hlast & ->)].
  - exists w. rewrite (last_call_unknown w scope Hrs), app_nil_r. eauto.
  - destruct (Hrun f kw (at_call w scope rs f kw)) as (w' & -> & Hs & Hh & Hc).
    exists w'. split; [reflexivity |]. split; [exact Hs |]. split; [exact Hh |].
    rewrite Hc, calls_at_call, (last_call_registered w scope rs f kw Hrs Hlast).
    reflexivity.
Qed.

(** X10.  What [signal_update] calls, whatever the callbacks do with
    the call.  In a store where every scope has a registration:
    provided the callbacks return and leave the store and the heap
    alone and signal nothing themselves, [signal_update] returns,
    leaves the store and the heap as they were, and calls one callback
    per scope that it visits, namely the last one registered: for a
    cruise, the last registration of the cruise and then the last
    registration for all cruises; without a cruise, the last
    registration for all cruises; a scope without registrations
    contributes no call, and no callback registered for another cruise
    is called.  And when the callback of the cruise raises, for
    instance because it does not take its keywords, [signal_update]
    raises the same exception in the world that the callback left:
    nothing is caught, and the observers of all cruises are not
    called. *)
Theorem signal_update_calls (run : behaviour) (w : world)
    (cruise_id : option string) :
  scopes_nonempty w →
  (passive run →
   let w' := exec (signal_update_with run cruise_id) w in
   result (signal_update_with run cruise_id) w = inr tt
   ∧ heap w' = heap w ∧ self w' = self w
   ∧ calls (trace w')
     = calls (trace w) ++ last_call w cruise_id
       ++ match cruise_id with
          | Some _ => last_call w None
          | None => []
          end)
  ∧ (∀ c rs f kw w1 e,
       cruise_id = Some c →
       callbacks (self w) !! Some c = Some rs → last rs = Some (f, kw) →
       run f kw (at_call w (Some c) rs f kw) = (w1, inl e) →
       signal_update_with run cruise_id w = (w1, inl e)).
Proof.
  intros Hne. split.
  - intros Hrun w'. subst w'. unfold exec, result, signal_update_with, bind.
    destruct (signal_scope_with_passive run w cruise_id Hne Hrun)
      as (w1 & -> & Hs1 & Hh1 & Hc1).
    destruct cruise_id as [c |].
    + assert (scopes_nonempty w1) as Hne1
        by (intros scope rs; rewrite Hs1; apply Hne).
      destruct (signal_scope_with_passive run w1 None Hne1 Hrun)
        as (w2 & -> & Hs2 & Hh2 & Hc2).
      cbn [fst snd]. split; [reflexivity |]. split; [congruence |].
      split; [congruence |].
      rewrite Hc2, Hc1, <- app_assoc. f_equal. f_equal.
      unfold last_call, registered. rewrite Hs1. reflexivity.
    + cbn [fst snd]. split; [reflexivity |]. split; [exact Hh1 |].
      split; [exact Hs1 |]. rewrite app_nil_r. exact Hc1.
  - intros c rs f kw w1 e -> Hrs Hlast Hraise.
    unfold signal_update_with, bind.
    destruct (signal_scope_with_cases run w (Some c) Hne)
      as [[Hnone _] | (rs' & f' & kw' & Hrs' & Hlast' & ->)]; [congruence |].
    assert (rs' = rs) as -> by congruence.
    assert ((f', kw') = (f, kw)) as [= -> ->] by congruence.
    rewrite Hraise. reflexivity.
Qed.

Lemma signal_update_calls_witness :
  calls (trace (exec (signal_update_with quiet (Some "X")) Examples.four_observers))
    = [("x2", []); ("any2", [])]
  ∧ calls (trace (exec (signal_update_with quiet (Some "Y")) Examples.four_observers))
    = [("any2", [])]
  ∧ ∃ w1, signal_update_with Observers.picky (Some "X") Examples.four_observers
          = (w1, inl (TypeError "x2() got an unexpected keyword argument"))
          ∧ calls (trace w1) = [("x2", [])].
Proof.
  assert (scopes_nonempty Examples.four_observers) as Hne
    by (apply scopes_check_sound; vm_compute; reflexivity).
  assert (passive quiet) as Hquiet by (intros f kw w; exists w; eauto).
  split; [| split].
  - destruct (signal_update_calls quiet Examples.four_observers (Some "X") Hne)
      as [Hcalls _].
    destruct (Hcalls Hquiet) as (_ & _ & _ & H). rewrite H. vm_compute; reflexivity.
  - destruct (signal_update_calls quiet Examples.four_observers (Some "Y") Hne)
      as [Hcalls _].
    destruct (Hcalls Hquiet) as (_ & _ & _ & H). rewrite H. vm_compute; reflexivity.
  - destruct (signal_update_calls Observers.picky Examples.four_observers
                (Some "X") Hne) as [_ Hraise].
    exists (at_call Examples.four_observers (Some "X")
              [("x1", []); ("x2", [])] "x2" []).
    split.
    + apply (Hraise "X" [("x1", []); ("x2", [])] "x2" []);
        vm_compute; reflexivity.
    + vm_compute; reflexivity.
Defined.



